(** * DesmosOrgan: the additive-synthesis voice engine

    A shallow embedding of [Source/PluginProcessor.h] and
    [Source/PluginProcessor.cpp]: the [SineWaveVoice] oscillator bank with its
    attack and release envelopes, and the [SineWaveAudioProcessor] voice pool,
    allocator, auto-gain compressor and block renderer.

    Number model.  The C++ [float] and [double] values are embedded as real
    numbers [R]: every arithmetic operation is the exact one, rounding,
    infinities and NaN are abstracted away.  Two places where the binary32
    format shows in the behaviour are modelled apart: the literals [0.002f]
    and [0.02f], whose product with the sample rate is truncated to a sample
    count, carry their binary32 values ([float_0_002], [float_0_02]); and
    the soft clipper of the sample loop is given a second time in binary32
    arithmetic ([Binary32.softClip]), where it saturates.  [int] values are
    embedded as [Z]; the counters of the program stay far inside the 32-bit
    range, so no wrap-around is involved.  [bool] flags are [bool],
    [std::vector] is [list], a pointer into the voice vector is an
    [option nat] index ([None] is [nullptr]). *)

From Stdlib Require Import Reals Lra Lia ZArith List Bool SpecFloat.
Import ListNotations.

Open Scope R_scope.

(** ** Numeric primitives of the C++ runtime *)

(** [juce::MathConstants<double>::twoPi]. *)
Definition twoPi : R := 2 * PI.

(** [static_cast<int>(x)]: conversion of a floating value to [int] truncates
    toward zero.  (Outside the range of [int] the conversion is undefined in
    C++; the model returns the unbounded integer.) *)
Definition truncToInt (x : R) : Z :=
  if Rle_dec 0 x then Int_part x else (- Int_part (- x))%Z.

(** [std::pow] on a positive base. *)
Definition std_pow (base exponent : R) : R := Rpower base exponent.

(** [std::log10]. *)
Definition log10 (x : R) : R := ln x / ln 10.

(** The literals [0.002f] and [0.02f]: the binary32 numbers nearest to the
    decimals, [8589935 * 2^-32] and [10737418 * 2^-29].  The second lies
    below 0.02, so [0.02f * 44100.0] is 881.99998... and its truncation is
    881. *)
Definition float_0_002 : R := 8589935 / 4294967296.
Definition float_0_02 : R := 10737418 / 536870912.

(** ** Vectors *)

(** [v[i] = x].  Writing past the end of a [std::vector] is undefined in C++;
    the model leaves the vector unchanged there. *)
Fixpoint store {A : Type} (l : list A) (i : nat) (x : A) : list A :=
  match l, i with
  | [], _ => []
  | _ :: t, O => x :: t
  | h :: t, S j => h :: store t j x
  end.

(** [v.resize(n, fill)]. *)
Definition resize {A : Type} (l : list A) (n : nat) (fill : A) : list A :=
  if (length l <? n)%nat then l ++ repeat fill (n - length l) else firstn n l.

(** ** SineWaveVoice *)

Module SineWaveVoice.

Definition WAVETABLE_SIZE : Z := 4096.

(** [initializeWavetable]: one sine period, filled once, read-only after. *)
Definition sineTable : list R :=
  map (fun i => sin (twoPi * INR i / IZR WAVETABLE_SIZE))
      (seq 0 (Z.to_nat WAVETABLE_SIZE)).

Record Voice : Type := mkVoice {
  sampleRate : R;
  isActive : bool;
  midiNote : Z;
  velocity : R;
  phases : list R;
  phaseIncrements : list R;
  gains : list R;
  numOvertones : Z;
  attackStage : bool;
  attackLevel : R;
  attackSamples : Z;
  attackSamplesRemaining : Z;
  releaseStage : bool;
  releaseLevel : R;
  releaseSamples : Z;
  releaseSamplesRemaining : Z
}.

(** [setAttackTime(seconds)]. *)
Definition setAttackTime (seconds : R) (v : Voice) : Voice :=
  mkVoice (sampleRate v) (isActive v) (midiNote v) (velocity v)
          (phases v) (phaseIncrements v) (gains v) (numOvertones v)
          (attackStage v) (attackLevel v)
          (Z.max 1 (truncToInt (seconds * sampleRate v)))
          (attackSamplesRemaining v)
          (releaseStage v) (releaseLevel v) (releaseSamples v)
          (releaseSamplesRemaining v).

(** [setReleaseTime(seconds)]. *)
Definition setReleaseTime (seconds : R) (v : Voice) : Voice :=
  mkVoice (sampleRate v) (isActive v) (midiNote v) (velocity v)
          (phases v) (phaseIncrements v) (gains v) (numOvertones v)
          (attackStage v) (attackLevel v) (attackSamples v)
          (attackSamplesRemaining v)
          (releaseStage v) (releaseLevel v)
          (Z.max 1 (truncToInt (seconds * sampleRate v)))
          (releaseSamplesRemaining v).

(** [calculateGain(freq, overtoneNumber, baseFrequency)]. *)
Definition calculateGain (freq : R) (overtoneNumber : Z) (baseFrequency : R) : R :=
  2 / (std_pow 1.1 (freq / baseFrequency) * std_pow 1.6 (IZR overtoneNumber)).

(** The per-overtone arrays together with the running [maxGainSum]. *)
Record Bank : Type := mkBank {
  bPhases : list R;
  bIncrements : list R;
  bGains : list R;
  bGainSum : R
}.

(** Body of the first loop of [startNote], at index [i]. *)
Definition startNoteStep (baseFrequency rate : R) (b : Bank) (i : nat) : Bank :=
  let overtoneFreq := baseFrequency * IZR (Z.of_nat i + 1) in
  let gains' :=
    store (bGains b) i (calculateGain overtoneFreq (Z.of_nat i + 1) baseFrequency) in
  mkBank (store (bPhases b) i 0)
         (store (bIncrements b) i (twoPi * overtoneFreq / rate))
         gains'
         (bGainSum b + Rabs (nth i gains' 0)).

(** Body of the normalisation loop of [startNote], at index [i]. *)
Definition normalizeStep (normalizationFactor : R) (g : list R) (i : nat) : list R :=
  store g i (nth i g 0 * normalizationFactor).

(** [startNote(midiNoteNumber, velocity)]. *)
Definition startNote (midiNoteNumber : Z) (vel : R) (v : Voice) : Voice :=
  let baseFrequency := 440 * std_pow 2 (IZR (midiNoteNumber - 69) / 12) in
  let idx := seq 0 (Z.to_nat (numOvertones v)) in
  let b := fold_left (startNoteStep baseFrequency (sampleRate v)) idx
                     (mkBank (phases v) (phaseIncrements v) (gains v) 0) in
  let gains' :=
    if Rlt_dec 0.9 (bGainSum b)
    then fold_left (normalizeStep (0.9 / bGainSum b)) idx (bGains b)
    else bGains b in
  mkVoice (sampleRate v) true midiNoteNumber vel
          (bPhases b) (bIncrements b) gains' (numOvertones v)
          true 0 (attackSamples v) (attackSamples v)
          false 1 (releaseSamples v) (releaseSamplesRemaining v).

(** The constructor [SineWaveVoice(sampleRate)].  [midiNote] and [velocity]
    are left uninitialised by the C++ constructor and are never read before
    [startNote] writes them; the model puts 0 there. *)
Definition newVoice (rate : R) : Voice :=
  let maxOvertones := 32%nat in
  setReleaseTime float_0_02
    (setAttackTime float_0_002
       (mkVoice rate false 0%Z 0
                (resize [] maxOvertones 0) (resize [] maxOvertones 0)
                (resize [] maxOvertones 0) 8%Z
                false 0 0%Z 0%Z false 0 0%Z 0%Z)).

(** [setSampleRate(newSampleRate)]. *)
Definition setSampleRate (newSampleRate : R) (v : Voice) : Voice :=
  let v1 :=
    mkVoice newSampleRate (isActive v) (midiNote v) (velocity v)
            (phases v) (phaseIncrements v) (gains v) (numOvertones v)
            (attackStage v) (attackLevel v) (attackSamples v)
            (attackSamplesRemaining v)
            (releaseStage v) (releaseLevel v) (releaseSamples v)
            (releaseSamplesRemaining v) in
  let v2 := setReleaseTime float_0_02 (setAttackTime float_0_002 v1) in
  if isActive v2 then startNote (midiNote v2) (velocity v2) v2 else v2.

(** [stopNote()].  The assignment [attackStage = false] precedes the read of
    [attackStage] in the conditional expression, as in the source. *)
Definition stopNote (v : Voice) : Voice :=
  if isActive v && negb (releaseStage v) then
    let attackStage' := false in
    let releaseLevel' := if attackStage' then attackLevel v else 1 in
    mkVoice (sampleRate v) (isActive v) (midiNote v) (velocity v)
            (phases v) (phaseIncrements v) (gains v) (numOvertones v)
            attackStage' (attackLevel v) (attackSamples v)
            (attackSamplesRemaining v)
            true releaseLevel' (releaseSamples v) (releaseSamples v)
  else v.

Definition isNoteActive (v : Voice) : bool := isActive v.

Definition isReleasing (v : Voice) : bool := isActive v && releaseStage v.

Definition getReleaseSamplesRemaining (v : Voice) : Z :=
  if releaseStage v then releaseSamplesRemaining v else 0%Z.

Definition getCurrentAmplitude (v : Voice) : R :=
  if attackStage v then velocity v * attackLevel v
  else if releaseStage v then velocity v * releaseLevel v
  else velocity v.

Definition getMidiNote (v : Voice) : Z := midiNote v.

(** [setNumOvertones(num, maxOvertones)]. *)
Definition setNumOvertones (num maxOvertones : Z) (v : Voice) : Voice :=
  let num := Z.max 1 (Z.min maxOvertones num) in
  if (numOvertones v =? num)%Z then v
  else
    let allocSize := (num + 2)%Z in
    let grow (l : list R) :=
      if (Z.of_nat (length (phases v)) <? allocSize)%Z
      then resize l (Z.to_nat allocSize) 0 else l in
    let v1 :=
      mkVoice (sampleRate v) (isActive v) (midiNote v) (velocity v)
              (grow (phases v)) (grow (phaseIncrements v)) (grow (gains v)) num
              (attackStage v) (attackLevel v) (attackSamples v)
              (attackSamplesRemaining v)
              (releaseStage v) (releaseLevel v) (releaseSamples v)
              (releaseSamplesRemaining v) in
    if isActive v1 && negb (releaseStage v1)
    then startNote (midiNote v1) (velocity v1) v1 else v1.

(** One term of the sum in [getSample]: the interpolated table value of
    overtone [i] times its gain. *)
Definition overtoneSample (v : Voice) (i : nat) : R :=
  let position := (nth i (phases v) 0 / twoPi) * IZR WAVETABLE_SIZE in
  let index0 := Z.rem (truncToInt position) WAVETABLE_SIZE in
  let index := if (index0 <? 0)%Z then (index0 + WAVETABLE_SIZE)%Z else index0 in
  let frac := position - IZR index in
  let nextIndex := Z.rem (index + 1) WAVETABLE_SIZE in
  let value :=
    nth (Z.to_nat index) sineTable 0
    + frac * (nth (Z.to_nat nextIndex) sineTable 0 - nth (Z.to_nat index) sineTable 0) in
  value * nth i (gains v) 0.

(** [getSample()]. *)
Definition getSample (v : Voice) : R :=
  if negb (isActive v) then 0
  else
    let sample :=
      fold_left (fun acc i => acc + overtoneSample v i)
                (seq 0 (Z.to_nat (numOvertones v))) 0 in
    if attackStage v then sample * (velocity v * attackLevel v)
    else if releaseStage v then sample * (velocity v * releaseLevel v)
    else sample * velocity v.

(** Body of the phase loop of [advancePhase], at index [i]: one addition and
    at most one subtraction of [twoPi]. *)
Definition advancePhaseStep (increments : list R) (ph : list R) (i : nat) : list R :=
  let p := nth i ph 0 + nth i increments 0 in
  store ph i (if Rle_dec twoPi p then p - twoPi else p).

(** [advancePhase()]: the phase loop, then the attack block, then the
    release block. *)
Definition advancePhase (v : Voice) : Voice :=
  if negb (isActive v) then v
  else
    let phases' :=
      fold_left (advancePhaseStep (phaseIncrements v))
                (seq 0 (Z.to_nat (numOvertones v))) (phases v) in
    let '(attackStage', attackLevel', attackRemaining') :=
      if attackStage v then
        if (0 <? attackSamplesRemaining v)%Z
        then (true,
              1 - IZR (attackSamplesRemaining v) / IZR (attackSamples v),
              (attackSamplesRemaining v - 1)%Z)
        else (false, 1, attackSamplesRemaining v)
      else (false, attackLevel v, attackSamplesRemaining v) in
    let '(isActive', releaseStage', releaseLevel', releaseRemaining') :=
      if releaseStage v then
        if (0 <? releaseSamplesRemaining v)%Z
        then (true, true,
              IZR (releaseSamplesRemaining v) / IZR (releaseSamples v),
              (releaseSamplesRemaining v - 1)%Z)
        else (false, false, releaseLevel v, releaseSamplesRemaining v)
      else (true, false, releaseLevel v, releaseSamplesRemaining v) in
    mkVoice (sampleRate v) isActive' (midiNote v) (velocity v)
            phases' (phaseIncrements v) (gains v) (numOvertones v)
            attackStage' attackLevel' (attackSamples v) attackRemaining'
            releaseStage' releaseLevel' (releaseSamples v) releaseRemaining'.

End SineWaveVoice.

(** ** SineWaveAudioProcessor *)

Module SineWaveAudioProcessor.

Import SineWaveVoice.

Definition MAX_OVERTONES : Z := 32.
Definition MAX_VOICES : nat := 16.

Record Processor : Type := mkProcessor {
  voices : list Voice;
  currentSampleRate : R;
  currentVoiceScalingFactor : R;
  targetVoiceScalingFactor : R;
  voiceScalingSmoothingCoeff : R
}.

(** The constructor [SineWaveAudioProcessor()]. *)
Definition newProcessor : Processor :=
  mkProcessor (repeat (newVoice 44100) MAX_VOICES) 44100 1 1 0.1.

(** [prepareToPlay(sampleRate, samplesPerBlock)]. *)
Definition prepareToPlay (rate : R) (p : Processor) : Processor :=
  mkProcessor (map (setSampleRate rate) (voices p)) rate 1 1
              (1 - exp (- 1 / (float_0_02 * rate))).

(** First loop of [findFreeVoice]: the first voice that is not active. *)
Fixpoint firstInactive (vs : list Voice) (i : nat) : option nat :=
  match vs with
  | [] => None
  | v :: rest => if negb (isNoteActive v) then Some i else firstInactive rest (S i)
  end.

(** Second loop of [findFreeVoice]: [oldestReleasingVoice] (a pointer, null
    at first) and [oldestReleaseTime]. *)
Fixpoint oldestReleasing (vs : list Voice) (i : nat) (best : option nat)
  (oldestReleaseTime : Z) : option nat :=
  match vs with
  | [] => best
  | v :: rest =>
      if isReleasing v then
        let releaseTime := getReleaseSamplesRemaining v in
        match best with
        | None => oldestReleasing rest (S i) (Some i) releaseTime
        | Some _ =>
            if (releaseTime <? oldestReleaseTime)%Z
            then oldestReleasing rest (S i) (Some i) releaseTime
            else oldestReleasing rest (S i) best oldestReleaseTime
        end
      else oldestReleasing rest (S i) best oldestReleaseTime
  end.

(** Third loop of [findFreeVoice]: [quietestVoice] and [minAmplitude]. *)
Fixpoint quietest (vs : list Voice) (i : nat) (best : nat) (minAmplitude : R) : nat :=
  match vs with
  | [] => best
  | v :: rest =>
      let amplitude := getCurrentAmplitude v in
      if Rlt_dec amplitude minAmplitude
      then quietest rest (S i) i amplitude
      else quietest rest (S i) best minAmplitude
  end.

(** [findFreeVoice()].  The last tier starts from [&voices[0]] with
    [minAmplitude = 1.0f]. *)
Definition findFreeVoice (vs : list Voice) : option nat :=
  match firstInactive vs 0 with
  | Some i => Some i
  | None =>
      match oldestReleasing vs 0 None 0 with
      | Some i => Some i
      | None => Some (quietest vs 0 0%nat 1)
      end
  end.

(** [findVoiceForNote(midiNote)]. *)
Fixpoint findVoiceForNoteFrom (vs : list Voice) (i : nat) (note : Z) : option nat :=
  match vs with
  | [] => None
  | v :: rest =>
      if isNoteActive v && (getMidiNote v =? note)%Z then Some i
      else findVoiceForNoteFrom rest (S i) note
  end.

Definition findVoiceForNote (vs : list Voice) (note : Z) : option nat :=
  findVoiceForNoteFrom vs 0 note.

(** [getActiveVoiceCount()]. *)
Definition getActiveVoiceCount (vs : list Voice) : Z :=
  fold_left (fun count v => if isNoteActive v then (count + 1)%Z else count) vs 0%Z.

(** The MIDI messages that [processBlock] tells apart. *)
Inductive MidiMessage : Type :=
| NoteOn (noteNumber : Z) (floatVelocity : R)
| NoteOff (noteNumber : Z)
| AllNotesOff
| OtherMessage.

(** [voice->f()] through a pointer returned by a search. *)
Definition onVoice (vs : list Voice) (ptr : option nat) (f : Voice -> Voice) : list Voice :=
  match ptr with
  | None => vs
  | Some i =>
      match nth_error vs i with
      | Some v => store vs i (f v)
      | None => vs
      end
  end.

(** Body of the MIDI loop of [processBlock]. *)
Definition handleMidi (vs : list Voice) (message : MidiMessage) : list Voice :=
  match message with
  | NoteOn noteNumber floatVelocity =>
      let vel := floatVelocity * 0.8 in
      onVoice vs (findFreeVoice vs) (startNote noteNumber vel)
  | NoteOff noteNumber =>
      onVoice vs (findVoiceForNote vs noteNumber) stopNote
  | AllNotesOff => map stopNote vs
  | OtherMessage => vs
  end.

(** The parameter push at the head of [processBlock]. *)
Definition pushParameters (numOvertones : Z) (releaseTime attackTime : R) (v : Voice) : Voice :=
  setAttackTime attackTime
    (setReleaseTime releaseTime (setNumOvertones numOvertones MAX_OVERTONES v)).

(** The target scaling factor, from the active voice count and the clamped
    overtone count. *)
Definition targetScaling (activeVoiceCount numOvertones : Z) : R :=
  if (0 <? activeVoiceCount)%Z then
    let baseScaling := 1 / sqrt (IZR activeVoiceCount) in
    if (1 <? numOvertones)%Z
    then baseScaling * (0.7 + 0.3 / log10 (IZR (numOvertones + 1)))
    else baseScaling
  else 1.

(** The soft clipper of the sample loop. *)
Definition softClip (sampleValue : R) : R :=
  if Rlt_dec 0.7 sampleValue
  then 0.7 + (1 - 0.7) * tanh ((sampleValue - 0.7) / (1 - 0.7))
  else if Rlt_dec sampleValue (- 0.7)
  then - 0.7 + (1 - 0.7) * tanh ((sampleValue + 0.7) / (1 - 0.7))
  else sampleValue.

(** The sum of [getSample] over the active voices. *)
Definition sumVoices (vs : list Voice) : R :=
  fold_left (fun sampleValue v =>
               if isNoteActive v then sampleValue + getSample v else sampleValue)
            vs 0.

(** The sample loop of [processBlock]: [numSamples] frames, each written to
    [channels] output channels.  This is the scalar loop, the [#else] branch
    of [#if JUCE_USE_SIMD]; the other branch applies the same clipper. *)
Fixpoint renderLoop (numSamples : nat) (channels : nat) (masterAmplitude : R)
  (p : Processor) : Processor * list (list R) :=
  match numSamples with
  | O => (p, [])
  | S remaining =>
      let factor :=
        currentVoiceScalingFactor p
        + voiceScalingSmoothingCoeff p
          * (targetVoiceScalingFactor p - currentVoiceScalingFactor p) in
      let sampleValue := softClip (sumVoices (voices p) * factor * masterAmplitude) in
      let p' :=
        mkProcessor (map advancePhase (voices p)) (currentSampleRate p) factor
                    (targetVoiceScalingFactor p) (voiceScalingSmoothingCoeff p) in
      let '(pEnd, frames) := renderLoop remaining channels masterAmplitude p' in
      (pEnd, repeat sampleValue channels :: frames)
  end.

(** The parameters and events one block receives. *)
Record BlockInput : Type := mkBlockInput {
  amplitudeParam : R;
  overtonesParam : R;
  releaseParam : R;
  midiMessages : list MidiMessage;
  numSamples : nat;
  totalNumOutputChannels : nat
}.

(** The overtone count of the block: the raw parameter cast to [int] and
    clamped. *)
Definition blockOvertones (inp : BlockInput) : Z :=
  Z.max 1 (Z.min MAX_OVERTONES (truncToInt (overtonesParam inp))).

(** The voices after the parameter push and the MIDI loop. *)
Definition voicesAfterEvents (inp : BlockInput) (vs : list Voice) : list Voice :=
  fold_left handleMidi (midiMessages inp)
            (map (pushParameters (blockOvertones inp) (releaseParam inp) float_0_002) vs).

(** [processBlock(buffer, midiMessages)]: the new processor state and the
    frames written to the buffer. *)
Definition processBlock (inp : BlockInput) (p : Processor) : Processor * list (list R) :=
  let vs := voicesAfterEvents inp (voices p) in
  let target := targetScaling (getActiveVoiceCount vs) (blockOvertones inp) in
  renderLoop (numSamples inp) (totalNumOutputChannels inp) (amplitudeParam inp)
             (mkProcessor vs (currentSampleRate p) (currentVoiceScalingFactor p)
                          target (voiceScalingSmoothingCoeff p)).

End SineWaveAudioProcessor.

Import SineWaveVoice SineWaveAudioProcessor.

(** ** The soft clipper in binary32 *)

(** The clipper once more, on binary32 data ([spec_float] at precision 24
    and maximal exponent 128), every operation rounded to nearest, ties to
    even, as the [float] expressions of the sample loop are evaluated.
    [std::tanh] on [float] is the C library's; it enters as [tanhf]. *)
Module Binary32.

Definition prec : Z := 24.
Definition emax : Z := 128.

(** The real number a finite datum stands for. *)
Definition toR (f : spec_float) : R :=
  match f with
  | S754_finite s m e =>
      let z := if s then Z.neg m else Z.pos m in
      if (0 <=? e)%Z then IZR (z * 2 ^ e) else IZR z / IZR (2 ^ (- e))
  | _ => 0
  end.

(** The literals [0.7f] and [1.0f]. *)
Definition f0_7 : spec_float := S754_finite false 11744051 (-24).
Definition f1_0 : spec_float := S754_finite false 8388608 (-23).

(** The argument [(sampleValue - 0.7f) / (1.0f - 0.7f)] of [std::tanh] in
    the branch [sampleValue > 0.7f]. *)
Definition tanhArgument (sampleValue : spec_float) : spec_float :=
  SFdiv prec emax (SFsub prec emax sampleValue f0_7) (SFsub prec emax f1_0 f0_7).

Definition softClip (tanhf : spec_float -> spec_float) (sampleValue : spec_float)
  : spec_float :=
  if SFltb f0_7 sampleValue then
    SFadd prec emax f0_7
      (SFmul prec emax (SFsub prec emax f1_0 f0_7)
         (tanhf (SFdiv prec emax (SFsub prec emax sampleValue f0_7)
                       (SFsub prec emax f1_0 f0_7))))
  else if SFltb sampleValue (SFopp f0_7) then
    SFadd prec emax (SFopp f0_7)
      (SFmul prec emax (SFsub prec emax f1_0 f0_7)
         (tanhf (SFdiv prec emax (SFadd prec emax sampleValue f0_7)
                       (SFsub prec emax f1_0 f0_7))))
  else sampleValue.

End Binary32.

(** ** Vocabulary of the statements *)

(** One step of the factor smoothing in the sample loop:
    [current += coeff * (target - current)]. *)
Definition smoothStep (coeff target current : R) : R :=
  current + coeff * (target - current).

(** The sum of the samples of the active voices. *)
Definition activeSampleSum (vs : list Voice) : R :=
  fold_right (fun v acc => getSample v + acc) 0 (filter isNoteActive vs).

(** A voice at 44.1 kHz sustaining note 69 at full velocity with a single
    harmonic (gain 0.9, velocity 0.8), at the crest of its sine wave. *)
Definition crestVoice : Voice :=
  mkVoice 44100 true 69 0.8
          (twoPi / 4 :: repeat 0 31) (twoPi * 440 / 44100 :: repeat 0 31)
          (0.9 :: repeat 0 31) 1
          false 1 88 0 false 1 881 0.

(** Two voices are at the same point of their envelope schedule: same
    flags, same remaining counts. *)
Definition sameStages (a b : Voice) : Prop :=
  isActive a = isActive b
  /\ attackStage a = attackStage b
  /\ attackSamplesRemaining a = attackSamplesRemaining b
  /\ releaseStage a = releaseStage b
  /\ releaseSamplesRemaining a = releaseSamplesRemaining b.

(** Sum of [f 0 .. f (n-1)]. *)
Fixpoint sumTo (f : nat -> R) (n : nat) : R :=
  match n with
  | O => 0
  | S k => sumTo f k + f k
  end.

(** The sum of absolute gains over the [numOvertones] harmonics of a voice. *)
Definition gainSum (v : Voice) : R :=
  sumTo (fun k => Rabs (nth k (gains v) 0)) (Z.to_nat (numOvertones v)).

(** Equal-tempered fundamental of a note: [440 * 2^((note-69)/12)]. *)
Definition fundamental (note : Z) : R :=
  440 * Rpower 2 (IZR (note - 69) / 12).

(** The falloff curve of the specification for harmonic index [k]:
    [2 / (1.1^(freq_k/f0) * 1.6^(k+1))] with [freq_k = f0 * (k+1)]. *)
Definition specGain (f0 : R) (k : nat) : R :=
  let freq := f0 * INR (k + 1) in
  2 / (Rpower 1.1 (freq / f0) * 1.6 ^ (k + 1)).

(** The number of voices with [active = true]. *)
Definition activeVoices (vs : list Voice) : nat :=
  length (filter isActive vs).

(** The compressor target in the words of the specification: 1 with no
    active voice; otherwise [base = 1/sqrt(activeVoiceCount)], times
    [0.7 + 0.3/log10(harmonicCount+1)] when [harmonicCount > 1]. *)
Definition specTargetFactor (activeVoiceCount : nat) (harmonicCount : Z) : R :=
  match activeVoiceCount with
  | O => 1
  | S _ =>
      let base := 1 / sqrt (INR activeVoiceCount) in
      if (1 <? harmonicCount)%Z
      then base * (0.7 + 0.3 / (ln (IZR (harmonicCount + 1)) / ln 10))
      else base
  end.

(** What every voice of the pool satisfies between two operations: the
    attack total is the one of the fixed 2 ms attack at the voice's sample
    rate, and an active voice has a velocity in [[0, 0.8]], an attack level
    in [[0, 1]] and, while attacking, a remaining count within the total. *)
Definition voiceInv (v : Voice) : Prop :=
  attackSamples v = Z.max 1 (truncToInt (float_0_002 * sampleRate v))
  /\ (isActive v = true ->
      0 <= velocity v <= 0.8
      /\ 0 <= attackLevel v <= 1
      /\ (attackStage v = true ->
          (0 <= attackSamplesRemaining v <= attackSamples v)%Z)).

(** The pool: [MAX_VOICES] voices, each within [voiceInv]. *)
Definition poolInv (vs : list Voice) : Prop :=
  length vs = MAX_VOICES /\ Forall voiceInv vs.

(** The events the event source supplies: note-on velocities in [[0, 1]]. *)
Definition validMessage (m : MidiMessage) : Prop :=
  match m with
  | NoteOn _ floatVelocity => 0 <= floatVelocity <= 1
  | _ => True
  end.

(** Loop invariant of the second loop of [findFreeVoice], over the voices
    [seen] so far: [best] is null when none of them is releasing, else it
    points to a releasing voice whose remaining count [t] is the least. *)
Definition oldestSoFar (seen all : list Voice) (best : option nat) (t : Z) : Prop :=
  match best with
  | None => Forall (fun u => isReleasing u = false) seen
  | Some j =>
      exists w, nth_error all j = Some w
                /\ isReleasing w = true
                /\ getReleaseSamplesRemaining w = t
                /\ Forall (fun u => isReleasing u = true ->
                                    (t <= getReleaseSamplesRemaining u)%Z) seen
  end.

(** Loop invariant of the third loop of [findFreeVoice]: [m] is at most 1
    and below every amplitude seen; once below 1 it is the amplitude of the
    voice [best]; while it is 1, [best] is still [&voices[0]]. *)
Definition quietestSoFar (seen all : list Voice) (best : nat) (m : R) : Prop :=
  m <= 1
  /\ Forall (fun u => m <= getCurrentAmplitude u) seen
  /\ (m < 1 -> exists w, nth_error all best = Some w /\ getCurrentAmplitude w = m)
  /\ (m = 1 -> best = 0%nat).

(** Every index the per-overtone loops of a voice touch lies inside its
    three vectors, which have one common size. *)
Definition arraysFit (v : Voice) : Prop :=
  (1 <= numOvertones v)%Z
  /\ (Z.to_nat (numOvertones v) <= length (phases v))%nat
  /\ length (phaseIncrements v) = length (phases v)
  /\ length (gains v) = length (phases v).

(** * Properties *)

(** ** Truncation and vectors *)

Lemma truncToInt_nonneg (x : R) (z : Z) :
  0 <= x -> IZR z <= x < IZR z + 1 -> truncToInt x = z.
Proof.
  intros Hx [Hlo Hhi]. unfold truncToInt.
  destruct (Rle_dec 0 x) as [_ | Hn]; [| contradiction].
  symmetry. apply Int_part_spec. lra.
Qed.

(** [float_0_002], [float_0_02] and [Binary32.f0_7] are the decimals
    0.002, 0.02 and 0.7 rounded to binary32: the correctly rounded quotients
    2/1000, 2/100 and 7/10.  The first lies above its decimal, the second
    below. *)
Lemma float_literals_binary32 :
  let decimal (n d : positive) :=
    SFdiv Binary32.prec Binary32.emax
          (binary_round Binary32.prec Binary32.emax false n 0)
          (binary_round Binary32.prec Binary32.emax false d 0) in
  Binary32.toR (decimal 2 1000)%positive = float_0_002
  /\ Binary32.toR (decimal 2 100)%positive = float_0_02
  /\ decimal 7%positive 10%positive = Binary32.f0_7
  /\ 0.002 < float_0_002 /\ float_0_02 < 0.02.
Proof.
  intros decimal.
  replace (decimal 2 1000)%positive with (S754_finite false 8589935 (-32))
    by (vm_compute; reflexivity).
  replace (decimal 2 100)%positive with (S754_finite false 10737418 (-29))
    by (vm_compute; reflexivity).
  split; [reflexivity |]. split; [reflexivity |].
  split; [vm_compute; reflexivity |].
  unfold float_0_002, float_0_02. split; lra.
Qed.

Lemma store_length {A : Type} (l : list A) (i : nat) (x : A) :
  length (store l i x) = length l.
Proof.
  revert i. induction l as [| h t IH]; intros [| j]; simpl; auto.
Qed.

Lemma nth_store_same {A : Type} (l : list A) (i : nat) (x d : A) :
  (i < length l)%nat -> nth i (store l i x) d = x.
Proof.
  revert i. induction l as [| h t IH]; intros [| j] Hi; simpl in *; try lia; auto.
  apply IH. lia.
Qed.

Lemma nth_store_other {A : Type} (l : list A) (i j : nat) (x d : A) :
  i <> j -> nth j (store l i x) d = nth j l d.
Proof.
  revert i j. induction l as [| h t IH]; intros [| i] [| j] Hij; simpl; auto;
    try (exfalso; lia); try (apply IH; lia).
Qed.

Lemma nth_error_store_same {A : Type} (l : list A) (i : nat) (x : A) :
  (i < length l)%nat -> nth_error (store l i x) i = Some x.
Proof.
  revert i. induction l as [| h t IH]; intros [| j] Hi; simpl in *; try lia; auto.
  apply IH. lia.
Qed.

Lemma nth_error_store_other {A : Type} (l : list A) (i j : nat) (x : A) :
  i <> j -> nth_error (store l i x) j = nth_error l j.
Proof.
  revert i j. induction l as [| h t IH]; intros [| i] [| j] Hij; simpl; auto;
    try (exfalso; lia); try (apply IH; lia).
Qed.

(** ** The envelope fields across [advancePhase] *)

Section EnvelopeEquations.

Variable v : Voice.

Lemma advancePhase_inactive : isActive v = false -> advancePhase v = v.
Proof. intros H. unfold advancePhase. rewrite H. reflexivity. Qed.

Ltac envelope_cases :=
  unfold advancePhase;
  destruct (isActive v) eqn:Ea; simpl; rewrite ?Ea; try reflexivity;
  destruct (attackStage v); simpl;
  destruct (0 <? attackSamplesRemaining v)%Z; simpl;
  destruct (releaseStage v); simpl;
  destruct (0 <? releaseSamplesRemaining v)%Z; simpl; reflexivity.

Lemma advancePhase_attackSamples : attackSamples (advancePhase v) = attackSamples v.
Proof. envelope_cases. Qed.

Lemma advancePhase_releaseSamples : releaseSamples (advancePhase v) = releaseSamples v.
Proof. envelope_cases. Qed.

Lemma advancePhase_velocity : velocity (advancePhase v) = velocity v.
Proof. envelope_cases. Qed.

Lemma advancePhase_numOvertones : numOvertones (advancePhase v) = numOvertones v.
Proof. envelope_cases. Qed.

Lemma advancePhase_sampleRate : sampleRate (advancePhase v) = sampleRate v.
Proof. envelope_cases. Qed.

Lemma advancePhase_isActive :
  isActive (advancePhase v)
  = isActive v && negb (releaseStage v && negb (0 <? releaseSamplesRemaining v)%Z).
Proof. envelope_cases. Qed.

Lemma advancePhase_attackStage :
  attackStage (advancePhase v)
  = if isActive v then attackStage v && (0 <? attackSamplesRemaining v)%Z
    else attackStage v.
Proof. envelope_cases. Qed.

Lemma advancePhase_attackSamplesRemaining :
  attackSamplesRemaining (advancePhase v)
  = if isActive v && attackStage v && (0 <? attackSamplesRemaining v)%Z
    then (attackSamplesRemaining v - 1)%Z else attackSamplesRemaining v.
Proof. envelope_cases. Qed.

Lemma advancePhase_attackLevel :
  attackLevel (advancePhase v)
  = if isActive v && attackStage v
    then if (0 <? attackSamplesRemaining v)%Z
         then 1 - IZR (attackSamplesRemaining v) / IZR (attackSamples v)
         else 1
    else attackLevel v.
Proof. envelope_cases. Qed.

Lemma advancePhase_releaseStage :
  releaseStage (advancePhase v)
  = if isActive v then releaseStage v && (0 <? releaseSamplesRemaining v)%Z
    else releaseStage v.
Proof. envelope_cases. Qed.

Lemma advancePhase_releaseSamplesRemaining :
  releaseSamplesRemaining (advancePhase v)
  = if isActive v && releaseStage v && (0 <? releaseSamplesRemaining v)%Z
    then (releaseSamplesRemaining v - 1)%Z else releaseSamplesRemaining v.
Proof. envelope_cases. Qed.

Lemma advancePhase_releaseLevel :
  releaseLevel (advancePhase v)
  = if isActive v && releaseStage v && (0 <? releaseSamplesRemaining v)%Z
    then IZR (releaseSamplesRemaining v) / IZR (releaseSamples v)
    else releaseLevel v.
Proof. envelope_cases. Qed.

End EnvelopeEquations.

(** ** Attack and release: how many calls a stage takes *)

Lemma startNote_envelope (note : Z) (vel : R) (v : Voice) :
  isActive (startNote note vel v) = true
  /\ attackStage (startNote note vel v) = true
  /\ attackLevel (startNote note vel v) = 0
  /\ attackSamplesRemaining (startNote note vel v) = attackSamples v
  /\ attackSamples (startNote note vel v) = attackSamples v
  /\ releaseStage (startNote note vel v) = false
  /\ releaseLevel (startNote note vel v) = 1
  /\ releaseSamples (startNote note vel v) = releaseSamples v.
Proof. repeat split. Qed.

Lemma stopNote_noop (v : Voice) :
  isActive v = false \/ releaseStage v = true -> stopNote v = v.
Proof.
  intros [H | H]; unfold stopNote; rewrite H; simpl; auto.
  destruct (isActive v); reflexivity.
Qed.

Lemma stopNote_enters_release (v : Voice) :
  isActive v = true -> releaseStage v = false ->
  isActive (stopNote v) = true
  /\ releaseStage (stopNote v) = true
  /\ attackStage (stopNote v) = false
  /\ releaseLevel (stopNote v) = 1
  /\ releaseSamplesRemaining (stopNote v) = releaseSamples v
  /\ releaseSamples (stopNote v) = releaseSamples v.
Proof.
  intros Ha Hr. unfold stopNote. rewrite Ha, Hr. simpl. repeat split.
Qed.

(** While samples remain, each call keeps the voice in attack and takes one
    sample off the count; the level written is computed from the count
    before the decrement. *)
Lemma attack_countdown (k : nat) (v : Voice) :
  isActive v = true -> attackStage v = true -> releaseStage v = false ->
  (Z.of_nat k <= attackSamplesRemaining v)%Z ->
  let w := Nat.iter k advancePhase v in
  isActive w = true /\ attackStage w = true /\ releaseStage w = false
  /\ attackSamplesRemaining w = (attackSamplesRemaining v - Z.of_nat k)%Z
  /\ attackSamples w = attackSamples v
  /\ ((0 < k)%nat ->
      attackLevel w
      = 1 - IZR (attackSamplesRemaining v - Z.of_nat k + 1) / IZR (attackSamples v)).
Proof.
  intros Ha Hs Hr. induction k as [| k IH]; intros Hk; cbn zeta.
  - simpl. repeat split; auto; try lia.
  - destruct IH as (Ia & Is & Ir & Irem & Itot & _); [lia |].
    rewrite !Nat.iter_succ.
    set (w := Nat.iter k advancePhase v) in *.
    assert (Hpos : (0 <? attackSamplesRemaining w)%Z = true)
      by (apply Z.ltb_lt; lia).
    rewrite advancePhase_isActive, advancePhase_attackStage,
      advancePhase_releaseStage, advancePhase_attackSamplesRemaining,
      advancePhase_attackSamples, advancePhase_attackLevel.
    rewrite Ia, Is, Ir, Hpos. simpl.
    repeat split; auto; try lia.
    intros _. rewrite Irem, Itot. do 3 f_equal. lia.
Qed.

(** Once the count is exhausted the next call leaves the attack stage. *)
Lemma attack_finish (v : Voice) :
  isActive v = true -> attackStage v = true ->
  (attackSamplesRemaining v <= 0)%Z ->
  attackStage (advancePhase v) = false /\ attackLevel (advancePhase v) = 1.
Proof.
  intros Ha Hs Hrem.
  assert (Hz : (0 <? attackSamplesRemaining v)%Z = false) by (apply Z.ltb_ge; lia).
  rewrite advancePhase_attackStage, advancePhase_attackLevel, Ha, Hs, Hz.
  split; reflexivity.
Qed.

Lemma release_countdown (k : nat) (v : Voice) :
  isActive v = true -> releaseStage v = true ->
  (Z.of_nat k <= releaseSamplesRemaining v)%Z ->
  let w := Nat.iter k advancePhase v in
  isActive w = true /\ releaseStage w = true
  /\ releaseSamplesRemaining w = (releaseSamplesRemaining v - Z.of_nat k)%Z
  /\ releaseSamples w = releaseSamples v.
Proof.
  intros Ha Hr. induction k as [| k IH]; intros Hk; cbn zeta.
  - simpl. repeat split; auto; lia.
  - destruct IH as (Ia & Ir & Irem & Itot); [lia |].
    rewrite !Nat.iter_succ.
    set (w := Nat.iter k advancePhase v) in *.
    assert (Hpos : (0 <? releaseSamplesRemaining w)%Z = true)
      by (apply Z.ltb_lt; lia).
    rewrite advancePhase_isActive, advancePhase_releaseStage,
      advancePhase_releaseSamplesRemaining, advancePhase_releaseSamples.
    rewrite Ia, Ir, Hpos. simpl. repeat split; auto; lia.
Qed.

Lemma release_finish (v : Voice) :
  isActive v = true -> releaseStage v = true ->
  (releaseSamplesRemaining v <= 0)%Z ->
  isActive (advancePhase v) = false.
Proof.
  intros Ha Hr Hrem.
  assert (Hz : (0 <? releaseSamplesRemaining v)%Z = false) by (apply Z.ltb_ge; lia).
  rewrite advancePhase_isActive, Ha, Hr, Hz. reflexivity.
Qed.

Lemma inactive_stays (k : nat) (v : Voice) :
  isActive v = false -> isActive (Nat.iter k advancePhase v) = false.
Proof.
  intros H. induction k as [| k IH]; simpl; auto.
  rewrite advancePhase_inactive; auto.
Qed.

(** A releasing voice is inactive after any number of calls above its
    remaining count. *)
Lemma release_ends (k : nat) (v : Voice) :
  isActive v = true -> releaseStage v = true ->
  (Z.max 0 (releaseSamplesRemaining v) < Z.of_nat k)%Z ->
  isActive (Nat.iter k advancePhase v) = false.
Proof.
  intros Ha Hr Hk.
  destruct (Z_le_gt_dec 0 (releaseSamplesRemaining v)) as [Hnn | Hneg].
  - assert (Hsplit : k = ((k - Z.to_nat (releaseSamplesRemaining v) - 1)
                          + S (Z.to_nat (releaseSamplesRemaining v)))%nat) by lia.
    rewrite Hsplit, Nat.iter_add. apply inactive_stays.
    destruct (release_countdown (Z.to_nat (releaseSamplesRemaining v)) v Ha Hr)
      as (Ia & Ir & Irem & _); [lia |].
    rewrite Nat.iter_succ. apply release_finish; auto.
    rewrite Irem. clear - Hnn. lia.
  - assert (Hsplit : k = ((k - 1) + 1)%nat) by lia.
    rewrite Hsplit, Nat.iter_add. apply inactive_stays.
    simpl. apply release_finish; auto. lia.
Qed.

(** In a voice that is not releasing, calls to [advancePhase] never
    deactivate. *)
Lemma sustain_stays_active (k : nat) (v : Voice) :
  isActive v = true -> releaseStage v = false ->
  isActive (Nat.iter k advancePhase v) = true
  /\ releaseStage (Nat.iter k advancePhase v) = false.
Proof.
  intros Ha Hr. induction k as [| k [Ia Ir]]; simpl; auto.
  rewrite advancePhase_isActive, advancePhase_releaseStage, Ia, Ir. auto.
Qed.

(** ** Concrete voices at 44.1 kHz *)

Lemma newVoice_attackSamples : attackSamples (newVoice 44100) = 88%Z.
Proof.
  unfold newVoice, setReleaseTime, setAttackTime. simpl.
  rewrite (truncToInt_nonneg _ 88); [reflexivity | |]; unfold float_0_002; lra.
Qed.

(** 881 and not 882: [0.02f] lies below 0.02. *)
Lemma newVoice_releaseSamples : releaseSamples (newVoice 44100) = 881%Z.
Proof.
  unfold newVoice, setReleaseTime, setAttackTime. simpl.
  rewrite (truncToInt_nonneg _ 881); [reflexivity | |]; unfold float_0_02; lra.
Qed.

Lemma setTime_samples_lower_bound (seconds rate : R) :
  (1 <= Z.max 1 (truncToInt (seconds * rate)))%Z.
Proof. lia. Qed.

(** ** C2: length of the attack stage *)

(** C2 (as amended).  After [startNote], the voice is still in its attack
    stage after exactly [attackSamples] calls of [advancePhase] (with
    [attackLevel = 1 - 1/attackSamples]); it is the next call, number
    [attackSamples + 1], that leaves the attack stage and sets
    [attackLevel] to 1. *)
Theorem attack_exits_on_call_after_total (note : Z) (vel : R) (v : Voice) :
  let started := startNote note vel v in
  let total := Z.to_nat (attackSamples v) in
  attackStage (Nat.iter total advancePhase started) = true
  /\ ((1 <= attackSamples v)%Z ->
      attackLevel (Nat.iter total advancePhase started)
      = 1 - 1 / IZR (attackSamples v))
  /\ attackStage (Nat.iter (S total) advancePhase started) = false
  /\ attackLevel (Nat.iter (S total) advancePhase started) = 1.
Proof.
  intros started total.
  destruct (startNote_envelope note vel v)
    as (Ha & Hs & _ & Hrem & Htot & Hr & _).
  fold started in Ha, Hs, Hrem, Htot, Hr.
  destruct (Z_le_gt_dec 1 (attackSamples v)) as [Hpos | Hnon].
  - destruct (attack_countdown total started Ha Hs Hr)
      as (Ia & Is & Ir & Irem & Itot & Ilev).
    { rewrite Hrem. unfold total. lia. }
    assert (Hzero : attackSamplesRemaining (Nat.iter total advancePhase started) = 0%Z).
    { rewrite Irem, Hrem. unfold total. lia. }
    split; [exact Is |]. split.
    + intros _. rewrite Ilev by (unfold total; lia).
      rewrite Hrem, Htot. do 3 f_equal. unfold total. lia.
    + rewrite Nat.iter_succ. apply attack_finish; auto. rewrite Hzero. lia.
  - assert (Ht : total = 0%nat) by (unfold total; lia).
    rewrite Ht. simpl. split; [exact Hs |]. split; [lia |].
    apply attack_finish; auto. rewrite Hrem. lia.
Qed.

Lemma attack_exits_on_call_after_total_witness :
  (1 <= attackSamples (newVoice 44100))%Z
  /\ attackLevel
       (Nat.iter (Z.to_nat (attackSamples (newVoice 44100))) advancePhase
                 (startNote 69 0.8 (newVoice 44100)))
     = 1 - 1 / IZR (attackSamples (newVoice 44100)).
Proof.
  assert (H : (1 <= attackSamples (newVoice 44100))%Z)
    by apply setTime_samples_lower_bound.
  split; [exact H |].
  exact (proj1 (proj2 (attack_exits_on_call_after_total 69 0.8 (newVoice 44100))) H).
Defined.

(** C2 (as stated) fails: a fresh voice at 44.1 kHz, started on note 69 and
    advanced exactly [attackSamples] times, is still in its attack stage. *)
Lemma attack_not_exited_after_total_calls :
  let v0 := newVoice 44100 in
  let v := Nat.iter (Z.to_nat (attackSamples v0)) advancePhase (startNote 69 0.8 v0) in
  ~ (attackLevel v = 1 /\ attackStage v = false).
Proof.
  intros v0 v [_ Hexit].
  destruct (startNote_envelope 69 0.8 v0) as (Ha & Hs & _ & Hrem & _ & Hr & _).
  destruct (attack_countdown (Z.to_nat (attackSamples v0)) _ Ha Hs Hr)
    as (_ & Is & _).
  { rewrite Hrem. pose proof (setTime_samples_lower_bound float_0_002 44100).
    change (attackSamples v0) with (Z.max 1 (truncToInt (float_0_002 * 44100))). lia. }
  fold v in Is. congruence.
Qed.

(** ** C3: length of the release stage *)

(** C3 (as amended).  After [stopNote] on an active voice, the voice is
    inactive after [releaseSamples + 1] calls of [advancePhase] (for a voice
    that was already releasing: provided its remaining count does not exceed
    [releaseSamples]); a voice that was not releasing before [stopNote] is
    still active after exactly [releaseSamples] calls. *)
Theorem release_ends_on_call_after_total (v : Voice) :
  isActive v = true ->
  (releaseStage v = true -> (releaseSamplesRemaining v <= releaseSamples v)%Z) ->
  let total := Z.to_nat (releaseSamples v) in
  isNoteActive (Nat.iter (S total) advancePhase (stopNote v)) = false
  /\ (releaseStage v = false ->
      isNoteActive (Nat.iter total advancePhase (stopNote v)) = true).
Proof.
  intros Ha Hbound total. unfold isNoteActive.
  destruct (releaseStage v) eqn:Hr.
  - rewrite stopNote_noop by auto. split; [| discriminate].
    apply release_ends; auto. specialize (Hbound eq_refl). unfold total. lia.
  - destruct (stopNote_enters_release v Ha Hr) as (Sa & Sr & _ & _ & Srem & Stot).
    split.
    + apply release_ends; auto. rewrite Srem. unfold total. lia.
    + intros _. destruct (Z_le_gt_dec 0 (releaseSamples v)) as [Hnn | Hneg].
      * destruct (release_countdown total _ Sa Sr) as (Ia & _); auto.
        rewrite Srem. unfold total. lia.
      * assert (Ht : total = 0%nat) by (unfold total; lia).
        rewrite Ht. exact Sa.
Qed.

Lemma release_ends_on_call_after_total_witness :
  let v := startNote 69 0.8 (newVoice 44100) in
  isActive v = true
  /\ isNoteActive (Nat.iter (S (Z.to_nat (releaseSamples v))) advancePhase (stopNote v))
     = false.
Proof.
  intros v. split; [reflexivity |].
  refine (proj1 (release_ends_on_call_after_total v eq_refl _)).
  intros H. discriminate H.
Defined.

(** C3 (as stated) fails: a sounding voice at 44.1 kHz, stopped and then
    advanced exactly [releaseSamples] times, is still active. *)
Lemma release_not_ended_after_total_calls :
  let v := startNote 69 0.8 (newVoice 44100) in
  isNoteActive (Nat.iter (Z.to_nat (releaseSamples v)) advancePhase (stopNote v))
  <> false.
Proof.
  intros v.
  destruct (stopNote_enters_release v eq_refl eq_refl) as (Sa & Sr & _ & _ & Srem & _).
  destruct (release_countdown (Z.to_nat (releaseSamples v)) _ Sa Sr) as (Ia & _).
  { rewrite Srem.
    change (releaseSamples v) with (Z.max 1 (truncToInt (float_0_02 * 44100))). lia. }
  unfold isNoteActive. rewrite Ia. discriminate.
Qed.

(** ** C4: entering the release stage *)

(** [stopNote] reads [attackStage] after having cleared it: whatever the
    attack level was, the release starts from level 1. *)
Lemma stopNote_releaseLevel_is_one (v : Voice) :
  isActive v = true -> releaseStage v = false -> releaseLevel (stopNote v) = 1.
Proof. intros Ha Hr. apply (stopNote_enters_release v Ha Hr). Qed.

(** C4 (the code at the failing input).  A voice at 44.1 kHz started on
    note 69 and advanced 45 times is active, not releasing, in its attack
    stage with [attackLevel = 1/2]; [stopNote] then sets [releaseLevel] to 1,
    not to the current attack level.  The other fields are set as C4 says. *)
Theorem stopNote_in_attack_sets_releaseLevel_one :
  let v := Nat.iter 45 advancePhase (startNote 69 0.8 (newVoice 44100)) in
  isActive v = true /\ releaseStage v = false
  /\ attackStage v = true /\ attackLevel v = 1 / 2
  /\ releaseLevel (stopNote v) = 1
  /\ releaseLevel (stopNote v) <> attackLevel v
  /\ releaseStage (stopNote v) = true
  /\ attackStage (stopNote v) = false
  /\ releaseSamplesRemaining (stopNote v) = releaseSamples v.
Proof.
  intros v.
  destruct (startNote_envelope 69 0.8 (newVoice 44100))
    as (Ha & Hs & _ & Hrem & Htot & Hr & _).
  destruct (attack_countdown 45 _ Ha Hs Hr) as (Ia & Is & Ir & _ & _ & Ilev).
  { rewrite Hrem, newVoice_attackSamples. lia. }
  fold v in Ia, Is, Ir, Ilev.
  assert (Hlev : attackLevel v = 1 / 2).
  { rewrite Ilev by lia. rewrite Hrem, Htot, newVoice_attackSamples.
    simpl. lra. }
  destruct (stopNote_enters_release v Ia Ir) as (_ & Sr & Ss & Sl & Srem & _).
  repeat split; auto. rewrite Sl, Hlev. lra.
Qed.

(** ** C8: changing the envelope times during a stage *)

Lemma release_levels (k : nat) (v : Voice) :
  isActive v = true -> releaseStage v = true ->
  (0 < k)%nat -> (Z.of_nat k <= releaseSamplesRemaining v)%Z ->
  releaseLevel (Nat.iter k advancePhase v)
  = IZR (releaseSamplesRemaining v - Z.of_nat k + 1) / IZR (releaseSamples v).
Proof.
  intros Ha Hr Hk Hrem. destruct k as [| k]; [lia |].
  destruct (release_countdown k v Ha Hr) as (Ia & Ir & Irem & Itot); [lia |].
  rewrite Nat.iter_succ, advancePhase_releaseLevel, Ia, Ir, Irem, Itot.
  replace (0 <? releaseSamplesRemaining v - Z.of_nat k)%Z with true
    by (symmetry; apply Z.ltb_lt; lia).
  simpl andb. cbv iota. do 2 f_equal. lia.
Qed.

Lemma sameStages_refl (v : Voice) : sameStages v v.
Proof. repeat split. Qed.






(** ** Loops that write one cell per index *)

Lemma fold_store_pointwise {A : Type} (d : A) (g : nat -> A -> A) (n : nat) :
  forall l : list A,
    (n <= length l)%nat ->
    let l' := fold_left (fun acc i => store acc i (g i (nth i acc d))) (seq 0 n) l in
    length l' = length l
    /\ (forall i, (i < n)%nat -> nth i l' d = g i (nth i l d))
    /\ (forall i, (n <= i)%nat -> nth i l' d = nth i l d).
Proof.
  induction n as [| n IH]; intros l Hn; cbn zeta.
  - simpl. repeat split; auto. intros i Hi. lia.
  - rewrite seq_S, fold_left_app. simpl.
    destruct (IH l) as (Hlen & Hlow & Hhigh); [lia |].
    set (l1 := fold_left _ (seq 0 n) l) in *.
    split; [rewrite store_length; exact Hlen |]. split.
    + intros i Hi. destruct (Nat.eq_dec i n) as [-> | Hne].
      * rewrite nth_store_same by lia. rewrite Hhigh by lia. reflexivity.
      * rewrite nth_store_other by lia. apply Hlow. lia.
    + intros i Hi. rewrite nth_store_other by lia. apply Hhigh. lia.
Qed.

(** The first loop of [startNote]. *)
Lemma startNote_loop (f0 rate : R) (n : nat) :
  forall b : Bank,
    (n <= length (bGains b))%nat ->
    let b' := fold_left (startNoteStep f0 rate) (seq 0 n) b in
    length (bGains b') = length (bGains b)
    /\ (forall i, (i < n)%nat ->
          nth i (bGains b') 0
          = calculateGain (f0 * IZR (Z.of_nat i + 1)) (Z.of_nat i + 1) f0)
    /\ (forall i, (n <= i)%nat -> nth i (bGains b') 0 = nth i (bGains b) 0)
    /\ bGainSum b'
       = bGainSum b
         + sumTo (fun i => Rabs (calculateGain (f0 * IZR (Z.of_nat i + 1))
                                               (Z.of_nat i + 1) f0)) n.
Proof.
  induction n as [| n IH]; intros b Hn; cbn zeta.
  - simpl. repeat split; auto; try lra. intros i Hi. lia.
  - rewrite seq_S, fold_left_app. simpl.
    destruct (IH b) as (Hlen & Hlow & Hhigh & Hsum); [lia |].
    set (b1 := fold_left _ (seq 0 n) b) in *.
    split; [rewrite store_length; exact Hlen |]. split; [| split].
    + intros i Hi. destruct (Nat.eq_dec i n) as [-> | Hne].
      * apply nth_store_same. lia.
      * rewrite nth_store_other by lia. apply Hlow. lia.
    + intros i Hi. rewrite nth_store_other by lia. apply Hhigh. lia.
    + rewrite nth_store_same by lia. rewrite Hsum. lra.
Qed.

Lemma startNote_loop_phases (f0 rate : R) (n : nat) :
  forall b : Bank,
    (n <= length (bPhases b))%nat -> (n <= length (bIncrements b))%nat ->
    let b' := fold_left (startNoteStep f0 rate) (seq 0 n) b in
    length (bPhases b') = length (bPhases b)
    /\ length (bIncrements b') = length (bIncrements b)
    /\ (forall i, (i < n)%nat ->
          nth i (bPhases b') 0 = 0
          /\ nth i (bIncrements b') 0 = twoPi * (f0 * IZR (Z.of_nat i + 1)) / rate).
Proof.
  induction n as [| n IH]; intros b Hp Hi; cbn zeta.
  - simpl. repeat split; auto; lia.
  - rewrite seq_S, fold_left_app. simpl.
    destruct (IH b) as (Hlp & Hli & Hlow); [lia | lia |].
    set (b1 := fold_left _ (seq 0 n) b) in *.
    split; [rewrite store_length; exact Hlp |].
    split; [rewrite store_length; exact Hli |].
    intros i Hin. destruct (Nat.eq_dec i n) as [-> | Hne].
    + rewrite !nth_store_same by lia. auto.
    + rewrite !nth_store_other by lia. apply Hlow. lia.
Qed.

Lemma sumTo_ext (f g : nat -> R) (n : nat) :
  (forall i, (i < n)%nat -> f i = g i) -> sumTo f n = sumTo g n.
Proof.
  induction n as [| n IH]; intros H; simpl; auto.
  rewrite IH, H by (intros; auto). reflexivity.
Qed.

Lemma sumTo_scale (f : nat -> R) (c : R) (n : nat) :
  sumTo (fun i => f i * c) n = sumTo f n * c.
Proof. induction n as [| n IH]; simpl; [lra | rewrite IH; lra]. Qed.

Lemma sumTo_nonneg (f : nat -> R) (n : nat) :
  (forall i, 0 <= f i) -> 0 <= sumTo f n.
Proof.
  intros H. induction n as [| n IH]; simpl; [lra | specialize (H n); lra].
Qed.

(** ** C6: the gains after [startNote] *)

Lemma fundamental_pos (note : Z) : 0 < fundamental note.
Proof.
  unfold fundamental, Rpower. pose proof (exp_pos (IZR (note - 69) / 12 * ln 2)). lra.
Qed.

(** The gain computed by the code at index [k] is the curve of the
    specification. *)
Lemma calculateGain_specGain (f0 : R) (k : nat) :
  calculateGain (f0 * IZR (Z.of_nat k + 1)) (Z.of_nat k + 1) f0 = specGain f0 k.
Proof.
  unfold calculateGain, specGain, std_pow.
  replace (IZR (Z.of_nat k + 1)) with (INR (k + 1))
    by (rewrite INR_IZR_INZ; f_equal; lia).
  rewrite Rpower_pow by lra. reflexivity.
Qed.

Lemma specGain_pos (f0 : R) (k : nat) : 0 < specGain f0 k.
Proof.
  unfold specGain. apply Rdiv_lt_0_compat; [lra |].
  apply Rmult_lt_0_compat; [apply exp_pos | apply pow_lt; lra].
Qed.

Lemma startNote_gains_shape (note : Z) (vel : R) (v : Voice) :
  (Z.to_nat (numOvertones v) <= length (gains v))%nat ->
  let h := Z.to_nat (numOvertones v) in
  let rawSum := sumTo (fun k => Rabs (specGain (fundamental note) k)) h in
  let c := if Rlt_dec 0.9 rawSum then 0.9 / rawSum else 1 in
  forall k, (k < h)%nat ->
    nth k (gains (startNote note vel v)) 0 = specGain (fundamental note) k * c.
Proof.
  intros Hlen h rawSum c k Hk.
  unfold startNote. cbn [gains]. fold (fundamental note). fold h.
  destruct (startNote_loop (fundamental note) (sampleRate v) h
              (mkBank (phases v) (phaseIncrements v) (gains v) 0) Hlen)
    as (Blen & Blow & _ & Bsum).
  set (b := fold_left _ (seq 0 h) (mkBank _ _ _ _)) in *.
  cbn [bGains bGainSum] in Blen, Bsum.
  assert (Hsum : bGainSum b = rawSum).
  { rewrite Bsum, Rplus_0_l. apply sumTo_ext. intros i _.
    rewrite calculateGain_specGain. reflexivity. }
  rewrite Hsum. fold c. unfold c.
  destruct (Rlt_dec 0.9 rawSum) as [Hbig | Hsmall].
  - destruct (fold_store_pointwise 0 (fun _ x => x * (0.9 / rawSum)) h (bGains b))
      as (_ & Nlow & _); [lia |].
    unfold normalizeStep. rewrite (Nlow k Hk), (Blow k Hk).
    rewrite calculateGain_specGain. reflexivity.
  - rewrite (Blow k Hk), calculateGain_specGain. lra.
Qed.

(** C6.  After [startNote] every harmonic gain is the curve
    [2 / (1.1^(freq_k/f0) * 1.6^(k+1))] times one common factor [c] in
    (0, 1], the sum of absolute gains over the harmonics is at most 0.9, and
    it is exactly 0.9 whenever the raw sum exceeds 0.9. *)
Theorem startNote_gain_sum_bounded (note : Z) (vel : R) (v : Voice) :
  (0 <= note <= 127)%Z -> (1 <= numOvertones v <= 32)%Z ->
  (Z.to_nat (numOvertones v) <= length (gains v))%nat ->
  let v' := startNote note vel v in
  let h := Z.to_nat (numOvertones v) in
  let rawSum := sumTo (fun k => Rabs (specGain (fundamental note) k)) h in
  (exists c, 0 < c <= 1
             /\ forall k, (k < h)%nat ->
                  nth k (gains v') 0 = c * specGain (fundamental note) k)
  /\ gainSum v' <= 0.9
  /\ (0.9 < rawSum -> gainSum v' = 0.9).
Proof.
  intros _ _ Hlen v' h rawSum.
  pose proof (startNote_gains_shape note vel v Hlen) as Hshape.
  cbn zeta in Hshape. fold h rawSum v' in Hshape.
  set (c := if Rlt_dec 0.9 rawSum then 0.9 / rawSum else 1) in *.
  assert (Hc : 0 < c <= 1).
  { unfold c. destruct (Rlt_dec 0.9 rawSum) as [Hbig | Hsmall]; [| lra].
    split.
    - apply Rdiv_lt_0_compat; lra.
    - assert (Hq : 0.9 / rawSum * rawSum = 0.9) by (field; lra). nra. }
  assert (Hsum : gainSum v' = rawSum * c).
  { unfold gainSum. change (Z.to_nat (numOvertones v')) with h.
    unfold rawSum. rewrite <- sumTo_scale. apply sumTo_ext. intros k Hk.
    rewrite (Hshape k Hk), Rabs_mult, (Rabs_pos_eq c) by lra. reflexivity. }
  split; [| split].
  - exists c. split; [exact Hc |]. intros k Hk. rewrite (Hshape k Hk). lra.
  - rewrite Hsum. unfold c. destruct (Rlt_dec 0.9 rawSum) as [Hbig | Hsmall].
    + right. field. lra.
    + lra.
  - intros Hbig. rewrite Hsum. unfold c.
    destruct (Rlt_dec 0.9 rawSum) as [_ | Hsmall]; [field | ]; lra.
Qed.

Lemma startNote_gain_sum_bounded_witness :
  gainSum (startNote 69 0.8 (newVoice 44100)) <= 0.9.
Proof.
  refine (proj1 (proj2 (startNote_gain_sum_bounded 69 0.8 (newVoice 44100) _ _ _)));
    simpl; lia.
Defined.

(** With at least one harmonic the raw sum always exceeds 0.9 (the first
    term alone is [2 / (1.1 * 1.6)]), so the normalisation always runs and
    the sum is exactly 0.9. *)
Lemma startNote_gain_sum_exact (note : Z) (vel : R) (v : Voice) :
  (1 <= numOvertones v)%Z ->
  (Z.to_nat (numOvertones v) <= length (gains v))%nat ->
  gainSum (startNote note vel v) = 0.9.
Proof.
  intros Hh Hlen.
  pose proof (startNote_gains_shape note vel v Hlen) as Hshape. cbn zeta in Hshape.
  set (h := Z.to_nat (numOvertones v)) in *.
  set (rawSum := sumTo (fun k => Rabs (specGain (fundamental note) k)) h) in *.
  assert (Hbig : 0.9 < rawSum).
  { unfold rawSum. destruct h as [| n] eqn:Eh; [unfold h in Eh; lia |].
    assert (Hfirst : sumTo (fun k => Rabs (specGain (fundamental note) k)) 1
                     <= sumTo (fun k => Rabs (specGain (fundamental note) k)) (S n)).
    { clear. induction n as [| n IH]; [lra |].
      change (sumTo ?f (S (S n))) with (sumTo f (S n) + f (S n)).
      pose proof (Rabs_pos (specGain (fundamental note) (S n))). lra. }
    eapply Rlt_le_trans; [| exact Hfirst].
    simpl. rewrite Rplus_0_l, Rabs_pos_eq by (left; apply specGain_pos).
    unfold specGain. simpl.
    replace (fundamental note * 1 / fundamental note) with 1
      by (field; pose proof (fundamental_pos note); lra).
    rewrite Rpower_1 by lra. lra. }
  unfold gainSum. change (Z.to_nat (numOvertones (startNote note vel v))) with h.
  rewrite (sumTo_ext _ (fun k => Rabs (specGain (fundamental note) k) * (0.9 / rawSum))).
  - rewrite sumTo_scale. fold rawSum. field. lra.
  - intros k Hk. rewrite (Hshape k Hk).
    destruct (Rlt_dec 0.9 rawSum) as [_ | Hno]; [| lra].
    rewrite Rabs_mult. f_equal. apply Rabs_pos_eq.
    left. apply Rdiv_lt_0_compat; lra.
Qed.

(** ** C7: the phases across [advancePhase] *)

(** The phase loop of [advancePhase]: one addition and at most one
    subtraction of [twoPi] per harmonic. *)
Lemma advancePhase_phase (v : Voice) (k : nat) :
  isActive v = true ->
  (Z.to_nat (numOvertones v) <= length (phases v))%nat ->
  (k < Z.to_nat (numOvertones v))%nat ->
  nth k (phases (advancePhase v)) 0
  = let p := nth k (phases v) 0 + nth k (phaseIncrements v) 0 in
    if Rle_dec twoPi p then p - twoPi else p.
Proof.
  intros Ha Hlen Hk.
  assert (Hph : phases (advancePhase v)
                = fold_left (advancePhaseStep (phaseIncrements v))
                            (seq 0 (Z.to_nat (numOvertones v))) (phases v)).
  { unfold advancePhase. rewrite Ha. simpl.
    destruct (attackStage v), (0 <? attackSamplesRemaining v)%Z,
      (releaseStage v), (0 <? releaseSamplesRemaining v)%Z; reflexivity. }
  rewrite Hph.
  destruct (fold_store_pointwise 0
              (fun i x => let p := x + nth i (phaseIncrements v) 0 in
                          if Rle_dec twoPi p then p - twoPi else p)
              (Z.to_nat (numOvertones v)) (phases v) Hlen) as (_ & Hlow & _).
  exact (Hlow k Hk).
Qed.

Lemma advancePhase_phaseIncrements (v : Voice) :
  phaseIncrements (advancePhase v) = phaseIncrements v.
Proof.
  unfold advancePhase. destruct (isActive v); simpl; auto.
  destruct (attackStage v), (0 <? attackSamplesRemaining v)%Z,
    (releaseStage v), (0 <? releaseSamplesRemaining v)%Z; reflexivity.
Qed.

(** What the single subtraction does achieve: as long as no increment
    exceeds [twoPi], phases that are in [[0, twoPi)] stay there. *)
Lemma advancePhase_keeps_small_increments_wrapped (v : Voice) :
  isActive v = true ->
  (Z.to_nat (numOvertones v) <= length (phases v))%nat ->
  (forall k, (k < Z.to_nat (numOvertones v))%nat ->
     0 <= nth k (phases v) 0 < twoPi
     /\ 0 <= nth k (phaseIncrements v) 0 <= twoPi) ->
  forall k, (k < Z.to_nat (numOvertones v))%nat ->
    0 <= nth k (phases (advancePhase v)) 0 < twoPi.
Proof.
  intros Ha Hlen Hall k Hk.
  rewrite advancePhase_phase by assumption. cbn zeta.
  destruct (Hall k Hk) as [Hp Hi].
  destruct (Rle_dec twoPi _) as [Hge | Hlt]; lra.
Qed.

Lemma advancePhase_phases_length (v : Voice) :
  (Z.to_nat (numOvertones v) <= length (phases v))%nat ->
  length (phases (advancePhase v)) = length (phases v).
Proof.
  intros Hlen. destruct (isActive v) eqn:Ea.
  - assert (Hph : phases (advancePhase v)
                  = fold_left (advancePhaseStep (phaseIncrements v))
                              (seq 0 (Z.to_nat (numOvertones v))) (phases v)).
    { unfold advancePhase. rewrite Ea. simpl.
      destruct (attackStage v), (0 <? attackSamplesRemaining v)%Z,
        (releaseStage v), (0 <? releaseSamplesRemaining v)%Z; reflexivity. }
    rewrite Hph.
    apply (fold_store_pointwise 0
             (fun i x => let p := x + nth i (phaseIncrements v) 0 in
                         if Rle_dec twoPi p then p - twoPi else p)
             (Z.to_nat (numOvertones v)) (phases v) Hlen).
  - rewrite advancePhase_inactive by assumption. reflexivity.
Qed.

(** The same over any number of calls, whether or not the voice goes
    inactive on the way. *)
Lemma advancePhase_iter_keeps_small_increments_wrapped (n : nat) (v : Voice) :
  (Z.to_nat (numOvertones v) <= length (phases v))%nat ->
  (forall k, (k < Z.to_nat (numOvertones v))%nat ->
     0 <= nth k (phases v) 0 < twoPi
     /\ 0 <= nth k (phaseIncrements v) 0 <= twoPi) ->
  let w := Nat.iter n advancePhase v in
  numOvertones w = numOvertones v
  /\ length (phases w) = length (phases v)
  /\ phaseIncrements w = phaseIncrements v
  /\ forall k, (k < Z.to_nat (numOvertones v))%nat ->
       0 <= nth k (phases w) 0 < twoPi.
Proof.
  intros Hlen Hall. induction n as [| n IH]; cbn zeta.
  - simpl. repeat split; auto; apply Hall; assumption.
  - rewrite Nat.iter_succ. cbn zeta in IH.
    set (w := Nat.iter n advancePhase v) in *.
    destruct IH as (Hn & Hl & Hi & Hp).
    rewrite advancePhase_numOvertones, advancePhase_phaseIncrements,
      advancePhase_phases_length by (rewrite Hn, Hl; exact Hlen).
    split; [exact Hn |]. split; [exact Hl |]. split; [exact Hi |].
    intros k Hk. destruct (isActive w) eqn:Ea.
    + apply advancePhase_keeps_small_increments_wrapped;
        rewrite ?Hn, ?Hl; auto.
      intros j Hj. split; [apply Hp; exact Hj |]. rewrite Hi. apply Hall. exact Hj.
    + rewrite advancePhase_inactive by assumption. apply Hp. exact Hk.
Qed.

(** Phases and increments right after [startNote]. *)
Lemma startNote_phases (note : Z) (vel : R) (v : Voice) (k : nat) :
  (Z.to_nat (numOvertones v) <= length (phases v))%nat ->
  (Z.to_nat (numOvertones v) <= length (phaseIncrements v))%nat ->
  (k < Z.to_nat (numOvertones v))%nat ->
  let v' := startNote note vel v in
  length (phases v') = length (phases v)
  /\ nth k (phases v') 0 = 0
  /\ nth k (phaseIncrements v') 0
     = twoPi * (fundamental note * IZR (Z.of_nat k + 1)) / sampleRate v.
Proof.
  intros Hp Hi Hk.
  destruct (startNote_loop_phases (fundamental note) (sampleRate v)
              (Z.to_nat (numOvertones v))
              (mkBank (phases v) (phaseIncrements v) (gains v) 0) Hp Hi)
    as (Hlen & _ & Hlow).
  destruct (Hlow k Hk) as [H0 Hinc].
  repeat split; assumption.
Qed.

Lemma fundamental_127_lower_bound : 7040 <= fundamental 127.
Proof.
  unfold fundamental.
  assert (H16 : Rpower 2 4 = 16).
  { replace 4 with (INR 4) by (simpl; lra). rewrite Rpower_pow by lra. simpl. lra. }
  assert (Hmono : Rpower 2 4 <= Rpower 2 (IZR (127 - 69) / 12)).
  { apply Rle_Rpower; [lra |]. simpl. lra. }
  lra.
Qed.

(** C7 (the code at the failing input).  A voice at 44.1 kHz with 32
    harmonics, started on note 127 and advanced once: harmonic 31 (the 32nd)
    has an increment above [2 * twoPi], the single subtraction leaves its
    phase at or above [twoPi]. *)
Theorem advancePhase_leaves_phase_above_twoPi :
  let v0 := setNumOvertones 32 32 (newVoice 44100) in
  let v := advancePhase (startNote 127 0.8 v0) in
  isActive v = true /\ numOvertones v = 32%Z
  /\ twoPi <= nth 31 (phases v) 0.
Proof.
  intros v0 v.
  assert (Hn : numOvertones v0 = 32%Z) by reflexivity.
  assert (Hlp : length (phases v0) = 34%nat) by reflexivity.
  assert (Hli : length (phaseIncrements v0) = 34%nat) by reflexivity.
  assert (Hrate : sampleRate v0 = 44100) by reflexivity.
  destruct (startNote_phases 127 0.8 v0 31) as (Slen & Sph & Sinc);
    try (rewrite Hn; simpl; lia).
  split; [| split].
  - unfold v. rewrite advancePhase_isActive. reflexivity.
  - unfold v. rewrite advancePhase_numOvertones. reflexivity.
  - unfold v. rewrite advancePhase_phase.
    + cbn zeta. rewrite Sph, Sinc, Hrate.
      pose proof fundamental_127_lower_bound as Hf.
      pose proof PI_RGT_0 as Hpi.
      replace (IZR (Z.of_nat 31 + 1)) with 32 by (simpl; lra).
      assert (Hbig : 5 * twoPi <= twoPi * (fundamental 127 * 32) / 44100).
      { unfold twoPi. 
        replace (2 * PI * (fundamental 127 * 32) / 44100)
          with (2 * PI * (fundamental 127 * 32 / 44100)) by (field; lra).
        assert (Hq : 5 <= fundamental 127 * 32 / 44100) by lra.
        nra. }
      unfold twoPi in *.
      destruct (Rle_dec (2 * PI) _) as [Hge | Hlt]; lra.
    + reflexivity.
    + rewrite Slen, Hlp. simpl. lia.
    + simpl. lia.
Qed.

(** ** Entries of the wavetable *)

Lemma nth_map_seq {A : Type} (f : nat -> A) (n j : nat) (d : A) :
  (j < n)%nat -> nth j (map f (seq 0 n)) d = f j.
Proof.
  intros Hj.
  rewrite (nth_indep _ d (f 0%nat)) by (rewrite length_map, length_seq; exact Hj).
  rewrite map_nth, seq_nth by exact Hj. reflexivity.
Qed.

Lemma sineTable_entry (j : nat) :
  (j < 4096)%nat ->
  nth j sineTable 0 = sin (twoPi * INR j / IZR WAVETABLE_SIZE).
Proof.
  intros Hj. unfold sineTable.
  apply (nth_map_seq (fun i => sin (twoPi * INR i / IZR WAVETABLE_SIZE))).
  change (Z.to_nat WAVETABLE_SIZE) with 4096%nat. exact Hj.
Qed.

(** ** C1: the soft clipper and the samples written to the buffer *)

Lemma exp_times_pow (a : R) (n : nat) : exp a ^ n = exp (INR n * a).
Proof.
  induction n as [| n IH].
  - simpl. rewrite Rmult_0_l, exp_0. reflexivity.
  - rewrite S_INR. simpl pow. rewrite IH, <- exp_plus. f_equal. ring.
Qed.

Lemma tanh_quotient (x : R) :
  tanh x = (exp x - exp (- x)) / (exp x + exp (- x)).
Proof.
  unfold tanh, sinh, cosh.
  pose proof (exp_pos x). pose proof (exp_pos (- x)).
  field. lra.
Qed.

Lemma tanh_bounds (x : R) : -1 < tanh x < 1.
Proof.
  rewrite tanh_quotient.
  pose proof (exp_pos x) as Ha. pose proof (exp_pos (- x)) as Hb.
  set (a := exp x) in *. set (b := exp (- x)) in *.
  split.
  - apply Rmult_lt_reg_r with (a + b); [lra |].
    replace ((a - b) / (a + b) * (a + b)) with (a - b) by (field; lra). lra.
  - apply Rmult_lt_reg_r with (a + b); [lra |].
    replace ((a - b) / (a + b) * (a + b)) with (a - b) by (field; lra). lra.
Qed.

Lemma tanh_opp (x : R) : tanh (- x) = - tanh x.
Proof.
  rewrite !tanh_quotient, Ropp_involutive.
  pose proof (exp_pos x). pose proof (exp_pos (- x)).
  field. lra.
Qed.

Lemma softClip_strictly_inside (x : R) : -1 < softClip x < 1.
Proof.
  unfold softClip.
  destruct (Rlt_dec 0.7 x) as [Hhigh | Hnh].
  - pose proof (tanh_bounds ((x - 0.7) / (1 - 0.7))). lra.
  - destruct (Rlt_dec x (- 0.7)) as [Hlow | Hnl].
    + pose proof (tanh_bounds ((x + 0.7) / (1 - 0.7))). lra.
    + lra.
Qed.

(** The clipper in the words of the specification. *)
Lemma softClip_curve (x : R) :
  (-0.7 <= x <= 0.7 -> softClip x = x)
  /\ (0.7 < x -> softClip x = 0.7 + 0.3 * tanh ((Rabs x - 0.7) / 0.3))
  /\ (x < -0.7 -> softClip x = - (0.7 + 0.3 * tanh ((Rabs x - 0.7) / 0.3))).
Proof.
  unfold softClip. split; [| split]; intros Hx.
  - destruct (Rlt_dec 0.7 x); [lra |]. destruct (Rlt_dec x (- 0.7)); lra.
  - destruct (Rlt_dec 0.7 x) as [_ | Hn]; [| lra].
    rewrite Rabs_pos_eq by lra.
    replace (1 - 0.7) with 0.3 by lra. reflexivity.
  - destruct (Rlt_dec 0.7 x) as [Hh | _]; [lra |].
    destruct (Rlt_dec x (- 0.7)) as [_ | Hn]; [| lra].
    rewrite Rabs_left by lra.
    replace (1 - 0.7) with 0.3 by lra.
    replace ((- x - 0.7) / 0.3) with (- ((x + 0.7) / 0.3)) by lra.
    rewrite tanh_opp. lra.
Qed.

(** Every frame of the sample loop is one clipped value, copied to every
    output channel. *)
Lemma renderLoop_frames (n channels : nat) (masterAmplitude : R) :
  forall p : Processor,
    let frames := snd (renderLoop n channels masterAmplitude p) in
    length frames = n
    /\ forall frame, In frame frames ->
         exists x, frame = repeat (softClip x) channels.
Proof.
  induction n as [| n IH]; intros p; cbn zeta.
  - simpl. split; [reflexivity | intros frame []].
  - simpl.
    set (p' := mkProcessor _ _ _ _ _).
    specialize (IH p'). cbn zeta in IH.
    destruct (renderLoop n channels masterAmplitude p') as [pEnd frames].
    simpl in *. destruct IH as [Hlen Hall]. split; [lia |].
    intros frame [Hhead | Htail]; [| auto].
    eexists. symmetry. exact Hhead.
Qed.

(** The first frame of a block: the sum over the active voices, times the
    smoothed factor and the master amplitude, clipped. *)
Lemma renderLoop_first_frame (n channels : nat) (masterAmplitude : R) (p : Processor) :
  let factor :=
    currentVoiceScalingFactor p
    + voiceScalingSmoothingCoeff p
      * (targetVoiceScalingFactor p - currentVoiceScalingFactor p) in
  nth 0 (snd (renderLoop (S n) channels masterAmplitude p)) []
  = repeat (softClip (sumVoices (voices p) * factor * masterAmplitude)) channels.
Proof.
  simpl. destruct (renderLoop n channels masterAmplitude _). reflexivity.
Qed.

(** The clipper never leaves [[-1, 1]]. *)
Lemma softClip_within_unit (x : R) : -1 <= softClip x <= 1.
Proof. pose proof (softClip_strictly_inside x). lra. Qed.

(** The voice loop of a frame adds up the samples of the active voices. *)
Lemma sumVoices_from (vs : list Voice) (start : R) :
  fold_left (fun sampleValue v =>
               if isNoteActive v then sampleValue + getSample v else sampleValue)
            vs start
  = start + activeSampleSum vs.
Proof.
  revert start. unfold activeSampleSum.
  induction vs as [| v rest IH]; intros start; simpl; [lra |].
  rewrite IH. destruct (isNoteActive v); simpl; lra.
Qed.

Lemma sumVoices_activeSampleSum (vs : list Voice) :
  sumVoices vs = activeSampleSum vs.
Proof. unfold sumVoices. rewrite sumVoices_from. lra. Qed.

Lemma activeSampleSum_repeat (v : Voice) (n : nat) :
  isNoteActive v = true -> activeSampleSum (repeat v n) = INR n * getSample v.
Proof.
  intros Ha. unfold activeSampleSum.
  induction n as [| n IH]; [simpl; lra |].
  rewrite S_INR. cbn [repeat filter]. rewrite Ha. cbn [fold_right].
  rewrite IH. lra.
Qed.

(** Frame [k] of the sample loop: the voices have been advanced [k] times,
    the factor smoothed [k + 1] times. *)
Lemma renderLoop_frame_at (channels : nat) (masterAmplitude : R) :
  forall (n k : nat) (p : Processor),
    (k < n)%nat ->
    nth k (snd (renderLoop n channels masterAmplitude p)) []
    = repeat
        (softClip
           (sumVoices (map (Nat.iter k advancePhase) (voices p))
            * Nat.iter (S k)
                (smoothStep (voiceScalingSmoothingCoeff p)
                            (targetVoiceScalingFactor p))
                (currentVoiceScalingFactor p)
            * masterAmplitude))
        channels.
Proof.
  induction n as [| n IH]; intros k p Hk; [lia |].
  simpl renderLoop.
  set (p' := mkProcessor _ _ _ _ _).
  specialize (IH (pred k) p').
  destruct (renderLoop n channels masterAmplitude p') as [pEnd frames].
  destruct k as [| k].
  - simpl. rewrite map_id. reflexivity.
  - simpl nth. simpl pred in IH. simpl snd in IH. rewrite IH by lia.
    unfold p'. cbn [voices voiceScalingSmoothingCoeff targetVoiceScalingFactor
                   currentVoiceScalingFactor].
    rewrite map_map.
    rewrite (map_ext (fun v => Nat.iter k advancePhase (advancePhase v))
                     (Nat.iter (S k) advancePhase))
      by (intros v; rewrite (Nat.iter_succ_r k); reflexivity).
    rewrite (Nat.iter_succ_r (S k)). reflexivity.
Qed.

(** ** The voice at the crest of its wave *)

Lemma overtoneSample_crest (v : Voice) (i : nat) :
  nth i (phases v) 0 = twoPi / 4 -> overtoneSample v i = nth i (gains v) 0.
Proof.
  intros Hphase. unfold overtoneSample. rewrite Hphase.
  assert (Hpi : 0 < twoPi) by (unfold twoPi; pose proof PI_RGT_0; lra).
  assert (Hpos : twoPi / 4 / twoPi * IZR WAVETABLE_SIZE = 1024).
  { unfold WAVETABLE_SIZE. field. lra. }
  rewrite Hpos, (truncToInt_nonneg 1024 1024) by lra.
  change (Z.rem 1024 WAVETABLE_SIZE) with 1024%Z.
  change (1024 <? 0)%Z with false. cbv iota.
  rewrite (sineTable_entry (Z.to_nat 1024)) by lia.
  rewrite INR_IZR_INZ, Z2Nat.id by lia.
  replace (twoPi * 1024 / IZR WAVETABLE_SIZE) with (PI / 2)
    by (unfold twoPi, WAVETABLE_SIZE; lra).
  rewrite sin_PI2. lra.
Qed.

(** A sustaining voice with one harmonic at the crest: the sample is the
    gain times the velocity. *)
Lemma getSample_crest (v : Voice) :
  isActive v = true -> numOvertones v = 1%Z ->
  attackStage v = false -> releaseStage v = false ->
  nth 0 (phases v) 0 = twoPi / 4 ->
  getSample v = nth 0 (gains v) 0 * velocity v.
Proof.
  intros Ha Hn Hs Hr Hphase. unfold getSample. rewrite Ha, Hn, Hs, Hr.
  simpl. rewrite (overtoneSample_crest v 0 Hphase). lra.
Qed.

(** ** The clipper where it saturates *)

(** Beyond 13 the hyperbolic tangent is nearer to 1 than half a unit in the
    last place of the binary32 numbers below 1. *)
Lemma tanh_saturates (y : R) : 13 <= y -> 1 - / 2 ^ 25 < tanh y < 1.
Proof.
  intros Hy. split; [| apply tanh_bounds].
  rewrite tanh_quotient.
  assert (He : 2 < exp 1) by (pose proof (exp_ineq1 1); lra).
  assert (Hpow : 2 ^ 13 <= exp 1 ^ 13) by (apply pow_incr; lra).
  rewrite exp_times_pow in Hpow.
  assert (Hle : exp (INR 13 * 1) <= exp y).
  { destruct (Req_dec (INR 13 * 1) y) as [-> | Hne]; [lra |].
    left. apply exp_increasing. simpl INR in *. lra. }
  assert (Ha : 8192 <= exp y) by (simpl pow in Hpow; lra).
  assert (Hb : exp (- y) * exp y = 1) by (rewrite <- exp_plus, Rplus_opp_l; apply exp_0).
  pose proof (exp_pos (- y)) as Hbpos.
  set (a := exp y) in *. set (b := exp (- y)) in *.
  apply Rmult_lt_reg_r with (a + b); [lra |].
  replace ((a - b) / (a + b) * (a + b)) with (a - b) by (field; lra).
  simpl pow. nra.
Qed.

(** C1 (as amended).  A block writes [numSamples] frames.  Frame [k] is one
    value copied to every output channel: the sum of the samples of the
    active voices (after the events of the block and [k] calls of
    [advancePhase]), times the scaling factor smoothed [k + 1] times towards
    the target of the block, times the master amplitude, passed through the
    clipper.  The clipper is the identity on [[-0.7, 0.7]] and
    [+-(0.7 + 0.3 * tanh ((|x| - 0.7) / 0.3))] outside.  No sample written
    exceeds 1 in magnitude. *)
Theorem processBlock_samples_within_unit (inp : BlockInput) (p : Processor) :
  let vs := voicesAfterEvents inp (voices p) in
  let target := targetScaling (getActiveVoiceCount vs) (blockOvertones inp) in
  let factor (k : nat) :=
    Nat.iter (S k) (smoothStep (voiceScalingSmoothingCoeff p) target)
             (currentVoiceScalingFactor p) in
  let preClip (k : nat) :=
    activeSampleSum (map (Nat.iter k advancePhase) vs)
    * factor k * amplitudeParam inp in
  let frames := snd (processBlock inp p) in
  length frames = numSamples inp
  /\ (forall k : nat, (k < numSamples inp)%nat ->
        nth k frames []
        = repeat (softClip (preClip k)) (totalNumOutputChannels inp))
  /\ (forall x,
        (-0.7 <= x <= 0.7 -> softClip x = x)
        /\ (0.7 < x -> softClip x = 0.7 + 0.3 * tanh ((Rabs x - 0.7) / 0.3))
        /\ (x < -0.7 -> softClip x = - (0.7 + 0.3 * tanh ((Rabs x - 0.7) / 0.3))))
  /\ (forall frame s, In frame frames -> In s frame -> -1 <= s <= 1).
Proof.
  intros vs target factor preClip frames.
  unfold frames, processBlock. fold vs. fold target.
  match goal with
  | |- context [renderLoop ?n ?c ?m ?q] =>
      destruct (renderLoop_frames n c m q) as [Hlen Hall];
      pose proof (renderLoop_frame_at c m n) as Hat;
      set (q0 := q) in *
  end.
  split; [exact Hlen |]. split; [| split; [apply softClip_curve |]].
  - intros k Hk. rewrite (Hat k q0 Hk). unfold q0.
    cbn [voices voiceScalingSmoothingCoeff targetVoiceScalingFactor
         currentVoiceScalingFactor].
    rewrite sumVoices_activeSampleSum. reflexivity.
  - intros frame s Hf Hs. destruct (Hall frame Hf) as [x ->].
    apply repeat_spec in Hs. subst s. apply softClip_within_unit.
Qed.

(** Sixteen voices at the crest, a smoothing coefficient of 0.1, factor 1,
    one harmonic, master amplitude 1: the target is [1/sqrt 16], the factor
    of frame 0 is 0.925, the value before the clipper is
    [16 * 0.72 * 0.925 = 10.656], and the sample written to both channels is
    [0.7 + 0.3 * tanh ((10.656 - 0.7) / 0.3)]. *)
Lemma processBlock_samples_within_unit_witness :
  let inp := mkBlockInput 1 1 0.5 [] 1 2 in
  let p := mkProcessor (repeat crestVoice 16) 44100 1 1 0.1 in
  let frames := snd (processBlock inp p) in
  let s := nth 0 (nth 0 frames []) 0 in
  (0 < numSamples inp)%nat
  /\ nth 0 frames [] = repeat (0.7 + 0.3 * tanh ((10.656 - 0.7) / 0.3)) 2
  /\ In (nth 0 frames []) frames /\ In s (nth 0 frames [])
  /\ -1 <= s <= 1.
Proof.
  intros inp p frames s.
  destruct (processBlock_samples_within_unit inp p)
    as (Hlen & Hat & Hcurve & Hbound).
  fold frames in Hlen, Hat, Hbound.
  assert (Hk : (0 < numSamples inp)%nat) by (simpl; lia).
  specialize (Hat 0%nat Hk).
  assert (Hh : blockOvertones inp = 1%Z).
  { unfold blockOvertones. simpl overtonesParam.
    rewrite (truncToInt_nonneg 1 1) by lra. reflexivity. }
  assert (Hvs : voicesAfterEvents inp (voices p)
                = repeat (pushParameters 1 0.5 float_0_002 crestVoice) 16).
  { unfold voicesAfterEvents. rewrite Hh. reflexivity. }
  assert (Hsample : getSample (pushParameters 1 0.5 float_0_002 crestVoice)
                    = 0.9 * 0.8).
  { apply (getSample_crest (pushParameters 1 0.5 float_0_002 crestVoice));
      reflexivity. }
  assert (Hpre : activeSampleSum
                   (map (Nat.iter 0 advancePhase) (voicesAfterEvents inp (voices p)))
                 * Nat.iter 1
                     (smoothStep (voiceScalingSmoothingCoeff p)
                        (targetScaling
                           (getActiveVoiceCount (voicesAfterEvents inp (voices p)))
                           (blockOvertones inp)))
                     (currentVoiceScalingFactor p)
                 * amplitudeParam inp
                 = 10.656).
  { rewrite Hvs, Hh.
    replace (getActiveVoiceCount
               (repeat (pushParameters 1 0.5 float_0_002 crestVoice) 16))
      with 16%Z by reflexivity.
    change (Nat.iter 0 advancePhase) with (fun v : Voice => v).
    rewrite map_id, activeSampleSum_repeat by reflexivity. rewrite Hsample.
    unfold targetScaling, smoothStep.
    change (0 <? 16)%Z with true. change (1 <? 1)%Z with false. cbv iota.
    replace (IZR 16) with (4 * 4) by lra.
    rewrite sqrt_square by lra.
    replace (INR 16) with 16 by (simpl; lra).
    simpl. lra. }
  rewrite Hpre in Hat.
  rewrite (proj1 (proj2 (Hcurve 10.656))) in Hat by lra.
  rewrite Rabs_pos_eq in Hat by lra.
  assert (Hf : In (nth 0 frames []) frames) by (apply nth_In; rewrite Hlen; exact Hk).
  assert (Hs : In s (nth 0 frames [])) by (unfold s; rewrite Hat; left; reflexivity).
  split; [exact Hk |]. split; [exact Hat |]. split; [exact Hf |].
  split; [exact Hs |]. exact (Hbound _ s Hf Hs).
Defined.

(** C1 (as stated) fails on its last clause: in the binary32 arithmetic of
    the program a sample does reach 1.0.  Take the value before the clipper
    of the block above, 10.656 (its nearest binary32 number).  The argument
    of [std::tanh] is above 33 and its hyperbolic tangent lies within half
    a unit in the last place below 1, so a correctly rounded [std::tanh]
    returns [1.0f]; and whenever [std::tanh] returns [1.0f] or one of the
    two numbers just below, on any sample above [0.7f], the clipper writes
    exactly [1.0f]. *)
Lemma softClip_binary32_reaches_one :
  let x := S754_finite false 11173626 (-20) in
  let y := Binary32.tanhArgument x in
  let below (f : spec_float) := SFpred Binary32.prec Binary32.emax f in
  Rabs (Binary32.toR x - 10.656) < / 2 ^ 20
  /\ SFltb Binary32.f0_7 x = true
  /\ 33 < Binary32.toR y
  /\ Binary32.toR Binary32.f1_0 = 1
  /\ Binary32.toR (below Binary32.f1_0) = 1 - / 2 ^ 24
  /\ 1 - / 2 ^ 25 < tanh (Binary32.toR y) < 1
  /\ Binary32.softClip (fun _ => Binary32.f1_0) x = Binary32.f1_0
  /\ (forall (tanhf : spec_float -> spec_float) (sampleValue : spec_float),
        SFltb Binary32.f0_7 sampleValue = true ->
        In (tanhf (Binary32.tanhArgument sampleValue))
           [Binary32.f1_0; below Binary32.f1_0; below (below Binary32.f1_0)] ->
        Binary32.softClip tanhf sampleValue = Binary32.f1_0).
Proof.
  intros x y below.
  assert (Hy : y = S754_finite false 8699685 (-18)) by (vm_compute; reflexivity).
  assert (Hlarge : 33 < Binary32.toR y).
  { rewrite Hy. unfold Binary32.toR. simpl. lra. }
  split; [| split; [| split; [| split; [| split; [| split; [| split]]]]]].
  - unfold x, Binary32.toR. simpl.
    apply Rabs_def1; lra.
  - vm_compute. reflexivity.
  - exact Hlarge.
  - unfold Binary32.toR, Binary32.f1_0. simpl. lra.
  - replace (below Binary32.f1_0) with (S754_finite false 16777215 (-24))
      by (vm_compute; reflexivity).
    unfold Binary32.toR. simpl. lra.
  - apply tanh_saturates. lra.
  - vm_compute. reflexivity.
  - intros tanhf sampleValue Hhigh Hin.
    unfold Binary32.softClip. rewrite Hhigh.
    unfold Binary32.tanhArgument in Hin.
    destruct Hin as [<- | [<- | [<- | []]]]; vm_compute; reflexivity.
Qed.

(** ** C9: the compressor target of a block *)

Lemma getActiveVoiceCount_from (vs : list Voice) (count : Z) :
  fold_left (fun c v => if isNoteActive v then (c + 1)%Z else c) vs count
  = (count + Z.of_nat (activeVoices vs))%Z.
Proof.
  revert count. unfold activeVoices, isNoteActive.
  induction vs as [| v rest IH]; intros count; simpl; [lia |].
  rewrite IH. destruct (isActive v); simpl; lia.
Qed.

Lemma getActiveVoiceCount_activeVoices (vs : list Voice) :
  getActiveVoiceCount vs = Z.of_nat (activeVoices vs).
Proof. unfold getActiveVoiceCount. rewrite getActiveVoiceCount_from. lia. Qed.

(** The sample loop smooths the current factor and leaves the target alone. *)
Lemma renderLoop_target (n channels : nat) (masterAmplitude : R) :
  forall p : Processor,
    targetVoiceScalingFactor (fst (renderLoop n channels masterAmplitude p))
    = targetVoiceScalingFactor p.
Proof.
  induction n as [| n IH]; intros p; simpl; [reflexivity |].
  set (p' := mkProcessor _ _ _ _ _). specialize (IH p').
  destruct (renderLoop n channels masterAmplitude p'). simpl in *. exact IH.
Qed.

Lemma blockOvertones_range (inp : BlockInput) :
  (1 <= blockOvertones inp <= 32)%Z.
Proof. unfold blockOvertones, MAX_OVERTONES. lia. Qed.

(** C9.  The target factor a block leaves in the processor is the one of the
    specification, computed from the number of voices that are active after
    the events of the block and from the clamped harmonic count (which is
    1 exactly when it is not above 1). *)
Theorem processBlock_target_factor (inp : BlockInput) (p : Processor) :
  let h := blockOvertones inp in
  let count := activeVoices (voicesAfterEvents inp (voices p)) in
  targetVoiceScalingFactor (fst (processBlock inp p)) = specTargetFactor count h
  /\ (1 <= h <= 32)%Z
  /\ (h = 1%Z \/ (1 <? h)%Z = true).
Proof.
  intros h count. pose proof (blockOvertones_range inp) as Hh. fold h in Hh.
  split; [| split; [exact Hh |]].
  - unfold processBlock. rewrite renderLoop_target. cbn [targetVoiceScalingFactor].
    rewrite getActiveVoiceCount_activeVoices. fold count h.
    unfold targetScaling, specTargetFactor, log10.
    destruct count as [| n].
    + reflexivity.
    + replace (0 <? Z.of_nat (S n))%Z with true by (symmetry; apply Z.ltb_lt; lia).
      rewrite <- INR_IZR_INZ. reflexivity.
  - rewrite Z.ltb_lt. lia.
Qed.

Lemma processBlock_target_factor_witness :
  let inp := mkBlockInput 1 8 0.02 [NoteOn 69 1] 64 2 in
  targetVoiceScalingFactor (fst (processBlock inp newProcessor))
  = specTargetFactor (activeVoices (voicesAfterEvents inp (voices newProcessor)))
                     (blockOvertones inp).
Proof.
  intros inp. exact (proj1 (processBlock_target_factor inp newProcessor)).
Defined.

(** ** The invariant of the voice pool *)

Section VoiceInvariant.

Variable v : Voice.
Hypothesis Hinv : voiceInv v.

Lemma voiceInv_attackSamples_pos : (1 <= attackSamples v)%Z.
Proof. destruct Hinv as [Htot _]. rewrite Htot. lia. Qed.

Lemma voiceInv_startNote (note : Z) (vel : R) :
  0 <= vel <= 0.8 -> voiceInv (startNote note vel v).
Proof.
  intros Hvel. pose proof voiceInv_attackSamples_pos as Hpos.
  destruct Hinv as [Htot _]. split.
  - exact Htot.
  - intros _. cbn [velocity attackLevel attackStage attackSamplesRemaining
                   attackSamples startNote].
    repeat split; try lra; lia.
Qed.

Lemma voiceInv_stopNote : voiceInv (stopNote v).
Proof.
  unfold stopNote. destruct (isActive v && negb (releaseStage v)) eqn:E; [| exact Hinv].
  destruct Hinv as [Htot Hact]. apply andb_prop in E. destruct E as [Ea _].
  split; [exact Htot |]. intros _. simpl.
  destruct (Hact Ea) as (Hv & Hl & _). repeat split; try lra; discriminate.
Qed.

Lemma voiceInv_setAttackTime : voiceInv (setAttackTime float_0_002 v).
Proof.
  destruct Hinv as [Htot Hact]. split; [reflexivity |].
  cbn [setAttackTime isActive velocity attackLevel attackStage
       attackSamplesRemaining attackSamples sampleRate].
  rewrite <- Htot. exact Hact.
Qed.

Lemma voiceInv_setReleaseTime (seconds : R) : voiceInv (setReleaseTime seconds v).
Proof. exact Hinv. Qed.

Lemma voiceInv_advancePhase : voiceInv (advancePhase v).
Proof.
  pose proof voiceInv_attackSamples_pos as Hpos.
  destruct Hinv as [Htot Hact]. split.
  - rewrite advancePhase_attackSamples, advancePhase_sampleRate. exact Htot.
  - rewrite advancePhase_isActive, advancePhase_velocity, advancePhase_attackLevel,
      advancePhase_attackStage, advancePhase_attackSamplesRemaining,
      advancePhase_attackSamples.
    intros Ha. apply andb_prop in Ha. destruct Ha as [Ha _].
    destruct (Hact Ha) as (Hv & Hl & Hrem). rewrite Ha. simpl.
    split; [exact Hv |].
    destruct (attackStage v) eqn:Es; simpl.
    + specialize (Hrem eq_refl).
      destruct (0 <? attackSamplesRemaining v)%Z eqn:Ep.
      * apply Z.ltb_lt in Ep. split; [| intros _; lia].
        assert (Hn : 0 < IZR (attackSamples v)) by (apply IZR_lt; lia).
        assert (Hr0 : 0 < IZR (attackSamplesRemaining v)) by (apply IZR_lt; lia).
        assert (Hr1 : IZR (attackSamplesRemaining v) <= IZR (attackSamples v))
          by (apply IZR_le; lia).
        assert (Hq : 0 <= IZR (attackSamplesRemaining v) / IZR (attackSamples v) <= 1).
        { split.
          - apply Rmult_le_reg_r with (IZR (attackSamples v)); [lra |].
            unfold Rdiv. rewrite Rmult_assoc, Rinv_l by lra. lra.
          - apply Rmult_le_reg_r with (IZR (attackSamples v)); [lra |].
            unfold Rdiv. rewrite Rmult_assoc, Rinv_l by lra. lra. }
        lra.
      * split; [lra | discriminate].
    + split; [exact Hl | discriminate].
Qed.

End VoiceInvariant.

Lemma voiceInv_newVoice (rate : R) : voiceInv (newVoice rate).
Proof. split; [reflexivity | discriminate]. Qed.

Lemma voiceInv_setNumOvertones (num maxOvertones : Z) (v : Voice) :
  voiceInv v -> voiceInv (setNumOvertones num maxOvertones v).
Proof.
  intros Hinv. unfold setNumOvertones.
  destruct (numOvertones v =? Z.max 1 (Z.min maxOvertones num))%Z; [exact Hinv |].
  set (v1 := mkVoice _ _ _ _ _ _ _ _ _ _ _ _ _ _ _ _).
  assert (H1 : voiceInv v1) by exact Hinv.
  destruct (isActive v1 && negb (releaseStage v1)) eqn:E; [| exact H1].
  apply andb_prop in E. destruct E as [Ea _].
  apply voiceInv_startNote; [exact H1 |].
  destruct H1 as [_ Hact]. apply (Hact Ea).
Qed.

Lemma voiceInv_setSampleRate (rate : R) (v : Voice) :
  voiceInv v -> voiceInv (setSampleRate rate v).
Proof.
  intros [_ Hact]. unfold setSampleRate.
  set (v2 := setReleaseTime float_0_02 (setAttackTime float_0_002 _)).
  assert (H2 : attackSamples v2 = Z.max 1 (truncToInt (float_0_002 * sampleRate v2)))
    by reflexivity.
  destruct (isActive v2) eqn:Ea.
  - assert (Hvel : 0 <= velocity v2 <= 0.8) by apply (Hact Ea).
    split; [exact H2 |]. intros _.
    cbn [velocity attackLevel attackStage attackSamplesRemaining attackSamples
         startNote].
    repeat split; try lra; try apply Hvel; rewrite H2; lia.
  - split; [exact H2 |]. intros Ha. change (isActive v2) with (isActive v) in Ea.
    change (isActive v = true) in Ha. congruence.
Qed.

Lemma voiceInv_pushParameters (num : Z) (releaseTime : R) (v : Voice) :
  voiceInv v -> voiceInv (pushParameters num releaseTime float_0_002 v).
Proof.
  intros Hinv. unfold pushParameters.
  apply voiceInv_setAttackTime, voiceInv_setReleaseTime, voiceInv_setNumOvertones.
  exact Hinv.
Qed.

Lemma Forall_store {A : Type} (P : A -> Prop) (l : list A) (i : nat) (x : A) :
  Forall P l -> P x -> Forall P (store l i x).
Proof.
  intros Hl Hx. revert i.
  induction Hl as [| h t Hh Ht IH]; intros [| j]; simpl; constructor; auto.
Qed.

Lemma poolInv_map (f : Voice -> Voice) (vs : list Voice) :
  (forall v, voiceInv v -> voiceInv (f v)) -> poolInv vs -> poolInv (map f vs).
Proof.
  intros Hf [Hlen Hall]. split.
  - rewrite length_map. exact Hlen.
  - apply Forall_map. eapply Forall_impl; [| exact Hall]. exact Hf.
Qed.

Lemma poolInv_onVoice (vs : list Voice) (ptr : option nat) (f : Voice -> Voice) :
  (forall v, voiceInv v -> voiceInv (f v)) -> poolInv vs -> poolInv (onVoice vs ptr f).
Proof.
  intros Hf [Hlen Hall]. unfold onVoice.
  destruct ptr as [i |]; [| split; assumption].
  destruct (nth_error vs i) as [v |] eqn:Ev; [| split; assumption].
  split.
  - rewrite store_length. exact Hlen.
  - apply Forall_store; [exact Hall |]. apply Hf.
    rewrite Forall_forall in Hall. apply Hall. eapply nth_error_In. exact Ev.
Qed.

Lemma poolInv_handleMidi (vs : list Voice) (m : MidiMessage) :
  validMessage m -> poolInv vs -> poolInv (handleMidi vs m).
Proof.
  intros Hm Hp. destruct m as [note vel | note | |]; simpl in *.
  - apply poolInv_onVoice; [| exact Hp].
    intros v Hv. apply voiceInv_startNote; [exact Hv | lra].
  - apply poolInv_onVoice; [| exact Hp]. exact voiceInv_stopNote.
  - apply poolInv_map; [| exact Hp]. exact voiceInv_stopNote.
  - exact Hp.
Qed.

Lemma poolInv_events (ms : list MidiMessage) :
  forall vs, Forall validMessage ms -> poolInv vs -> poolInv (fold_left handleMidi ms vs).
Proof.
  induction ms as [| m rest IH]; intros vs Hms Hp; simpl; [exact Hp |].
  inversion Hms as [| ? ? Hm Hrest]; subst.
  apply IH; [exact Hrest |]. apply poolInv_handleMidi; assumption.
Qed.

Lemma renderLoop_voices (n channels : nat) (masterAmplitude : R) :
  forall p : Processor,
    poolInv (voices p) ->
    poolInv (voices (fst (renderLoop n channels masterAmplitude p))).
Proof.
  induction n as [| n IH]; intros p Hp; simpl; [exact Hp |].
  set (p' := mkProcessor _ _ _ _ _).
  assert (Hp' : poolInv (voices p'))
    by (apply poolInv_map; [exact voiceInv_advancePhase | exact Hp]).
  specialize (IH p' Hp').
  destruct (renderLoop n channels masterAmplitude p'). exact IH.
Qed.

Lemma poolInv_newProcessor : poolInv (voices newProcessor).
Proof.
  split; [reflexivity |].
  apply Forall_forall. intros v Hv. apply repeat_spec in Hv. subst v.
  apply voiceInv_newVoice.
Qed.

Lemma poolInv_prepareToPlay (rate : R) (p : Processor) :
  poolInv (voices p) -> poolInv (voices (prepareToPlay rate p)).
Proof. apply poolInv_map. intros v. apply voiceInv_setSampleRate. Qed.

(** The invariant holds at every point of the MIDI loop and at the end of
    the block. *)
Lemma poolInv_processBlock (inp : BlockInput) (p : Processor) :
  Forall validMessage (midiMessages inp) ->
  poolInv (voices p) ->
  poolInv (voicesAfterEvents inp (voices p))
  /\ poolInv (voices (fst (processBlock inp p))).
Proof.
  intros Hms Hp.
  assert (Hafter : poolInv (voicesAfterEvents inp (voices p))).
  { unfold voicesAfterEvents. apply poolInv_events; [exact Hms |].
    apply poolInv_map; [| exact Hp]. intros v. apply voiceInv_pushParameters. }
  split; [exact Hafter |].
  unfold processBlock. apply renderLoop_voices. exact Hafter.
Qed.

(** ** The three tiers of [findFreeVoice] *)

Lemma firstInactive_spec (vs : list Voice) :
  forall i0 : nat,
    match firstInactive vs i0 with
    | Some i =>
        exists v, (i0 <= i)%nat /\ nth_error vs (i - i0) = Some v
                  /\ isActive v = false
    | None => Forall (fun u => isActive u = true) vs
    end.
Proof.
  induction vs as [| v rest IH]; intros i0; simpl; [constructor |].
  unfold isNoteActive. destruct (isActive v) eqn:Ea; simpl.
  - specialize (IH (S i0)). destruct (firstInactive rest (S i0)) as [i |].
    + destruct IH as (w & Hi & Hnth & Hw). exists w. split; [lia |]. split; [| exact Hw].
      replace (i - i0)%nat with (S (i - S i0)) by lia. exact Hnth.
    + constructor; assumption.
  - exists v. rewrite Nat.sub_diag. repeat split; auto.
Qed.

Lemma seen_next {A : Type} (seen rest : list A) (v : A) :
  seen ++ v :: rest = (seen ++ [v]) ++ rest
  /\ length (seen ++ [v]) = S (length seen)
  /\ nth_error (seen ++ v :: rest) (length seen) = Some v.
Proof.
  split; [rewrite <- app_assoc; reflexivity |]. split.
  - rewrite length_app. simpl. lia.
  - rewrite nth_error_app2 by lia. rewrite Nat.sub_diag. reflexivity.
Qed.

Lemma oldestReleasing_spec (rest : list Voice) :
  forall (seen : list Voice) (best : option nat) (t : Z),
    oldestSoFar seen (seen ++ rest) best t ->
    exists t', oldestSoFar (seen ++ rest) (seen ++ rest)
                           (oldestReleasing rest (length seen) best t) t'.
Proof.
  induction rest as [| v rest IH]; intros seen best t Hinv.
  - simpl. rewrite app_nil_r in *. exists t. exact Hinv.
  - destruct (seen_next seen rest v) as (Happ & Hlen & Hnth).
    simpl. rewrite Happ in *.
    assert (Hnext : forall best' t',
               oldestSoFar (seen ++ [v]) ((seen ++ [v]) ++ rest) best' t' ->
               exists t'', oldestSoFar ((seen ++ [v]) ++ rest) ((seen ++ [v]) ++ rest)
                             (oldestReleasing rest (S (length seen)) best' t') t'').
    { intros best' t' H. destruct (IH _ _ _ H) as [t'' Ht''].
      rewrite Hlen in Ht''. exists t''. exact Ht''. }
    destruct (isReleasing v) eqn:Er.
    + destruct best as [j |].
      * destruct Hinv as (w & Hw & Hwr & Hwt & Hall).
        destruct (getReleaseSamplesRemaining v <? t)%Z eqn:Elt.
        -- apply Z.ltb_lt in Elt. apply Hnext.
           exists v. repeat split; auto.
           apply Forall_app. split.
           ++ eapply Forall_impl; [| exact Hall]. intros u Hu Hur.
              specialize (Hu Hur). lia.
           ++ constructor; [intros _; lia | constructor].
        -- apply Z.ltb_ge in Elt. apply Hnext.
           exists w. repeat split; auto.
           apply Forall_app. split; [exact Hall |].
           constructor; [intros _; lia | constructor].
      * apply Hnext. exists v. repeat split; auto.
        apply Forall_app. split.
        -- eapply Forall_impl; [| exact Hinv]. intros u Hu Hur. congruence.
        -- constructor; [intros _; lia | constructor].
    + apply Hnext. destruct best as [j |].
      * destruct Hinv as (w & Hw & Hwr & Hwt & Hall).
        exists w. repeat split; auto.
        apply Forall_app. split; [exact Hall |].
        constructor; [intros Hr; congruence | constructor].
      * apply Forall_app. split; [exact Hinv |].
        constructor; [exact Er | constructor].
Qed.

Lemma quietest_spec (rest : list Voice) :
  forall (seen : list Voice) (best : nat) (m : R),
    quietestSoFar seen (seen ++ rest) best m ->
    exists m', quietestSoFar (seen ++ rest) (seen ++ rest)
                             (quietest rest (length seen) best m) m'.
Proof.
  induction rest as [| v rest IH]; intros seen best m Hinv.
  - simpl. rewrite app_nil_r in *. exists m. exact Hinv.
  - destruct (seen_next seen rest v) as (Happ & Hlen & Hnth).
    simpl. rewrite Happ in *.
    assert (Hnext : forall best' m',
               quietestSoFar (seen ++ [v]) ((seen ++ [v]) ++ rest) best' m' ->
               exists m'', quietestSoFar ((seen ++ [v]) ++ rest) ((seen ++ [v]) ++ rest)
                             (quietest rest (S (length seen)) best' m') m'').
    { intros best' m' H. destruct (IH _ _ _ H) as [m'' Hm''].
      rewrite Hlen in Hm''. exists m''. exact Hm''. }
    destruct Hinv as (Hm & Hall & Hbest & Hinit).
    destruct (Rlt_dec (getCurrentAmplitude v) m) as [Hlt | Hge].
    + apply Hnext. split; [lra |]. split; [| split].
      * apply Forall_app. split.
        -- eapply Forall_impl; [| exact Hall]. intros u Hu. simpl in Hu. lra.
        -- constructor; [lra | constructor].
      * intros _. exists v. split; [exact Hnth | reflexivity].
      * intros Heq. lra.
    + apply Hnext. split; [exact Hm |]. split; [| split; assumption].
      apply Forall_app. split; [exact Hall |].
      constructor; [lra | constructor].
Qed.

(** [findFreeVoice] on a pool that is not empty: it never returns null, the
    pointer is into the pool, and the voice follows the three tiers.  The
    last tier finds the least amplitude as soon as one amplitude is below
    the initial [minAmplitude = 1.0f]. *)
Lemma findFreeVoice_tiers (vs : list Voice) :
  vs <> [] ->
  exists i v,
    findFreeVoice vs = Some i /\ nth_error vs i = Some v
    /\ ((exists u, In u vs /\ isActive u = false) -> isActive v = false)
    /\ ((forall u, In u vs -> isActive u = true) ->
        (exists u, In u vs /\ isReleasing u = true) ->
        isReleasing v = true
        /\ forall u, In u vs -> isReleasing u = true ->
             (getReleaseSamplesRemaining v <= getReleaseSamplesRemaining u)%Z)
    /\ ((forall u, In u vs -> isActive u = true) ->
        (forall u, In u vs -> isReleasing u = false) ->
        (exists u, In u vs /\ getCurrentAmplitude u < 1) ->
        forall u, In u vs -> getCurrentAmplitude v <= getCurrentAmplitude u).
Proof.
  intros Hne. unfold findFreeVoice.
  pose proof (firstInactive_spec vs 0) as H1.
  destruct (firstInactive vs 0) as [i |].
  - destruct H1 as (v & _ & Hnth & Hv). rewrite Nat.sub_0_r in Hnth.
    assert (Hin : In v vs) by (eapply nth_error_In; exact Hnth).
    exists i, v. split; [reflexivity |]. split; [exact Hnth |].
    split; [| split].
    + intros _. exact Hv.
    + intros Hall. specialize (Hall v Hin). congruence.
    + intros Hall. specialize (Hall v Hin). congruence.
  - rewrite Forall_forall in H1.
    destruct (oldestReleasing_spec vs [] None 0) as [t H2]; [constructor |].
    simpl in H2. destruct (oldestReleasing vs 0 None 0) as [j |].
    + destruct H2 as (w & Hnth & Hwr & Hwt & Hall). rewrite Forall_forall in Hall.
      assert (Hin : In w vs) by (eapply nth_error_In; exact Hnth).
      exists j, w. split; [reflexivity |]. split; [exact Hnth |].
      split; [| split].
      * intros (u & Hu & Hua). specialize (H1 u Hu). congruence.
      * intros _ _. split; [exact Hwr |]. intros u Hu Hur.
        specialize (Hall u Hu Hur). lia.
      * intros _ Hnone. specialize (Hnone w Hin). congruence.
    + unfold oldestSoFar in H2. rewrite Forall_forall in H2.
      destruct (quietest_spec vs [] 0%nat 1) as [m H3].
      { split; [lra |]. split; [constructor |]. split; [intros; lra | reflexivity]. }
      simpl in H3. destruct H3 as (Hm & Hall & Hbest & Hinit).
      rewrite Forall_forall in Hall.
      destruct (Rlt_dec m 1) as [Hlt | Hge].
      * destruct (Hbest Hlt) as (w & Hnth & Hw).
        exists (quietest vs 0 0%nat 1), w. split; [reflexivity |].
        split; [exact Hnth |]. split; [| split].
        -- intros (u & Hu & Hua). specialize (H1 u Hu). congruence.
        -- intros _ (u & Hu & Hur). specialize (H2 u Hu). congruence.
        -- intros _ _ _ u Hu. specialize (Hall u Hu). lra.
      * assert (Hm1 : m = 1) by lra. rewrite (Hinit Hm1).
        destruct vs as [| v0 rest]; [contradiction |].
        exists 0%nat, v0. split; [reflexivity |]. split; [reflexivity |].
        split; [| split].
        -- intros (u & Hu & Hua). specialize (H1 u Hu). congruence.
        -- intros _ (u & Hu & Hur). specialize (H2 u Hu). congruence.
        -- intros _ _ (u & Hu & Hamp). specialize (Hall u Hu). lra.
Qed.

(** Under [voiceInv] a sounding voice that is not releasing has an amplitude
    of at most 0.8, below the initial [minAmplitude]. *)
Lemma voiceInv_amplitude (v : Voice) :
  voiceInv v -> isActive v = true -> releaseStage v = false ->
  getCurrentAmplitude v <= 0.8.
Proof.
  intros [_ Hact] Ha Hr. destruct (Hact Ha) as (Hv & Hl & _).
  unfold getCurrentAmplitude. rewrite Hr.
  destruct (attackStage v); [nra | lra].
Qed.

Lemma poolInv_nonempty (vs : list Voice) : poolInv vs -> vs <> [].
Proof. intros [Hlen _] ->. discriminate Hlen. Qed.

(** The note-on branch of the MIDI loop, once [findFreeVoice] has answered. *)
Lemma handleMidi_noteOn (vs : list Voice) (note : Z) (vel : R) (i : nat) (v : Voice) :
  findFreeVoice vs = Some i -> nth_error vs i = Some v ->
  handleMidi vs (NoteOn note vel) = store vs i (startNote note (vel * 0.8) v)
  /\ nth_error (handleMidi vs (NoteOn note vel)) i
     = Some (startNote note (vel * 0.8) v).
Proof.
  intros Hfind Hnth.
  assert (Heq : handleMidi vs (NoteOn note vel)
                = store vs i (startNote note (vel * 0.8) v)).
  { simpl. rewrite Hfind. unfold onVoice. rewrite Hnth. reflexivity. }
  split; [exact Heq |]. rewrite Heq. apply nth_error_store_same.
  apply nth_error_Some. congruence.
Qed.

(** ** C5: a note-on always gets a voice *)

(** C5.  In a pool within its invariant (16 voices, as built by the
    constructor and kept by every block), a note-on with a velocity in
    [[0, 1]] is never dropped: [findFreeVoice] returns a pointer into the
    pool, the voice there is restarted on the new note and is active, the
    pool keeps its size (a full pool reuses one of its voices), and the
    voice chosen is (1) an inactive one if there is one, else (2) a
    releasing one with the fewest release samples remaining, else (3) one
    with the lowest current amplitude.  The pool is again within its
    invariant, so the same holds for the next note-on. *)
Theorem noteOn_always_starts_a_voice (vs : list Voice) (note : Z) (vel : R) :
  poolInv vs -> 0 <= vel <= 1 ->
  exists i v,
    findFreeVoice vs = Some i /\ nth_error vs i = Some v
    /\ nth_error (handleMidi vs (NoteOn note vel)) i
       = Some (startNote note (vel * 0.8) v)
    /\ isNoteActive (startNote note (vel * 0.8) v) = true
    /\ getMidiNote (startNote note (vel * 0.8) v) = note
    /\ length (handleMidi vs (NoteOn note vel)) = MAX_VOICES
    /\ ((exists u, In u vs /\ isNoteActive u = false) -> isNoteActive v = false)
    /\ ((forall u, In u vs -> isNoteActive u = true) ->
        (exists u, In u vs /\ isReleasing u = true) ->
        isReleasing v = true
        /\ forall u, In u vs -> isReleasing u = true ->
             (getReleaseSamplesRemaining v <= getReleaseSamplesRemaining u)%Z)
    /\ ((forall u, In u vs -> isNoteActive u = true) ->
        (forall u, In u vs -> isReleasing u = false) ->
        forall u, In u vs -> getCurrentAmplitude v <= getCurrentAmplitude u)
    /\ poolInv (handleMidi vs (NoteOn note vel)).
Proof.
  intros Hp Hvel.
  destruct (findFreeVoice_tiers vs (poolInv_nonempty vs Hp))
    as (i & v & Hfind & Hnth & T1 & T2 & T3).
  destruct (handleMidi_noteOn vs note vel i v Hfind Hnth) as [Heq Hnew].
  assert (Hp' : poolInv (handleMidi vs (NoteOn note vel)))
    by (apply poolInv_handleMidi; [exact Hvel | exact Hp]).
  exists i, v. unfold isNoteActive in *.
  split; [exact Hfind |]. split; [exact Hnth |]. split; [exact Hnew |].
  split; [reflexivity |]. split; [reflexivity |]. split; [apply Hp' |].
  split; [exact T1 |]. split; [exact T2 |]. split; [| exact Hp'].
  intros Hactive Hnone. apply T3; auto.
  assert (Hin : In v vs) by (eapply nth_error_In; exact Hnth).
  exists v. split; [exact Hin |].
  destruct Hp as [_ Hall]. rewrite Forall_forall in Hall.
  assert (Hr : releaseStage v = false).
  { specialize (Hnone v Hin). unfold isReleasing in Hnone.
    rewrite (Hactive v Hin) in Hnone. exact Hnone. }
  pose proof (voiceInv_amplitude v (Hall v Hin) (Hactive v Hin) Hr). lra.
Qed.

Lemma noteOn_always_starts_a_voice_witness :
  poolInv (voices newProcessor) /\ 0 <= 1 <= 1
  /\ poolInv (handleMidi (voices newProcessor) (NoteOn 69 1)).
Proof.
  assert (Hvel : 0 <= 1 <= 1) by lra.
  split; [exact poolInv_newProcessor |]. split; [exact Hvel |].
  destruct (noteOn_always_starts_a_voice (voices newProcessor) 69 1
              poolInv_newProcessor Hvel)
    as (i & v & H). apply H.
Defined.

(** ** C10: the velocity a voice is started with *)

(** C10.  The note-on branch of the MIDI loop starts the chosen voice with
    the event velocity times 0.8; for an event velocity in [[0, 1]] that is
    at most 0.8, and after the event no active voice of the pool has a
    velocity above 0.8. *)
Theorem noteOn_velocity_scaled (vs : list Voice) (note : Z) (vel : R) :
  poolInv vs -> 0 <= vel <= 1 ->
  exists i v,
    findFreeVoice vs = Some i /\ nth_error vs i = Some v
    /\ handleMidi vs (NoteOn note vel) = store vs i (startNote note (vel * 0.8) v)
    /\ velocity (startNote note (vel * 0.8) v) = vel * 0.8
    /\ velocity (startNote note (vel * 0.8) v) <= 0.8
    /\ forall u, In u (handleMidi vs (NoteOn note vel)) ->
         isNoteActive u = true -> velocity u <= 0.8.
Proof.
  intros Hp Hvel.
  destruct (findFreeVoice_tiers vs (poolInv_nonempty vs Hp))
    as (i & v & Hfind & Hnth & _).
  destruct (handleMidi_noteOn vs note vel i v Hfind Hnth) as [Heq _].
  exists i, v. split; [exact Hfind |]. split; [exact Hnth |].
  split; [exact Heq |]. split; [reflexivity |].
  split; [cbn [velocity startNote]; lra |].
  intros u Hu Ha.
  assert (Hp' : poolInv (handleMidi vs (NoteOn note vel)))
    by (apply poolInv_handleMidi; [exact Hvel | exact Hp]).
  destruct Hp' as [_ Hall]. rewrite Forall_forall in Hall.
  destruct (Hall u Hu) as [_ Hact]. apply (Hact Ha).
Qed.

Lemma noteOn_velocity_scaled_witness :
  exists i v,
    nth_error (voices newProcessor) i = Some v
    /\ velocity (startNote 69 (1 * 0.8) v) <= 0.8.
Proof.
  assert (Hvel : 0 <= 1 <= 1) by lra.
  destruct (noteOn_velocity_scaled (voices newProcessor) 69 1
              poolInv_newProcessor Hvel)
    as (i & v & _ & Hnth & _ & _ & Hle & _).
  exists i, v. split; [exact Hnth | exact Hle].
Defined.

(** Over whole blocks: with note-on velocities in [[0, 1]], no active voice
    has a velocity above 0.8, neither during the MIDI loop nor after the
    block. *)
Lemma processBlock_velocity_bound (inp : BlockInput) (p : Processor) :
  Forall validMessage (midiMessages inp) ->
  poolInv (voices p) ->
  forall u, In u (voices (fst (processBlock inp p))) ->
    isNoteActive u = true -> velocity u <= 0.8.
Proof.
  intros Hms Hp u Hu Ha.
  destruct (poolInv_processBlock inp p Hms Hp) as [_ [_ Hall]].
  rewrite Forall_forall in Hall. destruct (Hall u Hu) as [_ Hact]. apply (Hact Ha).
Qed.

(** * Further properties of the engine *)

(** ** The per-overtone vectors are never indexed out of range *)

Lemma startNote_lengths (note : Z) (vel : R) (v : Voice) :
  arraysFit v ->
  numOvertones (startNote note vel v) = numOvertones v
  /\ length (phases (startNote note vel v)) = length (phases v)
  /\ length (phaseIncrements (startNote note vel v)) = length (phaseIncrements v)
  /\ length (gains (startNote note vel v)) = length (gains v).
Proof.
  intros (Hh & Hp & Hi & Hg).
  assert (Hpi : (Z.to_nat (numOvertones v) <= length (phaseIncrements v))%nat)
    by (rewrite Hi; exact Hp).
  assert (Hpg : (Z.to_nat (numOvertones v) <= length (gains v))%nat)
    by (rewrite Hg; exact Hp).
  destruct (startNote_loop_phases (fundamental note) (sampleRate v)
              (Z.to_nat (numOvertones v))
              (mkBank (phases v) (phaseIncrements v) (gains v) 0) Hp Hpi)
    as (Lp & Li & _).
  destruct (startNote_loop (fundamental note) (sampleRate v)
              (Z.to_nat (numOvertones v))
              (mkBank (phases v) (phaseIncrements v) (gains v) 0) Hpg)
    as (Lg & _).
  split; [reflexivity |]. split; [exact Lp |]. split; [exact Li |].
  unfold startNote. cbn [gains]. fold (fundamental note).
  set (b := fold_left _ _ (mkBank _ _ _ _)) in *.
  destruct (Rlt_dec 0.9 (bGainSum b)); [| exact Lg].
  destruct (fold_store_pointwise 0 (fun _ x => x * (0.9 / bGainSum b))
              (Z.to_nat (numOvertones v)) (bGains b)) as (Ln & _).
  { rewrite Lg. exact Hpg. }
  unfold normalizeStep. rewrite Ln. exact Lg.
Qed.

Lemma arraysFit_startNote (note : Z) (vel : R) (v : Voice) :
  arraysFit v -> arraysFit (startNote note vel v).
Proof.
  intros Hfit. destruct (startNote_lengths note vel v Hfit) as (Hn & Lp & Li & Lg).
  destruct Hfit as (Hh & Hp & Hi & Hg).
  unfold arraysFit. rewrite Hn, Lp, Li, Lg. auto.
Qed.

Lemma advancePhase_gains (v : Voice) : gains (advancePhase v) = gains v.
Proof.
  unfold advancePhase. destruct (isActive v); simpl; auto.
  destruct (attackStage v), (0 <? attackSamplesRemaining v)%Z,
    (releaseStage v), (0 <? releaseSamplesRemaining v)%Z; reflexivity.
Qed.

Lemma arraysFit_advancePhase (v : Voice) :
  arraysFit v -> arraysFit (advancePhase v).
Proof.
  intros (Hh & Hp & Hi & Hg). unfold arraysFit.
  rewrite advancePhase_numOvertones, advancePhase_phaseIncrements,
    advancePhase_gains, advancePhase_phases_length by exact Hp.
  auto.
Qed.

Lemma arraysFit_stopNote (v : Voice) : arraysFit v -> arraysFit (stopNote v).
Proof.
  intros Hfit. unfold stopNote.
  destruct (isActive v && negb (releaseStage v)); exact Hfit.
Qed.

Lemma resize_length_grow {A : Type} (l : list A) (n : nat) (fill : A) :
  (length l < n)%nat -> length (resize l n fill) = n.
Proof.
  intros Hlt. unfold resize.
  replace (length l <? n)%nat with true by (symmetry; apply Nat.ltb_lt; exact Hlt).
  rewrite length_app, repeat_length. lia.
Qed.

Lemma arraysFit_setNumOvertones (num maxOvertones : Z) (v : Voice) :
  arraysFit v -> arraysFit (setNumOvertones num maxOvertones v).
Proof.
  intros Hfit. unfold setNumOvertones.
  destruct (numOvertones v =? Z.max 1 (Z.min maxOvertones num))%Z; [exact Hfit |].
  set (n := Z.max 1 (Z.min maxOvertones num)).
  set (v1 := mkVoice _ _ _ _ _ _ _ _ _ _ _ _ _ _ _ _).
  assert (H1 : arraysFit v1).
  { destruct Hfit as (Hh & Hp & Hi & Hg). unfold arraysFit, v1. simpl.
    destruct (Z.of_nat (length (phases v)) <? n + 2)%Z eqn:Egrow.
    - apply Z.ltb_lt in Egrow.
      rewrite !resize_length_grow by lia. unfold n. lia.
    - apply Z.ltb_ge in Egrow. unfold n in *. repeat split; auto; lia. }
  destruct (isActive v1 && negb (releaseStage v1)); [| exact H1].
  apply arraysFit_startNote. exact H1.
Qed.

Lemma arraysFit_setSampleRate (rate : R) (v : Voice) :
  arraysFit v -> arraysFit (setSampleRate rate v).
Proof.
  intros Hfit. unfold setSampleRate.
  set (v2 := setReleaseTime float_0_02 (setAttackTime float_0_002 _)).
  assert (H2 : arraysFit v2) by exact Hfit.
  destruct (isActive v2); [apply arraysFit_startNote |]; exact H2.
Qed.

Lemma arraysFit_newVoice (rate : R) : arraysFit (newVoice rate).
Proof. unfold arraysFit. simpl. repeat split; lia. Qed.

Lemma Forall_onVoice (P : Voice -> Prop) (vs : list Voice) (ptr : option nat)
  (f : Voice -> Voice) :
  (forall v, P v -> P (f v)) -> Forall P vs -> Forall P (onVoice vs ptr f).
Proof.
  intros Hf Hall. unfold onVoice.
  destruct ptr as [i |]; [| exact Hall].
  destruct (nth_error vs i) as [v |] eqn:Ev; [| exact Hall].
  apply Forall_store; [exact Hall |]. apply Hf.
  rewrite Forall_forall in Hall. apply Hall. eapply nth_error_In. exact Ev.
Qed.

Lemma Forall_handleMidi (P : Voice -> Prop) (vs : list Voice) (m : MidiMessage) :
  (forall note vel v, P v -> P (startNote note vel v)) ->
  (forall v, P v -> P (stopNote v)) ->
  Forall P vs -> Forall P (handleMidi vs m).
Proof.
  intros Hstart Hstop Hall. destruct m as [note vel | note | |]; simpl.
  - apply Forall_onVoice; [apply Hstart | exact Hall].
  - apply Forall_onVoice; [exact Hstop | exact Hall].
  - apply Forall_map. eapply Forall_impl; [| exact Hall]. exact Hstop.
  - exact Hall.
Qed.

Lemma Forall_events (P : Voice -> Prop) (ms : list MidiMessage) :
  (forall note vel v, P v -> P (startNote note vel v)) ->
  (forall v, P v -> P (stopNote v)) ->
  forall vs, Forall P vs -> Forall P (fold_left handleMidi ms vs).
Proof.
  intros Hstart Hstop. induction ms as [| m rest IH]; intros vs Hall; simpl; auto.
  apply IH. apply Forall_handleMidi; assumption.
Qed.

(** The sample loop advances every voice once per frame. *)
Lemma renderLoop_advances_voices (n channels : nat) (masterAmplitude : R) :
  forall p : Processor,
    voices (fst (renderLoop n channels masterAmplitude p))
    = map (Nat.iter n advancePhase) (voices p).
Proof.
  induction n as [| n IH]; intros p.
  - simpl. rewrite map_id. reflexivity.
  - simpl. set (p' := mkProcessor _ _ _ _ _). specialize (IH p').
    destruct (renderLoop n channels masterAmplitude p'). simpl in *.
    rewrite IH. unfold p'. simpl. rewrite map_map.
    apply map_ext. intros v. rewrite <- Nat.iter_succ_r. reflexivity.
Qed.

Lemma arraysFit_iter (n : nat) (v : Voice) :
  arraysFit v -> arraysFit (Nat.iter n advancePhase v).
Proof.
  intros Hfit. induction n as [| n IH]; simpl; auto using arraysFit_advancePhase.
Qed.

(** X1.  The vectors of every voice hold at least [numOvertones] cells, and
    that is kept by the constructor, by [prepareToPlay] and by every block,
    whatever the parameters and events: the loops over
    [0 .. numOvertones - 1] never index past the end. *)
Theorem pool_arrays_always_fit (inp : BlockInput) (rate : R) (p : Processor) :
  Forall arraysFit (voices newProcessor)
  /\ (Forall arraysFit (voices p) ->
      Forall arraysFit (voices (prepareToPlay rate p))
      /\ Forall arraysFit (voicesAfterEvents inp (voices p))
      /\ Forall arraysFit (voices (fst (processBlock inp p)))).
Proof.
  split.
  - apply Forall_forall. intros v Hv. apply repeat_spec in Hv. subst v.
    apply arraysFit_newVoice.
  - intros Hall.
    assert (Hafter : Forall arraysFit (voicesAfterEvents inp (voices p))).
    { unfold voicesAfterEvents.
      apply Forall_events;
        [intros; apply arraysFit_startNote; assumption
        | apply arraysFit_stopNote |].
      apply Forall_map. eapply Forall_impl; [| exact Hall].
      intros v Hv.
      exact (arraysFit_setNumOvertones (blockOvertones inp) MAX_OVERTONES v Hv). }
    split; [| split; [exact Hafter |]].
    + unfold prepareToPlay. simpl. apply Forall_map.
      eapply Forall_impl; [| exact Hall]. intros v. apply arraysFit_setSampleRate.
    + unfold processBlock. rewrite renderLoop_advances_voices. simpl.
      apply Forall_map. eapply Forall_impl; [| exact Hafter].
      intros v. apply arraysFit_iter.
Qed.

Lemma pool_arrays_always_fit_witness :
  let inp := mkBlockInput 1 32 0.02 [NoteOn 69 1] 64 2 in
  Forall arraysFit (voices (fst (processBlock inp newProcessor))).
Proof.
  intros inp.
  destruct (pool_arrays_always_fit inp 44100 newProcessor) as [Hnew Hstep].
  apply (Hstep Hnew).
Defined.

(** ** The harmonic count *)

Lemma setNumOvertones_count (num maxOvertones : Z) (v : Voice) :
  numOvertones (setNumOvertones num maxOvertones v)
  = Z.max 1 (Z.min maxOvertones num).
Proof.
  unfold setNumOvertones.
  destruct (numOvertones v =? Z.max 1 (Z.min maxOvertones num))%Z eqn:E.
  - apply Z.eqb_eq in E. exact E.
  - set (v1 := mkVoice _ _ _ _ _ _ _ _ _ _ _ _ _ _ _ _).
    destruct (isActive v1 && negb (releaseStage v1)); reflexivity.
Qed.

Lemma setNumOvertones_unchanged (num maxOvertones : Z) (v : Voice) :
  numOvertones v = Z.max 1 (Z.min maxOvertones num) ->
  setNumOvertones num maxOvertones v = v.
Proof.
  intros H. unfold setNumOvertones.
  replace (numOvertones v =? Z.max 1 (Z.min maxOvertones num))%Z with true
    by (symmetry; apply Z.eqb_eq; exact H).
  reflexivity.
Qed.

(** X2.  [setNumOvertones] leaves the voice with the requested count clamped
    to [[1, maxOvertones]]; when the voice already has that count the call
    changes nothing at all (no note is restarted), so repeating the call, as
    every block does, is the same as calling once. *)
Theorem setNumOvertones_clamps_and_settles (num maxOvertones : Z) (v : Voice) :
  numOvertones (setNumOvertones num maxOvertones v)
  = Z.max 1 (Z.min maxOvertones num)
  /\ (numOvertones v = Z.max 1 (Z.min maxOvertones num) ->
      setNumOvertones num maxOvertones v = v)
  /\ setNumOvertones num maxOvertones (setNumOvertones num maxOvertones v)
     = setNumOvertones num maxOvertones v.
Proof.
  split; [apply setNumOvertones_count |].
  split; [apply setNumOvertones_unchanged |].
  apply setNumOvertones_unchanged, setNumOvertones_count.
Qed.

Lemma setNumOvertones_clamps_and_settles_witness :
  numOvertones (newVoice 44100) = Z.max 1 (Z.min 32 8)
  /\ setNumOvertones 8 32 (newVoice 44100) = newVoice 44100.
Proof.
  assert (H : numOvertones (newVoice 44100) = Z.max 1 (Z.min 32 8)) by reflexivity.
  split; [exact H |].
  exact (proj1 (proj2 (setNumOvertones_clamps_and_settles 8 32 (newVoice 44100))) H).
Defined.

(** X3.  A change of the harmonic count leaves a voice that is inactive or
    releasing on its envelope schedule (same flags, counts, levels, note and
    velocity); a sounding voice that is not releasing is restarted on its
    own note and velocity: back in attack at level 0 with the full attack
    count, and the phases of all its harmonics back at 0. *)
Theorem setNumOvertones_restarts_only_sustaining (num maxOvertones : Z) (v : Voice) :
  let v' := setNumOvertones num maxOvertones v in
  ((isActive v = false \/ releaseStage v = true) ->
   sameStages v' v
   /\ attackLevel v' = attackLevel v /\ releaseLevel v' = releaseLevel v
   /\ midiNote v' = midiNote v /\ velocity v' = velocity v)
  /\ (isActive v = true -> releaseStage v = false -> arraysFit v ->
      numOvertones v <> Z.max 1 (Z.min maxOvertones num) ->
      isActive v' = true /\ releaseStage v' = false
      /\ attackStage v' = true /\ attackLevel v' = 0
      /\ attackSamplesRemaining v' = attackSamples v
      /\ midiNote v' = midiNote v /\ velocity v' = velocity v
      /\ forall k, (k < Z.to_nat (numOvertones v'))%nat -> nth k (phases v') 0 = 0).
Proof.
  cbn zeta. split.
  - intros Hquiet. unfold setNumOvertones.
    destruct (numOvertones v =? Z.max 1 (Z.min maxOvertones num))%Z;
      [repeat split |].
    set (v1 := mkVoice _ _ _ _ _ _ _ _ _ _ _ _ _ _ _ _).
    assert (Hcond : isActive v1 && negb (releaseStage v1) = false).
    { unfold v1. simpl. destruct Hquiet as [H | H]; rewrite H; simpl; auto.
      apply andb_false_r. }
    rewrite Hcond. repeat split.
  - intros Ha Hr Hfit Hne. unfold setNumOvertones.
    replace (numOvertones v =? Z.max 1 (Z.min maxOvertones num))%Z with false
      by (symmetry; apply Z.eqb_neq; exact Hne).
    set (n := Z.max 1 (Z.min maxOvertones num)).
    set (v1 := mkVoice _ _ _ _ _ _ _ _ _ _ _ _ _ _ _ _).
    assert (Hcond : isActive v1 && negb (releaseStage v1) = true)
      by (unfold v1; simpl; rewrite Ha, Hr; reflexivity).
    rewrite Hcond.
    split; [reflexivity |]. split; [reflexivity |]. split; [reflexivity |].
    split; [reflexivity |]. split; [reflexivity |]. split; [reflexivity |].
    split; [reflexivity |].
    intros k Hk.
    assert (H1 : arraysFit v1).
    { destruct Hfit as (Hh & Hp & Hi & Hg). unfold arraysFit, v1. simpl.
      destruct (Z.of_nat (length (phases v)) <? n + 2)%Z eqn:Egrow.
      - apply Z.ltb_lt in Egrow.
        rewrite !resize_length_grow by lia. unfold n. lia.
      - apply Z.ltb_ge in Egrow. unfold n in *. repeat split; auto; lia. }
    destruct H1 as (_ & Hp1 & Hi1 & _).
    apply (startNote_phases (midiNote v1) (velocity v1) v1 k); auto.
    rewrite Hi1. exact Hp1.
Qed.

Lemma iter_advancePhase_numOvertones (n : nat) (v : Voice) :
  numOvertones (Nat.iter n advancePhase v) = numOvertones v.
Proof.
  induction n as [| n IH]; [reflexivity |].
  rewrite Nat.iter_succ, advancePhase_numOvertones. exact IH.
Qed.

Lemma setNumOvertones_restarts_only_sustaining_witness :
  let v := Nat.iter 200 advancePhase (startNote 69 0.8 (newVoice 44100)) in
  isActive v = true /\ releaseStage v = false
  /\ attackLevel (setNumOvertones 4 32 v) = 0.
Proof.
  intros v.
  destruct (sustain_stays_active 200 (startNote 69 0.8 (newVoice 44100))
              eq_refl eq_refl) as [Ha Hr].
  fold v in Ha, Hr.
  assert (Hfit : arraysFit v)
    by (apply arraysFit_iter, arraysFit_startNote, arraysFit_newVoice).
  assert (Hne : numOvertones v <> Z.max 1 (Z.min 32 4)).
  { unfold v. rewrite iter_advancePhase_numOvertones. discriminate. }
  split; [exact Ha |]. split; [exact Hr |].
  apply (proj2 (setNumOvertones_restarts_only_sustaining 4 32 v) Ha Hr Hfit Hne).
Defined.

Lemma stopNote_numOvertones (v : Voice) : numOvertones (stopNote v) = numOvertones v.
Proof. unfold stopNote. destruct (isActive v && negb (releaseStage v)); reflexivity. Qed.

(** X4.  After a block every voice of the pool, sounding or not, has the
    harmonic count of that block: the raw parameter cast to [int] and
    clamped to [[1, 32]]. *)
Theorem processBlock_sets_harmonic_count (inp : BlockInput) (p : Processor) :
  Forall (fun v => numOvertones v = blockOvertones inp)
         (voices (fst (processBlock inp p)))
  /\ (1 <= blockOvertones inp <= 32)%Z.
Proof.
  split; [| apply blockOvertones_range].
  unfold processBlock. rewrite renderLoop_advances_voices. simpl.
  apply Forall_map.
  assert (Hafter : Forall (fun v => numOvertones v = blockOvertones inp)
                          (voicesAfterEvents inp (voices p))).
  { unfold voicesAfterEvents. apply Forall_events.
    - intros note vel v Hv. exact Hv.
    - intros v Hv. rewrite stopNote_numOvertones. exact Hv.
    - apply Forall_map. apply Forall_forall. intros v _.
      change (numOvertones (setNumOvertones (blockOvertones inp) MAX_OVERTONES v)
              = blockOvertones inp).
      rewrite setNumOvertones_count.
      pose proof (blockOvertones_range inp). unfold MAX_OVERTONES. lia. }
  eapply Forall_impl; [| exact Hafter].
  intros v Hv. simpl. rewrite iter_advancePhase_numOvertones. exact Hv.
Qed.

(** ** The block as a whole *)

Lemma onVoice_length (vs : list Voice) (ptr : option nat) (f : Voice -> Voice) :
  length (onVoice vs ptr f) = length vs.
Proof.
  unfold onVoice. destruct ptr as [i |]; [| reflexivity].
  destruct (nth_error vs i); [apply store_length | reflexivity].
Qed.

Lemma handleMidi_length (vs : list Voice) (m : MidiMessage) :
  length (handleMidi vs m) = length vs.
Proof.
  destruct m; simpl; try apply onVoice_length; [apply length_map | reflexivity].
Qed.

Lemma events_length (ms : list MidiMessage) :
  forall vs, length (fold_left handleMidi ms vs) = length vs.
Proof.
  induction ms as [| m rest IH]; intros vs; simpl; [reflexivity |].
  rewrite IH. apply handleMidi_length.
Qed.

Lemma renderLoop_constants (n channels : nat) (masterAmplitude : R) :
  forall p : Processor,
    currentSampleRate (fst (renderLoop n channels masterAmplitude p))
    = currentSampleRate p
    /\ voiceScalingSmoothingCoeff (fst (renderLoop n channels masterAmplitude p))
       = voiceScalingSmoothingCoeff p.
Proof.
  induction n as [| n IH]; intros p; simpl; [split; reflexivity |].
  set (p' := mkProcessor _ _ _ _ _). specialize (IH p').
  destruct (renderLoop n channels masterAmplitude p'). simpl in *. exact IH.
Qed.

(** X5.  A block of [numSamples] frames applies the parameters and the
    events once and then advances every voice of the pool exactly
    [numSamples] times; the pool keeps its size, and the sample rate and the
    smoothing coefficient of the processor are untouched. *)
Theorem processBlock_advances_every_voice (inp : BlockInput) (p : Processor) :
  voices (fst (processBlock inp p))
  = map (Nat.iter (numSamples inp) advancePhase) (voicesAfterEvents inp (voices p))
  /\ length (voices (fst (processBlock inp p))) = length (voices p)
  /\ currentSampleRate (fst (processBlock inp p)) = currentSampleRate p
  /\ voiceScalingSmoothingCoeff (fst (processBlock inp p))
     = voiceScalingSmoothingCoeff p.
Proof.
  assert (Hv : voices (fst (processBlock inp p))
               = map (Nat.iter (numSamples inp) advancePhase)
                     (voicesAfterEvents inp (voices p))).
  { unfold processBlock. rewrite renderLoop_advances_voices. reflexivity. }
  split; [exact Hv |]. split.
  - rewrite Hv, length_map. unfold voicesAfterEvents.
    rewrite events_length, length_map. reflexivity.
  - unfold processBlock.
    match goal with
    | |- context [renderLoop ?n ?c ?m ?q] =>
        destruct (renderLoop_constants n c m q) as [Hr Hc]
    end.
    split; [exact Hr | exact Hc].
Qed.

(** ** The smoothed scaling factor *)

Lemma renderLoop_factor (n channels : nat) (masterAmplitude : R) :
  forall p : Processor,
    currentVoiceScalingFactor (fst (renderLoop n channels masterAmplitude p))
    = targetVoiceScalingFactor p
      + (1 - voiceScalingSmoothingCoeff p) ^ n
        * (currentVoiceScalingFactor p - targetVoiceScalingFactor p).
Proof.
  induction n as [| n IH]; intros p; simpl; [ring |].
  set (p' := mkProcessor _ _ _ _ _). specialize (IH p').
  destruct (renderLoop n channels masterAmplitude p'). simpl in *.
  rewrite IH. ring.
Qed.

Lemma pow_unit_interval (x : R) (n : nat) : 0 <= x <= 1 -> 0 <= x ^ n <= 1.
Proof.
  intros [H0 H1]. induction n as [| n [IH0 IH1]]; simpl; [lra |]. nra.
Qed.

(** X6.  Over a block of [n] frames the scaling factor follows the one-pole
    law in closed form: it ends at
    [target + (1 - coeff)^n * (current - target)].  With a coefficient in
    [[0, 1]] it therefore never moves away from the target and never
    crosses it. *)
Theorem processBlock_smooths_factor (inp : BlockInput) (p : Processor) :
  let target := targetVoiceScalingFactor (fst (processBlock inp p)) in
  let coeff := voiceScalingSmoothingCoeff p in
  let gap := currentVoiceScalingFactor p - target in
  currentVoiceScalingFactor (fst (processBlock inp p))
  = target + (1 - coeff) ^ numSamples inp * gap
  /\ (0 <= coeff <= 1 ->
      Rabs (currentVoiceScalingFactor (fst (processBlock inp p)) - target)
      <= Rabs gap
      /\ 0 <= (currentVoiceScalingFactor (fst (processBlock inp p)) - target) * gap).
Proof.
  intros target coeff gap.
  assert (Ht : target
               = targetScaling (getActiveVoiceCount (voicesAfterEvents inp (voices p)))
                               (blockOvertones inp)).
  { unfold target, processBlock. rewrite renderLoop_target. reflexivity. }
  assert (Hcur : currentVoiceScalingFactor (fst (processBlock inp p))
                 = target + (1 - coeff) ^ numSamples inp * gap).
  { unfold gap. rewrite Ht. unfold processBlock. rewrite renderLoop_factor.
    reflexivity. }
  split; [exact Hcur |].
  intros Hc. rewrite Hcur.
  pose proof (pow_unit_interval (1 - coeff) (numSamples inp)) as Hpow.
  destruct Hpow as [Hp0 Hp1]; [lra |].
  set (q := (1 - coeff) ^ numSamples inp) in *.
  replace (target + q * gap - target) with (q * gap) by ring.
  split.
  - rewrite Rabs_mult, (Rabs_pos_eq q) by exact Hp0.
    pose proof (Rabs_pos gap). nra.
  - replace (q * gap * gap) with (q * (gap * gap)) by ring.
    apply Rmult_le_pos; [exact Hp0 | nra].
Qed.

Lemma processBlock_smooths_factor_witness :
  let inp := mkBlockInput 1 8 0.02 [NoteOn 69 1] 64 2 in
  let target := targetVoiceScalingFactor (fst (processBlock inp newProcessor)) in
  0 <= voiceScalingSmoothingCoeff newProcessor <= 1
  /\ Rabs (currentVoiceScalingFactor (fst (processBlock inp newProcessor)) - target)
     <= Rabs (currentVoiceScalingFactor newProcessor - target).
Proof.
  intros inp target.
  assert (Hc : 0 <= voiceScalingSmoothingCoeff newProcessor <= 1) by (simpl; lra).
  split; [exact Hc |].
  exact (proj1 (proj2 (processBlock_smooths_factor inp newProcessor) Hc)).
Defined.

(** X7.  [prepareToPlay] with a positive sample rate stores the rate, resets
    the current and the target factor to 1 and sets the smoothing
    coefficient [1 - exp (-1 / (0.02f * rate))], which lies strictly between
    0 and 1 and makes [0.02f] seconds the time constant of the smoothing:
    [(1 - coeff)^n = exp (- n / (0.02f * rate))].  The pool keeps its
    size. *)
Theorem prepareToPlay_resets_smoothing (rate : R) (p : Processor) :
  0 < rate ->
  let p' := prepareToPlay rate p in
  currentSampleRate p' = rate
  /\ currentVoiceScalingFactor p' = 1 /\ targetVoiceScalingFactor p' = 1
  /\ voiceScalingSmoothingCoeff p' = 1 - exp (- 1 / (float_0_02 * rate))
  /\ 0 < voiceScalingSmoothingCoeff p' < 1
  /\ (forall n : nat,
        (1 - voiceScalingSmoothingCoeff p') ^ n
        = exp (- INR n / (float_0_02 * rate)))
  /\ length (voices p') = length (voices p).
Proof.
  intros Hrate. cbn zeta. unfold prepareToPlay. simpl.
  split; [reflexivity |]. split; [reflexivity |]. split; [reflexivity |].
  split; [reflexivity |].
  assert (Htau : 0 < float_0_02 * rate) by (unfold float_0_02; nra).
  split; [| split; [| apply length_map]].
  - assert (Hneg : - 1 / (float_0_02 * rate) < 0).
    { unfold Rdiv. apply Ropp_lt_cancel. rewrite Ropp_0.
      replace (- (-1 * / (float_0_02 * rate))) with (/ (float_0_02 * rate)) by lra.
      apply Rinv_0_lt_compat. exact Htau. }
    pose proof (exp_pos (- 1 / (float_0_02 * rate))) as Hpos.
    pose proof (exp_increasing _ _ Hneg) as Hlt. rewrite exp_0 in Hlt. lra.
  - intros n.
    replace (1 - (1 - exp (- 1 / (float_0_02 * rate))))
      with (exp (- 1 / (float_0_02 * rate))) by ring.
    rewrite exp_times_pow. f_equal. unfold float_0_02. field. lra.
Qed.

Lemma prepareToPlay_resets_smoothing_witness :
  0 < 48000
  /\ voiceScalingSmoothingCoeff (prepareToPlay 48000 newProcessor)
     = 1 - exp (- 1 / (float_0_02 * 48000))
  /\ 0 < voiceScalingSmoothingCoeff (prepareToPlay 48000 newProcessor) < 1.
Proof.
  assert (H : 0 < 48000) by lra.
  destruct (prepareToPlay_resets_smoothing 48000 newProcessor H)
    as (_ & _ & _ & Hc & Hb & _).
  split; [exact H |]. split; [exact Hc | exact Hb].
Defined.

(** ** Note-off, all-notes-off and the count of active voices *)

Lemma activeVoices_store (vs : list Voice) (i : nat) (v x : Voice) :
  nth_error vs i = Some v ->
  (activeVoices (store vs i x) + (if isActive v then 1 else 0)
   = activeVoices vs + (if isActive x then 1 else 0))%nat.
Proof.
  unfold activeVoices. revert i.
  induction vs as [| h t IH]; intros [| i] Hnth; simpl in *; try discriminate.
  - inversion Hnth; subst. destruct (isActive v), (isActive x); simpl; lia.
  - specialize (IH i Hnth). destruct (isActive h); simpl; lia.
Qed.

Lemma stopNote_isActive (v : Voice) : isActive (stopNote v) = isActive v.
Proof. unfold stopNote. destruct (isActive v && negb (releaseStage v)); reflexivity. Qed.

Lemma stopNote_midiNote (v : Voice) : midiNote (stopNote v) = midiNote v.
Proof. unfold stopNote. destruct (isActive v && negb (releaseStage v)); reflexivity. Qed.

Lemma findVoiceForNoteFrom_spec (note : Z) (vs : list Voice) :
  forall i0 : nat,
    match findVoiceForNoteFrom vs i0 note with
    | Some i =>
        (i0 <= i)%nat
        /\ (exists v, nth_error vs (i - i0) = Some v
                      /\ isActive v = true /\ midiNote v = note)
        /\ (forall j u, (j < i - i0)%nat -> nth_error vs j = Some u ->
              ~ (isActive u = true /\ midiNote u = note))
    | None =>
        Forall (fun u => ~ (isActive u = true /\ midiNote u = note)) vs
    end.
Proof.
  induction vs as [| v rest IH]; intros i0; simpl; [constructor |].
  unfold isNoteActive, getMidiNote.
  destruct (isActive v && (midiNote v =? note)%Z) eqn:E.
  - apply andb_prop in E. destruct E as [Ea En]. apply Z.eqb_eq in En.
    rewrite Nat.sub_diag. split; [lia |]. split.
    + exists v. auto.
    + intros j u Hj. lia.
  - assert (Hv : ~ (isActive v = true /\ midiNote v = note)).
    { intros [Ha Hn]. rewrite Ha in E. apply Z.eqb_eq in Hn. rewrite Hn in E.
      discriminate. }
    specialize (IH (S i0)).
    destruct (findVoiceForNoteFrom rest (S i0) note) as [i |].
    + destruct IH as (Hi & (w & Hnth & Hw) & Hbefore).
      split; [lia |].
      replace (i - i0)%nat with (S (i - S i0)) by lia. split.
      * exists w. auto.
      * intros [| j] u Hj Hu; simpl in Hu.
        -- inversion Hu; subst. exact Hv.
        -- apply (Hbefore j u); [lia | exact Hu].
    + constructor; assumption.
Qed.

(** X8.  A note-off stops the first active voice (lowest index) that holds
    the note and touches no other voice; when no active voice holds the note
    the pool is unchanged.  In both cases the number of active voices stays
    the same: the stopped voice keeps sounding until its release ends. *)
Theorem noteOff_stops_first_match (vs : list Voice) (note : Z) :
  let vs' := handleMidi vs (NoteOff note) in
  match findVoiceForNote vs note with
  | Some i =>
      exists v, nth_error vs i = Some v
                /\ isNoteActive v = true /\ getMidiNote v = note
                /\ (forall j u, (j < i)%nat -> nth_error vs j = Some u ->
                      ~ (isNoteActive u = true /\ getMidiNote u = note))
                /\ nth_error vs' i = Some (stopNote v)
                /\ (forall j, j <> i -> nth_error vs' j = nth_error vs j)
  | None =>
      (forall u, In u vs -> ~ (isNoteActive u = true /\ getMidiNote u = note))
      /\ vs' = vs
  end
  /\ activeVoices vs' = activeVoices vs
  /\ length vs' = length vs.
Proof.
  cbn zeta. unfold isNoteActive, getMidiNote.
  pose proof (findVoiceForNoteFrom_spec note vs 0) as Hspec.
  unfold handleMidi, findVoiceForNote in *.
  destruct (findVoiceForNoteFrom vs 0 note) as [i |].
  - destruct Hspec as (_ & (v & Hnth & Ha & Hn) & Hbefore).
    rewrite Nat.sub_0_r in *.
    assert (Hlt : (i < length vs)%nat) by (apply nth_error_Some; congruence).
    assert (Heq : onVoice vs (Some i) stopNote = store vs i (stopNote v))
      by (unfold onVoice; rewrite Hnth; reflexivity).
    rewrite Heq.
    split; [| split; [| apply store_length]].
    + exists v. split; [exact Hnth |]. split; [exact Ha |]. split; [exact Hn |].
      split; [exact Hbefore |]. split.
      * apply nth_error_store_same. exact Hlt.
      * intros j Hj. apply nth_error_store_other. auto.
    + pose proof (activeVoices_store vs i v (stopNote v) Hnth) as Hcount.
      rewrite stopNote_isActive in Hcount. lia.
  - simpl. rewrite Forall_forall in Hspec. repeat split; auto.
Qed.

Lemma noteOff_stops_first_match_witness :
  let vs := handleMidi (voices newProcessor) (NoteOn 69 1) in
  exists v, nth_error vs 0 = Some v /\ isNoteActive v = true
            /\ nth_error (handleMidi vs (NoteOff 69)) 0 = Some (stopNote v).
Proof.
  intros vs.
  pose proof (proj1 (noteOff_stops_first_match vs 69)) as H.
  change (findVoiceForNote vs 69) with (Some 0%nat) in H.
  destruct H as (v & Hnth & Ha & _ & _ & Hstop & _).
  exists v. split; [exact Hnth |]. split; [exact Ha | exact Hstop].
Defined.

(** X9.  The search of a note-off looks at active voices only by note, so it
    can stop at a voice that is already releasing: then [stopNote] does
    nothing and the note-off is lost, whatever other voices hold the note
    further up the pool. *)
Theorem noteOff_lost_on_releasing_voice (vs : list Voice) (note : Z) (i : nat)
  (v : Voice) :
  findVoiceForNote vs note = Some i ->
  nth_error vs i = Some v ->
  releaseStage v = true ->
  handleMidi vs (NoteOff note) = vs.
Proof.
  intros Hfind Hnth Hr. simpl. rewrite Hfind. unfold onVoice. rewrite Hnth.
  rewrite stopNote_noop by auto.
  clear Hfind Hr. revert i Hnth.
  induction vs as [| h t IH]; intros [| i] Hnth; simpl in *; try discriminate.
  - inversion Hnth. reflexivity.
  - f_equal. apply IH. exact Hnth.
Qed.

Lemma noteOff_lost_on_releasing_voice_witness :
  let vs := fold_left handleMidi [NoteOn 60 1; NoteOff 60; NoteOn 60 1]
                      (voices newProcessor) in
  (exists v, nth_error vs 0 = Some v /\ releaseStage v = true)
  /\ (exists w, nth_error vs 1 = Some w /\ isNoteActive w = true
                /\ isReleasing w = false /\ getMidiNote w = 60%Z)
  /\ handleMidi vs (NoteOff 60) = vs.
Proof.
  intros vs.
  assert (H0 : nth_error vs 0
               = Some (stopNote (startNote 60 (1 * 0.8) (newVoice 44100))))
    by reflexivity.
  split; [eexists; split; [exact H0 | reflexivity] |].
  split; [eexists; split; [reflexivity | repeat split] |].
  exact (noteOff_lost_on_releasing_voice vs 60 0 _ eq_refl H0 eq_refl).
Defined.

(** X10.  All-notes-off puts every active voice into release at once and
    deactivates none: the number of active voices is unchanged, every active
    voice is releasing afterwards, and a voice that was inactive or already
    releasing is left as it was. *)
Theorem allNotesOff_releases_every_voice (vs : list Voice) :
  let vs' := handleMidi vs AllNotesOff in
  length vs' = length vs
  /\ activeVoices vs' = activeVoices vs
  /\ (forall u, In u vs' -> isNoteActive u = true -> isReleasing u = true)
  /\ (forall i v, nth_error vs i = Some v ->
        isNoteActive v = false \/ isReleasing v = true ->
        nth_error vs' i = Some v).
Proof.
  cbn zeta. simpl. unfold isNoteActive, isReleasing.
  split; [apply length_map |]. split; [| split].
  - unfold activeVoices. induction vs as [| h t IH]; simpl; [reflexivity |].
    rewrite stopNote_isActive. destruct (isActive h); simpl; lia.
  - intros u Hu Ha. apply in_map_iff in Hu. destruct Hu as (w & <- & _).
    rewrite stopNote_isActive in *. rewrite Ha. simpl.
    destruct (releaseStage w) eqn:Hr.
    + rewrite stopNote_noop by auto. exact Hr.
    + apply (stopNote_enters_release w Ha Hr).
  - intros i v Hnth Hquiet. rewrite nth_error_map, Hnth. simpl. f_equal.
    apply stopNote_noop. destruct Hquiet as [H | H]; [left; exact H |].
    apply andb_prop in H. right. apply H.
Qed.

Lemma allNotesOff_releases_every_voice_witness :
  let vs := handleMidi (voices newProcessor) (NoteOn 69 1) in
  exists u, In u (handleMidi vs AllNotesOff) /\ isNoteActive u = true
            /\ isReleasing u = true.
Proof.
  intros vs.
  destruct (allNotesOff_releases_every_voice vs) as (_ & _ & Hrel & _).
  exists (stopNote (startNote 69 (1 * 0.8) (newVoice 44100))).
  assert (Hin : In (stopNote (startNote 69 (1 * 0.8) (newVoice 44100)))
                   (handleMidi vs AllNotesOff)) by (left; reflexivity).
  split; [exact Hin |]. split; [reflexivity |]. apply (Hrel _ Hin). reflexivity.
Defined.

(** ** Note-on: which voices change and how many sound *)

(** X11.  A note-on changes exactly one voice of a non-empty pool, the one
    [findFreeVoice] points to.  If some voice was inactive the number of
    active voices grows by one; if all were active it stays the same (a
    voice was stolen). *)
Theorem noteOn_changes_one_voice (vs : list Voice) (note : Z) (vel : R) :
  vs <> [] ->
  let vs' := handleMidi vs (NoteOn note vel) in
  exists i,
    findFreeVoice vs = Some i
    /\ (forall j, j <> i -> nth_error vs' j = nth_error vs j)
    /\ ((exists u, In u vs /\ isNoteActive u = false) ->
        activeVoices vs' = S (activeVoices vs))
    /\ ((forall u, In u vs -> isNoteActive u = true) ->
        activeVoices vs' = activeVoices vs).
Proof.
  intros Hne. cbn zeta. unfold isNoteActive.
  destruct (findFreeVoice_tiers vs Hne) as (i & v & Hfind & Hnth & T1 & _).
  destruct (handleMidi_noteOn vs note vel i v Hfind Hnth) as [Heq _].
  pose proof (activeVoices_store vs i v (startNote note (vel * 0.8) v) Hnth) as Hcount.
  change (isActive (startNote note (vel * 0.8) v)) with true in Hcount.
  exists i. split; [exact Hfind |]. rewrite Heq. split; [| split].
  - intros j Hj. apply nth_error_store_other. auto.
  - intros Hfree. rewrite (T1 Hfree) in Hcount. lia.
  - intros Hall. rewrite (Hall v (nth_error_In _ _ Hnth)) in Hcount. lia.
Qed.

Lemma noteOn_changes_one_voice_witness :
  voices newProcessor <> []
  /\ activeVoices (handleMidi (voices newProcessor) (NoteOn 69 1))
     = S (activeVoices (voices newProcessor)).
Proof.
  assert (Hne : voices newProcessor <> []) by discriminate.
  split; [exact Hne |].
  destruct (noteOn_changes_one_voice (voices newProcessor) 69 1 Hne)
    as (i & _ & _ & Hgrow & _).
  apply Hgrow. exists (newVoice 44100). split; [left |]; reflexivity.
Defined.

(** X12.  The allocator does not look at note numbers: a note-on for a note
    that an active voice already holds, while some voice is free, starts a
    second voice on the same note and leaves the first one as it is. *)
Theorem noteOn_same_note_takes_second_voice (vs : list Voice) (note : Z) (vel : R)
  (j : nat) (w : Voice) :
  nth_error vs j = Some w ->
  isNoteActive w = true -> getMidiNote w = note ->
  (exists u, In u vs /\ isNoteActive u = false) ->
  let vs' := handleMidi vs (NoteOn note vel) in
  exists i v,
    i <> j
    /\ nth_error vs' i = Some v /\ isNoteActive v = true /\ getMidiNote v = note
    /\ nth_error vs' j = Some w.
Proof.
  intros Hj Ha Hn Hfree. cbn zeta. unfold isNoteActive, getMidiNote in *.
  assert (Hne : vs <> []) by (intros ->; destruct j; discriminate).
  destruct (findFreeVoice_tiers vs Hne) as (i & v & Hfind & Hnth & T1 & _).
  destruct (handleMidi_noteOn vs note vel i v Hfind Hnth) as [Heq Hnew].
  assert (Hij : i <> j).
  { intros ->. rewrite Hj in Hnth. inversion Hnth; subst.
    rewrite (T1 Hfree) in Ha. discriminate. }
  exists i, (startNote note (vel * 0.8) v).
  split; [exact Hij |]. split; [exact Hnew |].
  split; [reflexivity |]. split; [reflexivity |].
  rewrite Heq, nth_error_store_other by exact Hij. exact Hj.
Qed.

Lemma noteOn_same_note_takes_second_voice_witness :
  let vs := handleMidi (voices newProcessor) (NoteOn 60 1) in
  exists i v,
    i <> 0%nat
    /\ nth_error (handleMidi vs (NoteOn 60 1)) i = Some v
    /\ isNoteActive v = true /\ getMidiNote v = 60%Z.
Proof.
  intros vs.
  destruct (noteOn_same_note_takes_second_voice vs 60 1 0
              (startNote 60 (1 * 0.8) (newVoice 44100)) eq_refl eq_refl eq_refl)
    as (i & v & Hi & Hnth & Ha & Hn & _).
  - exists (newVoice 44100). split; [right; left |]; reflexivity.
  - exists i, v. auto.
Defined.

(** ** How a voice becomes free, and the shape of the ramps *)

Lemma inactive_fixed (n : nat) (v : Voice) :
  isActive v = false -> Nat.iter n advancePhase v = v.
Proof.
  intros H. induction n as [| n IH]; [reflexivity |].
  rewrite Nat.iter_succ, IH. apply advancePhase_inactive. exact H.
Qed.

(** X13.  The end of a release is the only way a voice becomes free: an
    active voice that is not releasing stays active over any number of calls
    of [advancePhase]; a call that deactivates found the voice releasing
    with no samples remaining; [stopNote] itself never deactivates; and an
    inactive voice is left untouched by [advancePhase]. *)
Theorem voice_frees_only_when_release_ends (n : nat) (v : Voice) :
  (isNoteActive v = true -> isReleasing v = false ->
   isNoteActive (Nat.iter n advancePhase v) = true)
  /\ (isNoteActive v = true -> isNoteActive (advancePhase v) = false ->
      isReleasing v = true /\ (getReleaseSamplesRemaining v <= 0)%Z)
  /\ isNoteActive (stopNote v) = isNoteActive v
  /\ (isNoteActive v = false -> Nat.iter n advancePhase v = v).
Proof.
  unfold isNoteActive, isReleasing, getReleaseSamplesRemaining.
  split; [| split; [| split]].
  - intros Ha Hr. rewrite Ha in Hr. simpl in Hr.
    apply (sustain_stays_active n v Ha Hr).
  - intros Ha Hoff. rewrite advancePhase_isActive, Ha in Hoff. simpl in Hoff.
    rewrite Ha. simpl.
    destruct (releaseStage v); simpl in *; [| discriminate].
    destruct (0 <? releaseSamplesRemaining v)%Z eqn:E; [discriminate |].
    apply Z.ltb_ge in E. auto.
  - apply stopNote_isActive.
  - apply inactive_fixed.
Qed.

Lemma voice_frees_only_when_release_ends_witness :
  let v := startNote 69 0.8 (newVoice 44100) in
  isNoteActive v = true /\ isReleasing v = false
  /\ isNoteActive (Nat.iter 4000 advancePhase v) = true.
Proof.
  intros v. split; [reflexivity |]. split; [reflexivity |].
  exact (proj1 (voice_frees_only_when_release_ends 4000 v) eq_refl eq_refl).
Defined.

(** X14.  Both ramps are linear in the number of calls.  After [startNote],
    call number [k] (for [1 <= k <= attackSamples]) leaves
    [attackLevel = (k - 1) / attackSamples]; after [stopNote] on a sounding
    voice, call number [k] (for [1 <= k <= releaseSamples]) leaves
    [releaseLevel = (releaseSamples - k + 1) / releaseSamples].  Both stay
    within [[0, 1]]. *)
Theorem envelope_ramps_are_linear (note : Z) (vel : R) (v : Voice) (k : nat) :
  (1 <= k)%nat ->
  ((Z.of_nat k <= attackSamples v)%Z ->
   let level := attackLevel (Nat.iter k advancePhase (startNote note vel v)) in
   level = IZR (Z.of_nat k - 1) / IZR (attackSamples v) /\ 0 <= level <= 1)
  /\ (isActive v = true -> releaseStage v = false ->
      (Z.of_nat k <= releaseSamples v)%Z ->
      let level := releaseLevel (Nat.iter k advancePhase (stopNote v)) in
      level = IZR (releaseSamples v - Z.of_nat k + 1) / IZR (releaseSamples v)
      /\ 0 <= level <= 1).
Proof.
  intros Hk. split.
  - intros HkN. cbn zeta.
    destruct (startNote_envelope note vel v) as (Ha & Hs & _ & Hrem & Htot & Hr & _).
    destruct (attack_countdown k _ Ha Hs Hr) as (_ & _ & _ & _ & _ & Ilev);
      [rewrite Hrem; lia |].
    rewrite Ilev by lia. rewrite Hrem, Htot.
    assert (HN : 0 < IZR (attackSamples v)) by (apply IZR_lt; lia).
    assert (Hnum : IZR (attackSamples v - Z.of_nat k + 1)
                   = IZR (attackSamples v) - IZR (Z.of_nat k - 1)).
    { rewrite <- minus_IZR. f_equal. lia. }
    assert (Hk0 : 0 <= IZR (Z.of_nat k - 1)) by (apply IZR_le; lia).
    assert (Hk1 : IZR (Z.of_nat k - 1) <= IZR (attackSamples v))
      by (apply IZR_le; lia).
    rewrite Hnum.
    assert (Heq : 1 - (IZR (attackSamples v) - IZR (Z.of_nat k - 1))
                      / IZR (attackSamples v)
                  = IZR (Z.of_nat k - 1) / IZR (attackSamples v))
      by (field; lra).
    rewrite Heq. split; [reflexivity |].
    split.
    + apply Rmult_le_pos; [exact Hk0 | left; apply Rinv_0_lt_compat; exact HN].
    + apply Rmult_le_reg_r with (IZR (attackSamples v)); [exact HN |].
      unfold Rdiv. rewrite Rmult_assoc, Rinv_l by lra. lra.
  - intros Ha Hr HkN. cbn zeta.
    destruct (stopNote_enters_release v Ha Hr) as (Sa & Sr & _ & _ & Srem & Stot).
    rewrite (release_levels k (stopNote v) Sa Sr) by (rewrite ?Srem; lia).
    rewrite Srem, Stot. split; [reflexivity |].
    assert (HN : 0 < IZR (releaseSamples v)) by (apply IZR_lt; lia).
    assert (H0 : 0 <= IZR (releaseSamples v - Z.of_nat k + 1)) by (apply IZR_le; lia).
    assert (H1 : IZR (releaseSamples v - Z.of_nat k + 1) <= IZR (releaseSamples v))
      by (apply IZR_le; lia).
    split.
    + apply Rmult_le_pos; [exact H0 | left; apply Rinv_0_lt_compat; exact HN].
    + apply Rmult_le_reg_r with (IZR (releaseSamples v)); [exact HN |].
      unfold Rdiv. rewrite Rmult_assoc, Rinv_l by lra. lra.
Qed.

Lemma envelope_ramps_are_linear_witness :
  (1 <= 45)%nat /\ (Z.of_nat 45 <= attackSamples (newVoice 44100))%Z
  /\ attackLevel (Nat.iter 45 advancePhase (startNote 69 0.8 (newVoice 44100)))
     = IZR (Z.of_nat 45 - 1) / IZR (attackSamples (newVoice 44100)).
Proof.
  assert (Hk : (1 <= 45)%nat) by lia.
  assert (HN : (Z.of_nat 45 <= attackSamples (newVoice 44100))%Z)
    by (rewrite newVoice_attackSamples; lia).
  split; [exact Hk |]. split; [exact HN |].
  exact (proj1 (proj1 (envelope_ramps_are_linear 69 0.8 (newVoice 44100) 45 Hk) HN)).
Defined.

(** ** The sample of a voice *)

Lemma sineTable_bound (j : nat) : -1 <= nth j sineTable 0 <= 1.
Proof.
  destruct (Nat.lt_ge_cases j (length sineTable)) as [Hin | Hout].
  - assert (Hall : Forall (fun x => -1 <= x <= 1) sineTable).
    { unfold sineTable. apply Forall_map, Forall_forall. intros i _.
      apply SIN_bound. }
    rewrite Forall_forall in Hall. apply Hall, nth_In. exact Hin.
  - rewrite nth_overflow by exact Hout. lra.
Qed.

Lemma truncToInt_bounds (x : R) :
  0 <= x -> (0 <= truncToInt x)%Z /\ IZR (truncToInt x) <= x < IZR (truncToInt x) + 1.
Proof.
  intros Hx. unfold truncToInt.
  destruct (Rle_dec 0 x) as [_ | Hn]; [| contradiction].
  destruct (base_Int_part x) as [Hlo Hhi].
  split; [| lra].
  assert (H : IZR (-1) < IZR (Int_part x)) by lra.
  apply lt_IZR in H. lia.
Qed.

(** With the phase in [[0, twoPi)] the interpolation reads two neighbouring
    table cells with a weight in [[0, 1)], so the interpolated value is
    within [[-1, 1]]. *)
Lemma overtoneSample_bound (v : Voice) (i : nat) :
  0 <= nth i (phases v) 0 < twoPi ->
  Rabs (overtoneSample v i) <= Rabs (nth i (gains v) 0).
Proof.
  intros [Hp0 Hp1]. unfold overtoneSample.
  set (position := nth i (phases v) 0 / twoPi * IZR WAVETABLE_SIZE).
  assert (Hpi : 0 < twoPi) by (unfold twoPi; pose proof PI_RGT_0; lra).
  assert (Hq : 0 <= nth i (phases v) 0 / twoPi < 1).
  { split.
    - apply Rmult_le_pos; [exact Hp0 | left; apply Rinv_0_lt_compat; exact Hpi].
    - apply Rmult_lt_reg_r with twoPi; [exact Hpi |].
      unfold Rdiv. rewrite Rmult_assoc, Rinv_l by lra. lra. }
  assert (Hpos : 0 <= position < 4096).
  { unfold position, WAVETABLE_SIZE. lra. }
  destruct (truncToInt_bounds position (proj1 Hpos)) as (Hz0 & Hzlo & Hzhi).
  set (z := truncToInt position) in *.
  assert (Hz1 : (z < 4096)%Z).
  { apply lt_IZR. lra. }
  assert (Hrem : Z.rem z WAVETABLE_SIZE = z)
    by (apply Z.rem_small; unfold WAVETABLE_SIZE; lia).
  rewrite Hrem.
  replace (z <? 0)%Z with false by (symmetry; apply Z.ltb_ge; exact Hz0).
  set (a := nth (Z.to_nat z) sineTable 0).
  set (b := nth (Z.to_nat (Z.rem (z + 1) WAVETABLE_SIZE)) sineTable 0).
  pose proof (sineTable_bound (Z.to_nat z)) as Ha. fold a in Ha.
  pose proof (sineTable_bound (Z.to_nat (Z.rem (z + 1) WAVETABLE_SIZE))) as Hb.
  fold b in Hb.
  set (t := position - IZR z) in *.
  assert (Ht : 0 <= t <= 1) by (unfold t; lra).
  assert (Hval : Rabs (a + t * (b - a)) <= 1).
  { apply Rabs_le. split; nra. }
  rewrite Rabs_mult.
  pose proof (Rabs_pos (nth i (gains v) 0)). nra.
Qed.

Lemma fold_left_sumTo (f : nat -> R) (n : nat) (acc : R) :
  fold_left (fun a i => a + f i) (seq 0 n) acc = acc + sumTo f n.
Proof.
  induction n as [| n IH]; [simpl; lra |].
  rewrite seq_S, fold_left_app, IH. simpl. lra.
Qed.

Lemma sumTo_abs_le (f g : nat -> R) (n : nat) :
  (forall i, (i < n)%nat -> Rabs (f i) <= g i) ->
  Rabs (sumTo f n) <= sumTo g n.
Proof.
  induction n as [| n IH]; intros H; simpl.
  - rewrite Rabs_R0. lra.
  - eapply Rle_trans; [apply Rabs_triang |].
    apply Rplus_le_compat; [apply IH; intros; apply H; lia | apply H; lia].
Qed.

(** [getSample] scales the sum of the harmonics by exactly the value that
    [getCurrentAmplitude] reports. *)
Lemma getSample_factor (v : Voice) :
  isActive v = true ->
  getSample v
  = sumTo (overtoneSample v) (Z.to_nat (numOvertones v)) * getCurrentAmplitude v.
Proof.
  intros Ha. unfold getSample, getCurrentAmplitude. rewrite Ha. simpl.
  rewrite fold_left_sumTo, Rplus_0_l.
  destruct (attackStage v); [reflexivity |].
  destruct (releaseStage v); reflexivity.
Qed.

Lemma getSample_abs_le (v : Voice) :
  (forall k, (k < Z.to_nat (numOvertones v))%nat ->
     0 <= nth k (phases v) 0 < twoPi) ->
  Rabs (getSample v) <= gainSum v * Rabs (getCurrentAmplitude v).
Proof.
  intros Hph. destruct (isActive v) eqn:Ha.
  - rewrite getSample_factor by exact Ha. rewrite Rabs_mult.
    apply Rmult_le_compat_r; [apply Rabs_pos |].
    unfold gainSum. apply sumTo_abs_le. intros i Hi.
    apply overtoneSample_bound, Hph, Hi.
  - unfold getSample. rewrite Ha. simpl. rewrite Rabs_R0.
    apply Rmult_le_pos; [| apply Rabs_pos].
    unfold gainSum. apply sumTo_nonneg. intros i. apply Rabs_pos.
Qed.

(** X15.  With every harmonic's phase in [[0, twoPi)], the magnitude of the
    sample of a voice is at most the sum of its absolute gains times the
    magnitude of its current amplitude; an inactive voice gives exactly 0. *)
Theorem getSample_bounded_by_gains_and_amplitude (v : Voice) :
  (isNoteActive v = false -> getSample v = 0)
  /\ ((forall k, (k < Z.to_nat (numOvertones v))%nat ->
         0 <= nth k (phases v) 0 < twoPi) ->
      Rabs (getSample v) <= gainSum v * Rabs (getCurrentAmplitude v)).
Proof.
  unfold isNoteActive. split.
  - intros Ha. unfold getSample. rewrite Ha. reflexivity.
  - apply getSample_abs_le.
Qed.

Lemma getSample_bounded_by_gains_and_amplitude_witness :
  let v := startNote 69 0.8 (newVoice 44100) in
  Rabs (getSample v) <= gainSum v * Rabs (getCurrentAmplitude v).
Proof.
  intros v.
  apply (proj2 (getSample_bounded_by_gains_and_amplitude v)).
  intros k Hk.
  destruct (startNote_phases 69 0.8 (newVoice 44100) k) as (_ & H0 & _);
    try (simpl; lia).
  - exact Hk.
  - fold v in H0. rewrite H0. unfold twoPi. pose proof PI_RGT_0. lra.
Defined.

Lemma voiceInv_iter (n : nat) (v : Voice) :
  voiceInv v -> voiceInv (Nat.iter n advancePhase v).
Proof.
  intros H. induction n as [| n IH]; simpl; auto using voiceInv_advancePhase.
Qed.

Lemma iter_advancePhase_gains (n : nat) (v : Voice) :
  gains (Nat.iter n advancePhase v) = gains v.
Proof.
  induction n as [| n IH]; [reflexivity |].
  rewrite Nat.iter_succ, advancePhase_gains. exact IH.
Qed.

Lemma voiceInv_amplitude_abs (v : Voice) :
  voiceInv v -> isActive v = true -> releaseStage v = false ->
  Rabs (getCurrentAmplitude v) <= 0.8.
Proof.
  intros [_ Hact] Ha Hr. destruct (Hact Ha) as (Hv & Hl & _).
  unfold getCurrentAmplitude. rewrite Hr.
  apply Rabs_le. destruct (attackStage v); split; nra.
Qed.

(** X16.  A pool voice started by a note-on (velocity at most 0.8) whose
    highest harmonic does not exceed the sample rate gives samples of
    magnitude at most 0.9 * 0.8 = 0.72, through its whole attack and as
    long as it is held. *)
Theorem started_voice_sample_bound (note : Z) (vel : R) (v : Voice) (n : nat) :
  voiceInv v -> arraysFit v ->
  0 <= vel <= 0.8 ->
  0 < sampleRate v ->
  fundamental note * IZR (numOvertones v) <= sampleRate v ->
  Rabs (getSample (Nat.iter n advancePhase (startNote note vel v))) <= 0.72.
Proof.
  intros Hinv Hfit Hvel Hrate Hfreq.
  set (w0 := startNote note vel v). set (w := Nat.iter n advancePhase w0).
  pose proof (arraysFit_startNote note vel v Hfit) as Hfit0. fold w0 in Hfit0.
  destruct Hfit as (Hh & Hp & Hi & Hg).
  assert (Hwrapped0 : forall k, (k < Z.to_nat (numOvertones w0))%nat ->
            0 <= nth k (phases w0) 0 < twoPi
            /\ 0 <= nth k (phaseIncrements w0) 0 <= twoPi).
  { intros k Hk. change (numOvertones w0) with (numOvertones v) in Hk.
    destruct (startNote_phases note vel v k) as (_ & Hph & Hinc);
      [exact Hp | rewrite Hi; exact Hp | exact Hk |].
    fold w0 in Hph, Hinc. rewrite Hph, Hinc.
    pose proof PI_RGT_0 as Hpi. pose proof (fundamental_pos note) as Hf.
    assert (Hk1 : 1 <= IZR (Z.of_nat k + 1) <= IZR (numOvertones v))
      by (split; apply IZR_le; lia).
    assert (Hq : 0 <= fundamental note * IZR (Z.of_nat k + 1) / sampleRate v <= 1).
    { split.
      - apply Rmult_le_pos; [nra | left; apply Rinv_0_lt_compat; exact Hrate].
      - apply Rmult_le_reg_r with (sampleRate v); [exact Hrate |].
        unfold Rdiv. rewrite Rmult_assoc, Rinv_l by lra. nra. }
    unfold twoPi.
    replace (2 * PI * (fundamental note * IZR (Z.of_nat k + 1)) / sampleRate v)
      with (2 * PI * (fundamental note * IZR (Z.of_nat k + 1) / sampleRate v))
      by (unfold Rdiv; ring).
    split; [lra |]. split; nra. }
  destruct (advancePhase_iter_keeps_small_increments_wrapped n w0
              (proj1 (proj2 Hfit0)) Hwrapped0) as (Hn & _ & _ & Hwrapped).
  fold w in Hn, Hwrapped.
  destruct (sustain_stays_active n w0 eq_refl eq_refl) as [Ha Hr]. fold w in Ha, Hr.
  assert (Hinvw : voiceInv w)
    by (apply voiceInv_iter, voiceInv_startNote; assumption).
  assert (Hsum : gainSum w = 0.9).
  { unfold gainSum, w. rewrite iter_advancePhase_gains, iter_advancePhase_numOvertones.
    apply (startNote_gain_sum_exact note vel v); [exact Hh |].
    rewrite Hg. exact Hp. }
  eapply Rle_trans; [apply getSample_abs_le |].
  - intros k Hk. apply Hwrapped. rewrite <- Hn. exact Hk.
  - rewrite Hsum. pose proof (voiceInv_amplitude_abs w Hinvw Ha Hr). lra.
Qed.

Lemma started_voice_sample_bound_witness :
  Rabs (getSample (Nat.iter 1000 advancePhase (startNote 69 0.8 (newVoice 44100))))
  <= 0.72.
Proof.
  apply started_voice_sample_bound.
  - apply voiceInv_newVoice.
  - apply arraysFit_newVoice.
  - lra.
  - simpl. lra.
  - assert (Hf : fundamental 69 = 440).
    { unfold fundamental.
      replace (IZR (69 - 69) / 12) with 0 by (simpl; lra).
      rewrite Rpower_O by lra. lra. }
    rewrite Hf. simpl. lra.
Defined.

(** ** Silence *)

Lemma softClip_zero : softClip 0 = 0.
Proof. apply softClip_curve. lra. Qed.

Lemma sumVoices_silent (vs : list Voice) :
  Forall (fun u => isActive u = false) vs -> sumVoices vs = 0.
Proof.
  intros Hall. unfold sumVoices, isNoteActive.
  assert (Hacc : forall acc,
             fold_left (fun sampleValue v =>
                          if isActive v then sampleValue + getSample v
                          else sampleValue) vs acc = acc).
  { induction Hall as [| v rest Hv Hrest IH]; intros acc; simpl; [reflexivity |].
    rewrite Hv. apply IH. }
  apply Hacc.
Qed.

Lemma renderLoop_silent (n channels : nat) (masterAmplitude : R) :
  forall p : Processor,
    Forall (fun u => isActive u = false) (voices p) ->
    Forall (fun frame => frame = repeat 0 channels)
           (snd (renderLoop n channels masterAmplitude p)).
Proof.
  induction n as [| n IH]; intros p Hall; simpl; [constructor |].
  set (p' := mkProcessor _ _ _ _ _).
  assert (Hall' : Forall (fun u => isActive u = false) (voices p')).
  { unfold p'. simpl. apply Forall_map. eapply Forall_impl; [| exact Hall].
    intros u Hu. simpl. rewrite advancePhase_inactive; exact Hu. }
  specialize (IH p' Hall').
  destruct (renderLoop n channels masterAmplitude p'). simpl in *.
  constructor; [| exact IH].
  rewrite (sumVoices_silent _ Hall), !Rmult_0_l, softClip_zero. reflexivity.
Qed.

Lemma pushParameters_inactive (num : Z) (releaseTime attackTime : R) (v : Voice) :
  isActive v = false -> isActive (pushParameters num releaseTime attackTime v) = false.
Proof.
  intros Ha. unfold pushParameters.
  change (isActive (setNumOvertones num MAX_OVERTONES v) = false).
  unfold setNumOvertones.
  destruct (numOvertones v =? Z.max 1 (Z.min MAX_OVERTONES num))%Z; [exact Ha |].
  simpl. rewrite Ha. reflexivity.
Qed.

(** X17.  Silence in, silence out: when no voice of the pool is active and
    the block carries no note-on, every sample of every frame written is
    exactly 0 and no voice is active after the block. *)
Theorem silent_block_writes_zeros (inp : BlockInput) (p : Processor) :
  (forall u, In u (voices p) -> isNoteActive u = false) ->
  (forall m, In m (midiMessages inp) ->
     forall note vel, m <> NoteOn note vel) ->
  (forall frame s, In frame (snd (processBlock inp p)) -> In s frame -> s = 0)
  /\ activeVoices (voices (fst (processBlock inp p))) = 0%nat.
Proof.
  unfold isNoteActive. intros Hquiet Hnone.
  assert (Hafter : Forall (fun u => isActive u = false)
                          (voicesAfterEvents inp (voices p))).
  { unfold voicesAfterEvents.
    assert (Hpush : Forall (fun u => isActive u = false)
                      (map (pushParameters (blockOvertones inp) (releaseParam inp) float_0_002)
                           (voices p))).
    { apply Forall_map, Forall_forall. intros u Hu.
      apply pushParameters_inactive, Hquiet, Hu. }
    revert Hpush Hnone. generalize (map (pushParameters (blockOvertones inp)
                                            (releaseParam inp) float_0_002) (voices p)).
    induction (midiMessages inp) as [| m rest IH]; intros vs Hvs Hnone; simpl;
      [exact Hvs |].
    apply IH; [| intros m' Hm'; apply Hnone; right; exact Hm'].
    destruct m as [note vel | note | |].
    - exfalso. apply (Hnone (NoteOn note vel) (or_introl eq_refl) note vel).
      reflexivity.
    - apply Forall_onVoice; [| exact Hvs].
      intros u Hu. rewrite stopNote_isActive. exact Hu.
    - simpl. apply Forall_map. eapply Forall_impl; [| exact Hvs].
      intros u Hu. simpl. rewrite stopNote_isActive. exact Hu.
    - exact Hvs. }
  split.
  - intros frame s Hf Hs. unfold processBlock in Hf.
    match type of Hf with
    | context [renderLoop ?n ?c ?m ?q] =>
        pose proof (renderLoop_silent n c m q Hafter) as Hz
    end.
    rewrite Forall_forall in Hz. rewrite (Hz frame Hf) in Hs.
    apply repeat_spec in Hs. exact Hs.
  - unfold processBlock. rewrite renderLoop_advances_voices. simpl.
    unfold activeVoices. rewrite Forall_forall in Hafter.
    induction (voicesAfterEvents inp (voices p)) as [| u rest IH]; [reflexivity |].
    simpl. rewrite inactive_fixed by (apply Hafter; left; reflexivity).
    rewrite (Hafter u (or_introl eq_refl)). apply IH.
    intros x Hx. apply Hafter. right. exact Hx.
Qed.

Lemma silent_block_writes_zeros_witness :
  let inp := mkBlockInput 1 8 0.02 [NoteOff 60; AllNotesOff] 1 2 in
  let frames := snd (processBlock inp newProcessor) in
  let frame := nth 0 frames [] in
  let s := nth 0 frame 0 in
  In frame frames /\ In s frame /\ s = 0.
Proof.
  intros inp frames frame s.
  assert (Hshape : length frames = 1%nat
                   /\ forall f, In f frames -> exists x, f = repeat (softClip x) 2).
  { unfold frames, processBlock.
    match goal with
    | |- context [renderLoop ?n ?c ?m ?q] => exact (renderLoop_frames n c m q)
    end. }
  destruct Hshape as [Hlen Hshape].
  assert (Hf : In frame frames) by (apply nth_In; rewrite Hlen; lia).
  assert (Hs : In s frame).
  { destruct (Hshape frame Hf) as [x Hx]. unfold s. rewrite Hx. left. reflexivity. }
  split; [exact Hf |]. split; [exact Hs |].
  assert (Hquiet : forall u, In u (voices newProcessor) -> isNoteActive u = false).
  { intros u Hu. apply repeat_spec in Hu. subst u. reflexivity. }
  assert (Hnone : forall m, In m (midiMessages inp) ->
                    forall note vel, m <> NoteOn note vel).
  { intros m [<- | [<- | []]] note vel; discriminate. }
  exact (proj1 (silent_block_writes_zeros inp newProcessor Hquiet Hnone)
               frame s Hf Hs).
Defined.

(** ** A change of sample rate *)

(** X18.  [prepareToPlay] keeps the number of active voices but restarts
    every one of them, releasing ones included: after the call an active
    voice is back in attack at level 0 (current amplitude 0) and is not
    releasing.  Every voice gets the new rate and the sample counts of the
    attack time [0.002f] and of the release time [0.02f] at that rate, each
    the truncated product of the binary32 literal and the rate, at least 1
    (at 48 kHz: 96 and 959). *)
Theorem prepareToPlay_restarts_active_voices (rate : R) (p : Processor) :
  let vs' := voices (prepareToPlay rate p) in
  activeVoices vs' = activeVoices (voices p)
  /\ (forall u, In u vs' -> isNoteActive u = true ->
        isReleasing u = false /\ attackStage u = true /\ attackLevel u = 0
        /\ getCurrentAmplitude u = 0)
  /\ (forall u, In u vs' ->
        sampleRate u = rate
        /\ attackSamples u = Z.max 1 (truncToInt (float_0_002 * rate))
        /\ releaseSamples u = Z.max 1 (truncToInt (float_0_02 * rate))).
Proof.
  cbn zeta. unfold prepareToPlay, isNoteActive, isReleasing. simpl.
  assert (Hcase : forall w,
             (isActive w = true /\
              setSampleRate rate w
              = startNote (midiNote w) (velocity w)
                  (setReleaseTime float_0_02 (setAttackTime float_0_002
                     (mkVoice rate (isActive w) (midiNote w) (velocity w)
                        (phases w) (phaseIncrements w) (gains w) (numOvertones w)
                        (attackStage w) (attackLevel w) (attackSamples w)
                        (attackSamplesRemaining w) (releaseStage w)
                        (releaseLevel w) (releaseSamples w)
                        (releaseSamplesRemaining w)))))
             \/ (isActive w = false /\ isActive (setSampleRate rate w) = false
                 /\ sampleRate (setSampleRate rate w) = rate
                 /\ attackSamples (setSampleRate rate w)
                    = Z.max 1 (truncToInt (float_0_002 * rate))
                 /\ releaseSamples (setSampleRate rate w)
                    = Z.max 1 (truncToInt (float_0_02 * rate)))).
  { intros w. unfold setSampleRate. simpl. destruct (isActive w) eqn:Ea.
    - left. split; reflexivity.
    - right. repeat split. }
  split; [| split].
  - unfold activeVoices. induction (voices p) as [| w rest IH]; [reflexivity |].
    simpl. destruct (Hcase w) as [[Ea ->] | (Ea & Ea' & _)].
    + rewrite Ea. simpl. rewrite IH. reflexivity.
    + rewrite Ea, Ea'. exact IH.
  - intros u Hu Ha. apply in_map_iff in Hu. destruct Hu as (w & <- & _).
    destruct (Hcase w) as [[Ea Heq] | (Ea & Ea' & _)].
    + rewrite Heq. repeat split. unfold getCurrentAmplitude. simpl. lra.
    + congruence.
  - intros u Hu. apply in_map_iff in Hu. destruct Hu as (w & <- & _).
    destruct (Hcase w) as [[Ea Heq] | (Ea & Ea' & Hrest)].
    + rewrite Heq. repeat split.
    + exact Hrest.
Qed.

Lemma prepareToPlay_restarts_active_voices_witness :
  let p := mkProcessor
             (handleMidi (handleMidi (voices newProcessor) (NoteOn 69 1)) (NoteOff 69))
             44100 1 1 0.1 in
  exists u, In u (voices (prepareToPlay 48000 p))
            /\ isNoteActive u = true /\ isReleasing u = false
            /\ attackSamples u = 96%Z /\ releaseSamples u = 959%Z.
Proof.
  intros p.
  destruct (prepareToPlay_restarts_active_voices 48000 p)
    as (_ & Hrestart & Hcounts).
  exists (setSampleRate 48000 (stopNote (startNote 69 (1 * 0.8) (newVoice 44100)))).
  assert (Hin : In (setSampleRate 48000
                      (stopNote (startNote 69 (1 * 0.8) (newVoice 44100))))
                   (voices (prepareToPlay 48000 p))) by (left; reflexivity).
  split; [exact Hin |]. split; [reflexivity |].
  split; [apply (Hrestart _ Hin); reflexivity |].
  destruct (Hcounts _ Hin) as (_ & -> & ->).
  rewrite (truncToInt_nonneg _ 96), (truncToInt_nonneg _ 959);
    try (unfold float_0_002, float_0_02; lra).
  split; reflexivity.
Defined.

(** ** The compressor target against unity *)

Lemma ln_10_pos : 0 < ln 10.
Proof. rewrite <- ln_1. apply ln_increasing; lra. Qed.

(** X19.  With at least one active voice the target factor is positive.  It
    is at most 1 for one harmonic and from 9 harmonics on; for 2 to 8
    harmonics the harmonic term exceeds 1, so the target is above
    [1/sqrt(activeVoiceCount)], and above 1 when a single voice sounds. *)
Theorem targetScaling_against_unity (activeVoiceCount numOvertones : Z) :
  (1 <= activeVoiceCount)%Z -> (1 <= numOvertones)%Z ->
  0 < targetScaling activeVoiceCount numOvertones
  /\ ((numOvertones = 1 \/ 9 <= numOvertones)%Z ->
      targetScaling activeVoiceCount numOvertones <= 1)
  /\ ((2 <= numOvertones <= 8)%Z ->
      1 / sqrt (IZR activeVoiceCount) < targetScaling activeVoiceCount numOvertones
      /\ (activeVoiceCount = 1%Z -> 1 < targetScaling activeVoiceCount numOvertones)).
Proof.
  intros Hc Hh. unfold targetScaling, log10.
  replace (0 <? activeVoiceCount)%Z with true by (symmetry; apply Z.ltb_lt; lia).
  assert (Hc1 : 1 <= IZR activeVoiceCount) by (apply IZR_le; exact Hc).
  assert (Hs1 : 1 <= sqrt (IZR activeVoiceCount)).
  { rewrite <- sqrt_1 at 1. apply sqrt_le_1_alt. exact Hc1. }
  set (s := sqrt (IZR activeVoiceCount)) in *.
  assert (Hbase : 0 < 1 / s <= 1).
  { split.
    - apply Rdiv_lt_0_compat; lra.
    - apply Rmult_le_reg_r with s; [lra |].
      unfold Rdiv. rewrite Rmult_assoc, Rinv_l by lra. lra. }
  pose proof ln_10_pos as H10.
  destruct (1 <? numOvertones)%Z eqn:Emany.
  - apply Z.ltb_lt in Emany.
    assert (Hx : 3 <= IZR (numOvertones + 1)) by (apply IZR_le; lia).
    assert (Hln : 0 < ln (IZR (numOvertones + 1))).
    { rewrite <- ln_1. apply ln_increasing; lra. }
    set (l := ln (IZR (numOvertones + 1))) in *.
    assert (Hlog : 0 < l / ln 10) by (apply Rdiv_lt_0_compat; assumption).
    assert (Hterm : 0 < 0.3 / (l / ln 10)) by (apply Rdiv_lt_0_compat; lra).
    split; [nra |]. split.
    + intros [H1 | H9]; [lia |].
      assert (Hge : ln 10 <= l).
      { assert (Hx9 : 10 <= IZR (numOvertones + 1)) by (apply IZR_le; lia).
        destruct Hx9 as [Hlt | Heq].
        - left. apply ln_increasing; lra.
        - right. unfold l. rewrite <- Heq. reflexivity. }
      assert (Hlog1 : 1 <= l / ln 10).
      { apply Rmult_le_reg_r with (ln 10); [exact H10 |].
        unfold Rdiv. rewrite Rmult_assoc, Rinv_l by lra. lra. }
      assert (Hterm1 : 0.3 / (l / ln 10) <= 0.3).
      { apply Rmult_le_reg_r with (l / ln 10); [exact Hlog |].
        unfold Rdiv at 1. rewrite Rmult_assoc, Rinv_l by lra. nra. }
      nra.
    + intros H28.
      assert (Hlt : l < ln 10).
      { assert (Hx9 : IZR (numOvertones + 1) <= 9) by (apply IZR_le; lia).
        apply ln_increasing; lra. }
      assert (Hlog1 : l / ln 10 < 1).
      { apply Rmult_lt_reg_r with (ln 10); [exact H10 |].
        unfold Rdiv. rewrite Rmult_assoc, Rinv_l by lra. lra. }
      assert (Hterm1 : 0.3 < 0.3 / (l / ln 10)).
      { apply Rmult_lt_reg_r with (l / ln 10); [exact Hlog |].
        unfold Rdiv at 2. rewrite Rmult_assoc, Rinv_l by lra. nra. }
      split; [nra |].
      intros ->. unfold s. rewrite sqrt_1. lra.
  - apply Z.ltb_ge in Emany. split; [lra |]. split; [intros _; lra | lia].
Qed.

Lemma targetScaling_against_unity_witness :
  (1 <= 1)%Z /\ (1 <= 2)%Z /\ 1 < targetScaling 1 2.
Proof.
  assert (Hc : (1 <= 1)%Z) by lia. assert (Hh : (1 <= 2)%Z) by lia.
  split; [exact Hc |]. split; [exact Hh |].
  apply (proj2 (proj2 (targetScaling_against_unity 1 2 Hc Hh))); lia.
Defined.

(** ** Restarting a voice *)

Lemma startNote_loop_high (f0 rate : R) (n : nat) :
  forall b : Bank,
    let b' := fold_left (startNoteStep f0 rate) (seq 0 n) b in
    forall i, (n <= i)%nat ->
      nth i (bPhases b') 0 = nth i (bPhases b) 0
      /\ nth i (bIncrements b') 0 = nth i (bIncrements b) 0.
Proof.
  induction n as [| n IH]; intros b; cbn zeta; intros i Hi.
  - simpl. split; reflexivity.
  - rewrite seq_S, fold_left_app. simpl.
    destruct (IH b i) as [Hp Hq]; [lia |].
    rewrite !nth_store_other by lia. split; assumption.
Qed.

(** The three vectors after [startNote], cell by cell: the first
    [numOvertones] cells are computed from the note alone, the cells beyond
    are left as they were. *)
Lemma startNote_cells (note : Z) (vel : R) (v : Voice) (k : nat) :
  arraysFit v ->
  let h := Z.to_nat (numOvertones v) in
  let rawSum := sumTo (fun j => Rabs (specGain (fundamental note) j)) h in
  let c := if Rlt_dec 0.9 rawSum then 0.9 / rawSum else 1 in
  nth k (phases (startNote note vel v)) 0
  = (if (k <? h)%nat then 0 else nth k (phases v) 0)
  /\ nth k (phaseIncrements (startNote note vel v)) 0
     = (if (k <? h)%nat
        then twoPi * (fundamental note * IZR (Z.of_nat k + 1)) / sampleRate v
        else nth k (phaseIncrements v) 0)
  /\ nth k (gains (startNote note vel v)) 0
     = (if (k <? h)%nat then specGain (fundamental note) k * c
        else nth k (gains v) 0).
Proof.
  intros (Hh & Hp & Hi & Hg) h rawSum c.
  assert (Hpi : (h <= length (phaseIncrements v))%nat) by (rewrite Hi; exact Hp).
  assert (Hpg : (h <= length (gains v))%nat) by (rewrite Hg; exact Hp).
  destruct (k <? h)%nat eqn:Ek.
  - apply Nat.ltb_lt in Ek.
    destruct (startNote_phases note vel v k Hp Hpi Ek) as (_ & H0 & Hinc).
    split; [exact H0 |]. split; [exact Hinc |].
    apply (startNote_gains_shape note vel v Hpg k Ek).
  - apply Nat.ltb_ge in Ek.
    destruct (startNote_loop_high (fundamental note) (sampleRate v) h
                (mkBank (phases v) (phaseIncrements v) (gains v) 0) k Ek)
      as [Hph Hinc].
    split; [exact Hph |]. split; [exact Hinc |].
    destruct (startNote_loop (fundamental note) (sampleRate v) h
                (mkBank (phases v) (phaseIncrements v) (gains v) 0) Hpg)
      as (Lg & _ & Hhigh & _).
    unfold startNote. cbn [gains]. fold (fundamental note). fold h.
    set (b := fold_left _ (seq 0 h) (mkBank _ _ _ _)) in *.
    destruct (Rlt_dec 0.9 (bGainSum b)); [| apply (Hhigh k Ek)].
    destruct (fold_store_pointwise 0 (fun _ x => x * (0.9 / bGainSum b)) h (bGains b))
      as (_ & _ & Nhigh); [rewrite Lg; exact Hpg |].
    unfold normalizeStep. rewrite (Nhigh k Ek). apply (Hhigh k Ek).
Qed.

Lemma Voice_eq (a b : Voice) :
  sampleRate a = sampleRate b -> isActive a = isActive b ->
  midiNote a = midiNote b -> velocity a = velocity b ->
  phases a = phases b -> phaseIncrements a = phaseIncrements b ->
  gains a = gains b -> numOvertones a = numOvertones b ->
  attackStage a = attackStage b -> attackLevel a = attackLevel b ->
  attackSamples a = attackSamples b ->
  attackSamplesRemaining a = attackSamplesRemaining b ->
  releaseStage a = releaseStage b -> releaseLevel a = releaseLevel b ->
  releaseSamples a = releaseSamples b ->
  releaseSamplesRemaining a = releaseSamplesRemaining b ->
  a = b.
Proof. destruct a, b; simpl; intros; subst; reflexivity. Qed.

(** X20.  [startNote] overwrites: starting a voice that was itself just
    started gives the same voice as starting the original one, so the note
    and velocity a voice played before leave no trace in the note it is
    restarted (or stolen) for. *)
Theorem startNote_overwrites_earlier_note (note note0 : Z) (vel vel0 : R) (v : Voice) :
  arraysFit v ->
  startNote note vel (startNote note0 vel0 v) = startNote note vel v.
Proof.
  intros Hfit.
  pose proof (arraysFit_startNote note0 vel0 v Hfit) as Hfit0.
  destruct (startNote_lengths note0 vel0 v Hfit) as (Hn0 & Lp0 & Li0 & Lg0).
  destruct (startNote_lengths note vel v Hfit) as (_ & Lp & Li & Lg).
  destruct (startNote_lengths note vel _ Hfit0) as (_ & Lp' & Li' & Lg').
  assert (Hcells : forall k,
            nth k (phases (startNote note vel (startNote note0 vel0 v))) 0
            = nth k (phases (startNote note vel v)) 0
            /\ nth k (phaseIncrements (startNote note vel (startNote note0 vel0 v))) 0
               = nth k (phaseIncrements (startNote note vel v)) 0
            /\ nth k (gains (startNote note vel (startNote note0 vel0 v))) 0
               = nth k (gains (startNote note vel v)) 0).
  { intros k.
    destruct (startNote_cells note vel _ k Hfit0) as (P1 & I1 & G1).
    destruct (startNote_cells note vel v k Hfit) as (P2 & I2 & G2).
    destruct (startNote_cells note0 vel0 v k Hfit) as (P0 & I0 & G0).
    cbn zeta in *. rewrite Hn0 in *.
    change (sampleRate (startNote note0 vel0 v)) with (sampleRate v) in I1.
    rewrite P1, I1, G1, P2, I2, G2.
    destruct (k <? Z.to_nat (numOvertones v))%nat; [repeat split |].
    rewrite P0, I0, G0. repeat split. }
  apply Voice_eq; try reflexivity.
  - apply (nth_ext _ _ 0 0); [congruence |]. intros k _. apply Hcells.
  - apply (nth_ext _ _ 0 0); [congruence |]. intros k _. apply Hcells.
  - apply (nth_ext _ _ 0 0); [congruence |]. intros k _. apply Hcells.
Qed.

Lemma startNote_overwrites_earlier_note_witness :
  startNote 72 0.4 (startNote 60 0.8 (newVoice 44100))
  = startNote 72 0.4 (newVoice 44100).
Proof.
  apply startNote_overwrites_earlier_note. apply arraysFit_newVoice.
Defined.

(** ** Envelope times in samples *)

Lemma truncToInt_small (x : R) : x < 1 -> (truncToInt x <= 0)%Z.
Proof.
  intros Hx. unfold truncToInt. destruct (Rle_dec 0 x) as [Hnn | Hneg].
  - destruct (base_Int_part x) as [Hlo _].
    assert (H : IZR (Int_part x) < IZR 1) by lra. apply lt_IZR in H. lia.
  - destruct (base_Int_part (- x)) as [_ Hhi].
    assert (H : IZR (-1) < IZR (Int_part (- x))) by lra. apply lt_IZR in H. lia.
Qed.

(** X21.  [setAttackTime] and [setReleaseTime] store the duration in whole
    samples, never less than one: for a duration of at least one sample the
    stored count [N] is the product [seconds * sampleRate] rounded down
    ([N <= seconds * sampleRate < N + 1]); for any shorter (or negative)
    duration it is 1. *)
Theorem envelope_times_in_samples (seconds : R) (v : Voice) :
  let x := seconds * sampleRate v in
  let a := attackSamples (setAttackTime seconds v) in
  let r := releaseSamples (setReleaseTime seconds v) in
  a = r /\ (1 <= a)%Z
  /\ (1 <= x -> IZR a <= x < IZR a + 1)
  /\ (x < 1 -> a = 1%Z).
Proof.
  cbn zeta. simpl.
  set (x := seconds * sampleRate v).
  split; [reflexivity |]. split; [lia |]. split.
  - intros Hx. destruct (truncToInt_bounds x) as (Hz & Hlo & Hhi); [lra |].
    assert (H1 : (1 <= truncToInt x)%Z).
    { assert (H : IZR 0 < IZR (truncToInt x)) by lra. apply lt_IZR in H. lia. }
    rewrite Z.max_r by exact H1. lra.
  - intros Hx. pose proof (truncToInt_small x Hx). lia.
Qed.

Lemma envelope_times_in_samples_witness :
  1 <= 0.02 * sampleRate (newVoice 48000)
  /\ IZR (attackSamples (setAttackTime 0.02 (newVoice 48000)))
     <= 0.02 * sampleRate (newVoice 48000).
Proof.
  assert (H : 1 <= 0.02 * sampleRate (newVoice 48000)) by (simpl; lra).
  split; [exact H |].
  exact (proj1 (proj1 (proj2 (proj2
           (envelope_times_in_samples 0.02 (newVoice 48000)))) H)).
Defined.

(** ** Which free voice a note-on takes *)

Lemma firstInactive_lowest (vs : list Voice) :
  forall i0 i : nat,
    firstInactive vs i0 = Some i ->
    forall j u, (j < i - i0)%nat -> nth_error vs j = Some u -> isActive u = true.
Proof.
  induction vs as [| v rest IH]; intros i0 i Hfind j u Hj Hu; simpl in *;
    [discriminate |].
  unfold isNoteActive in Hfind. destruct (isActive v) eqn:Ea; simpl in Hfind.
  - destruct j as [| j]; simpl in Hu.
    + inversion Hu; subst. exact Ea.
    + apply (IH (S i0) i Hfind j u); [| exact Hu].
      pose proof (firstInactive_spec rest (S i0)) as Hs. rewrite Hfind in Hs.
      destruct Hs as (_ & Hle & _). lia.
  - inversion Hfind; subst. lia.
Qed.

(** X22.  While a voice is free, a note-on takes the free voice of lowest
    index: every voice before the chosen one is active, and the chosen one
    was inactive. *)
Theorem noteOn_takes_lowest_free_voice (vs : list Voice) :
  (exists u, In u vs /\ isNoteActive u = false) ->
  exists i v,
    findFreeVoice vs = Some i /\ nth_error vs i = Some v
    /\ isNoteActive v = false
    /\ forall j u, (j < i)%nat -> nth_error vs j = Some u -> isNoteActive u = true.
Proof.
  unfold isNoteActive. intros (u & Hu & Hua). unfold findFreeVoice.
  pose proof (firstInactive_spec vs 0) as Hspec.
  pose proof (firstInactive_lowest vs 0) as Hlow.
  destruct (firstInactive vs 0) as [i |].
  - destruct Hspec as (v & _ & Hnth & Hv). rewrite Nat.sub_0_r in Hnth.
    exists i, v. split; [reflexivity |]. split; [exact Hnth |].
    split; [exact Hv |].
    intros j w Hj Hw. apply (Hlow i eq_refl j w); [lia | exact Hw].
  - rewrite Forall_forall in Hspec. specialize (Hspec u Hu). congruence.
Qed.

Lemma noteOn_takes_lowest_free_voice_witness :
  let vs := handleMidi (voices newProcessor) (NoteOn 60 1) in
  exists i v, findFreeVoice vs = Some i /\ nth_error vs i = Some v
              /\ isNoteActive v = false.
Proof.
  intros vs.
  destruct (noteOn_takes_lowest_free_voice vs) as (i & v & Hf & Hn & Hv & _).
  - exists (newVoice 44100). split; [right; left |]; reflexivity.
  - exists i, v. auto.
Defined.

(** ** From all-notes-off to a free pool *)

(** X23.  All-notes-off followed by more calls of [advancePhase] than the
    longest release of the pool leaves no voice active (for voices already
    releasing: provided their remaining count is within their release
    total). *)
Theorem allNotesOff_then_pool_goes_free (vs : list Voice) (n : nat) :
  (forall u, In u vs -> releaseStage u = true ->
     (releaseSamplesRemaining u <= releaseSamples u)%Z) ->
  (forall u, In u vs -> (Z.max 0 (releaseSamples u) < Z.of_nat n)%Z) ->
  forall w, In w (map (Nat.iter n advancePhase) (handleMidi vs AllNotesOff)) ->
    isNoteActive w = false.
Proof.
  intros Hrem Hlong w Hw. unfold isNoteActive. simpl in Hw.
  rewrite map_map in Hw. apply in_map_iff in Hw. destruct Hw as (u & <- & Hu).
  specialize (Hrem u Hu). specialize (Hlong u Hu).
  destruct (isActive u) eqn:Ha.
  - destruct (releaseStage u) eqn:Hr.
    + rewrite stopNote_noop by auto.
      apply release_ends; auto. specialize (Hrem eq_refl). lia.
    + destruct (stopNote_enters_release u Ha Hr) as (Sa & Sr & _ & _ & Srem & _).
      apply release_ends; auto. rewrite Srem. exact Hlong.
  - rewrite stopNote_noop by auto. apply inactive_stays. exact Ha.
Qed.

Lemma allNotesOff_then_pool_goes_free_witness :
  let vs := handleMidi (voices newProcessor) (NoteOn 69 1) in
  let w := Nat.iter 883 advancePhase (stopNote (startNote 69 (1 * 0.8) (newVoice 44100))) in
  In w (map (Nat.iter 883 advancePhase) (handleMidi vs AllNotesOff))
  /\ isNoteActive w = false.
Proof.
  intros vs w.
  assert (Hall : forall u, In u vs ->
            releaseStage u = false /\ releaseSamples u = 881%Z).
  { intros u [<- | Hu].
    - split; [reflexivity | apply newVoice_releaseSamples].
    - apply repeat_spec in Hu. subst u.
      split; [reflexivity | apply newVoice_releaseSamples]. }
  assert (Hin : In w (map (Nat.iter 883 advancePhase) (handleMidi vs AllNotesOff)))
    by (left; reflexivity).
  split; [exact Hin |].
  apply (allNotesOff_then_pool_goes_free vs 883); [| | exact Hin].
  - intros u Hu Hr. destruct (Hall u Hu) as [Hf _]. congruence.
  - intros u Hu. destruct (Hall u Hu) as [_ ->]. lia.
Defined.

(** ** The active-voice count *)

(** X24.  [getActiveVoiceCount] is the number of voices with the active
    flag set: it lies between 0 and the pool size, is 0 exactly when no
    voice is active and equals the pool size exactly when all are. *)
Theorem getActiveVoiceCount_range (vs : list Voice) :
  getActiveVoiceCount vs = Z.of_nat (length (filter isNoteActive vs))
  /\ (0 <= getActiveVoiceCount vs <= Z.of_nat (length vs))%Z
  /\ (getActiveVoiceCount vs = 0%Z <-> forall u, In u vs -> isNoteActive u = false)
  /\ (getActiveVoiceCount vs = Z.of_nat (length vs)
      <-> forall u, In u vs -> isNoteActive u = true).
Proof.
  rewrite getActiveVoiceCount_activeVoices. unfold activeVoices, isNoteActive.
  split; [reflexivity |].
  assert (Hle : forall l : list Voice, (length (filter isActive l) <= length l)%nat).
  { intros l. induction l as [| h t IH]; simpl; [lia |].
    destruct (isActive h); simpl; lia. }
  split; [pose proof (Hle vs); lia |]. split.
  - split.
    + intros H0 u Hu. destruct (isActive u) eqn:Ha; [| reflexivity].
      assert (Hin : In u (filter isActive vs)) by (apply filter_In; auto).
      destruct (filter isActive vs); [contradiction | simpl in H0; lia].
    + intros Hall. induction vs as [| h t IH]; simpl; [reflexivity |].
      rewrite (Hall h (or_introl eq_refl)). apply IH.
      intros u Hu. apply Hall. right. exact Hu.
  - split.
    + intros Hfull. induction vs as [| h t IH]; intros u Hu; [contradiction |].
      simpl in Hfull. pose proof (Hle t) as Ht.
      destruct (isActive h) eqn:Ha; simpl in Hfull; [| lia].
      destruct Hu as [<- | Hu]; [exact Ha |].
      apply IH; [lia | exact Hu].
    + intros Hall. f_equal. induction vs as [| h t IH]; simpl; [reflexivity |].
      rewrite (Hall h (or_introl eq_refl)). simpl. f_equal. apply IH.
      intros u Hu. apply Hall. right. exact Hu.
Qed.

Lemma getActiveVoiceCount_range_witness :
  getActiveVoiceCount (voices newProcessor) = 0%Z.
Proof.
  apply (proj1 (proj2 (proj2 (getActiveVoiceCount_range (voices newProcessor))))).
  intros u Hu. apply repeat_spec in Hu. subst u. reflexivity.
Defined.

(** ** The wavetable *)

(** X25.  On the grid of the wavetable the lookup is exact: for a phase
    [twoPi * j / 4096] with [j < 4096], the term [getSample] adds for that
    harmonic is [sin phase] times the gain (no interpolation error). *)
Theorem overtoneSample_exact_on_grid (v : Voice) (i j : nat) :
  (j < 4096)%nat ->
  nth i (phases v) 0 = twoPi * INR j / 4096 ->
  overtoneSample v i = sin (nth i (phases v) 0) * nth i (gains v) 0.
Proof.
  intros Hj Hphase. unfold overtoneSample. rewrite Hphase.
  assert (Hpi : 0 < twoPi) by (unfold twoPi; pose proof PI_RGT_0; lra).
  assert (Hpos : twoPi * INR j / 4096 / twoPi * IZR WAVETABLE_SIZE = IZR (Z.of_nat j)).
  { rewrite <- INR_IZR_INZ. unfold WAVETABLE_SIZE. field. lra. }
  rewrite Hpos.
  assert (Hj0 : 0 <= IZR (Z.of_nat j)) by (apply IZR_le; lia).
  rewrite (truncToInt_nonneg (IZR (Z.of_nat j)) (Z.of_nat j)) by lra.
  rewrite Z.rem_small by (unfold WAVETABLE_SIZE; lia).
  replace (Z.of_nat j <? 0)%Z with false by (symmetry; apply Z.ltb_ge; lia).
  rewrite Nat2Z.id, sineTable_entry by exact Hj.
  replace (IZR (Z.of_nat j) - IZR (Z.of_nat j)) with 0 by ring.
  unfold WAVETABLE_SIZE. rewrite Rmult_0_l, Rplus_0_r. reflexivity.
Qed.

Lemma overtoneSample_exact_on_grid_witness :
  let v := startNote 69 0.8 (newVoice 44100) in
  overtoneSample v 0 = sin (nth 0 (phases v) 0) * nth 0 (gains v) 0.
Proof.
  intros v. apply (overtoneSample_exact_on_grid v 0 0); [lia |].
  destruct (startNote_phases 69 0.8 (newVoice 44100) 0) as (_ & H0 & _);
    try (simpl; lia).
  fold v in H0. rewrite H0. simpl. lra.
Defined.
